(** * Routing problem: the linear program built by [solve_linear_program]
      and the instance files of [save_to_csv] / [read_instance].

    The notebook is embedded the way it is written.  Python objects that
    the functions receive by reference (the networkx graph [G], the dict
    [traffic_demand]) and the objects they create (the Gurobi model, the
    dict [x] of variables, standard output, written files) live in a
    [World]; every statement of the Python code is a computation in a
    state-and-exception monad over that world.

    Modelling conventions.
    - Numbers: Python ints are [Z]; capacities, costs and solver values
      (Python ints or floats) are rationals [Q].
    - networkx: a [DiGraph] keeps its nodes and its arcs in insertion
      order; [G.edges], [G.in_edges], [G.out_edges], [G[u][v]] and
      [G.add_edge] are the library's documented behaviour on that data.
    - gurobipy: the model records the variables, what [addConstr] is
      given, and the objective.  A Python value built by the arithmetic
      operators is kept as the syntax tree of the operators that built it;
      it is a number when no variable occurs in it, and a linear
      expression of gurobipy otherwise.  [sum] starts from the number [0],
      so a sum over nothing is the number [0].  A comparison of two
      numbers is Python's [bool], and any other comparison is gurobipy's
      [TempConstr]: [addConstr] is given one or the other, and the model
      records which.  [addConstr] is taken to accept a [bool]; an
      assignment of the variables satisfies [True] and never satisfies
      [False].  Dividing by a number that is zero raises
      [ZeroDivisionError].  A [Var] handle is represented by the
      declaration it was created with (structured name and bounds).
      [model.optimize()] is an oracle [Solver] from models to outcomes;
      the outcome carries what the solver writes to standard output
      during [optimize()] and [computeIIS()].
    - csv: a file is the list of its rows, a row the list of its cells as
      text.
    - random: the generator is an oracle, a sequence of draws; [randint],
      [uniform] and [sample] are the library's computations on the draws.
      The graphs of [nx.complete_graph], [nx.cycle_graph] and
      [nx.erdos_renyi_graph] are built the way the library builds them,
      arc by arc, on a graph whose arcs may still lack their data. *)

From Stdlib Require Import ZArith QArith Qfield List String Ascii Bool Lia.
From Stdlib Require Import Decimal DecimalString Permutation.
From Stdlib Require DecimalZ DecimalPos.
Import ListNotations.

Local Open Scope Z_scope.
Local Open Scope list_scope.

(* ================================================================== *)
(** * Python values *)

(** [str(n)] for an int. *)
Definition py_str (n : Z) : string := NilZero.string_of_int (Z.to_int n).

(** [int(s)] on a decimal literal with an optional minus sign; [None] is
    [ValueError]. *)
Definition py_int (s : string) : option Z :=
  option_map Z.of_int (NilZero.int_of_string s).

Inductive exn :=
| ValueError (msg : string)
| KeyError
| IndexError
| ZeroDivisionError
| Exception (msg : string).

(** Insertion-ordered [dict]. *)
Section Dict.
Context {K V : Type} (eqb : K -> K -> bool).

Fixpoint dict_get (k : K) (d : list (K * V)) : option V :=
  match d with
  | [] => None
  | (k', v) :: d' => if eqb k k' then Some v else dict_get k d'
  end.

Fixpoint dict_set (k : K) (v : V) (d : list (K * V)) : list (K * V) :=
  match d with
  | [] => [(k, v)]
  | (k', v') :: d' =>
      if eqb k k' then (k', v) :: d' else (k', v') :: dict_set k v d'
  end.
End Dict.

(* ================================================================== *)
(** * networkx.DiGraph *)

Definition node := Z.
Definition arc := (node * node)%type.

Definition arc_eqb (a b : arc) : bool :=
  (fst a =? fst b) && (snd a =? snd b).

Record EdgeAttr := { capacity : Q; cost : Q }.

Record DiGraph := {
  g_nodes : list node;              (* G._node, in insertion order *)
  g_adj : list (arc * EdgeAttr)     (* the arcs with their data, in insertion order *)
}.

Definition empty_DiGraph : DiGraph := {| g_nodes := []; g_adj := [] |}.

(** [G.nodes] *)
Definition G_nodes (G : DiGraph) : list node := g_nodes G.

(** [G.out_edges(n)]: the arcs leaving [n]. *)
Definition G_out_edges (G : DiGraph) (n : node) : list arc :=
  map fst (filter (fun e => fst (fst e) =? n) (g_adj G)).

(** [G.in_edges(n)]: the arcs entering [n]. *)
Definition G_in_edges (G : DiGraph) (n : node) : list arc :=
  map fst (filter (fun e => snd (fst e) =? n) (g_adj G)).

(** [G.edges]: for every node in order, its outgoing arcs. *)
Definition G_edges (G : DiGraph) : list arc :=
  flat_map (G_out_edges G) (g_nodes G).

(** [G.number_of_edges()] *)
Definition G_number_of_edges (G : DiGraph) : Z :=
  Z.of_nat (List.length (g_adj G)).

(** [G[u][v]] *)
Definition G_getitem (G : DiGraph) (u v : node) : option EdgeAttr :=
  dict_get arc_eqb (u, v) (g_adj G).

Definition add_node (G : DiGraph) (n : node) : DiGraph :=
  if existsb (Z.eqb n) (g_nodes G) then G
  else {| g_nodes := g_nodes G ++ [n]; g_adj := g_adj G |}.

(** [G.add_edge(u, v, capacity=c, cost=k)] *)
Definition G_add_edge (G : DiGraph) (u v : node) (a : EdgeAttr) : DiGraph :=
  let G' := add_node (add_node G u) v in
  {| g_nodes := g_nodes G'; g_adj := dict_set arc_eqb (u, v) a (g_adj G') |}.

(** The invariants networkx maintains: nodes and arcs are keys of dicts,
    and both ends of an arc are nodes. *)
Definition wf_graph (G : DiGraph) : Prop :=
  NoDup (g_nodes G) /\
  NoDup (map fst (g_adj G)) /\
  forall u v, In (u, v) (map fst (g_adj G)) ->
              In u (g_nodes G) /\ In v (g_nodes G).

(** [traffic_demand]: a dict from (origin, destination) to the volume. *)
Definition Demands := list (arc * Z).

(* ================================================================== *)
(** * gurobipy *)

(** The names given to variables, [f"x_{i}_{j}_{u}_{v}"] and
    ["max_utilisation"], kept structured. *)
Inductive VarName :=
| x_name (i j u v : Z)
| max_utilisation_name.

Definition VarName_str (n : VarName) : string :=
  match n with
  | x_name i j u v =>
      ("x_" ++ py_str i ++ "_" ++ py_str j ++ "_" ++ py_str u ++ "_" ++ py_str v)%string
  | max_utilisation_name => "max_utilisation"%string
  end.

Inductive Bound := Finite (q : Q) | GRB_INFINITY.

Record Var := { VarName_of : VarName; LB : Q; UB : Bound }.

Inductive expr :=
| ENum (q : Q)
| EVar (v : Var)
| EAdd (a b : expr)
| ESub (a b : expr)
| EMul (a b : expr)
| EDiv (a : expr) (q : Q).

Inductive Sense := LessEqual | Equal | GreaterEqual.

(** A comparison [lhs sense rhs] as the code writes it, with the name
    under which its value is given to [model.addConstr]. *)
Record Constr := {
  c_lhs : expr;
  c_sense : Sense;
  c_rhs : expr;
  c_name : string
}.

(** Value of an expression under an assignment of the variables. *)
Fixpoint eval (val : Var -> Q) (e : expr) : Q :=
  match e with
  | ENum q => q
  | EVar v => val v
  | EAdd a b => (eval val a + eval val b)%Q
  | ESub a b => (eval val a - eval val b)%Q
  | EMul a b => (eval val a * eval val b)%Q
  | EDiv a q => (eval val a / q)%Q
  end.

Fixpoint vars_of (e : expr) : list Var :=
  match e with
  | ENum _ => []
  | EVar v => [v]
  | EAdd a b | ESub a b | EMul a b => vars_of a ++ vars_of b
  | EDiv a _ => vars_of a
  end.

(** A Python value built by the arithmetic operators is a number (an
    [int] or a [float]) exactly when no variable occurs in it; as soon as
    one occurs it is one of gurobipy's linear expressions. *)
Definition is_number (e : expr) : bool :=
  match vars_of e with
  | [] => true
  | _ :: _ => false
  end.

Definition number (e : expr) : Q := eval (fun _ => 0%Q) e.

(** [a sense b] on two numbers. *)
Definition truth (s : Sense) (a b : Q) : bool :=
  match s with
  | Equal => Qeq_bool a b
  | LessEqual => Qle_bool a b
  | GreaterEqual => Qle_bool b a
  end.

(** The value of [lhs sense rhs]: Python's [bool] when both sides are
    numbers, gurobipy's [TempConstr] as soon as one side holds a
    variable. *)
Inductive Compared :=
| PyBool (b : bool)
| TempConstr (lhs : expr) (s : Sense) (rhs : expr).

Definition compare (lhs : expr) (s : Sense) (rhs : expr) : Compared :=
  if is_number lhs && is_number rhs
  then PyBool (truth s (number lhs) (number rhs))
  else TempConstr lhs s rhs.

(** What [model.addConstr] was given, and the name. *)
Record Added := { given : Compared; given_name : string }.

(** The comparison [c], evaluated and given to [model.addConstr]. *)
Definition passed (c : Constr) : Added :=
  {| given := compare (c_lhs c) (c_sense c) (c_rhs c); given_name := c_name c |}.

Inductive Status := LOADED | OPTIMAL | INFEASIBLE | INF_OR_UNBD | UNBOUNDED | OTHER.

Definition Status_eqb (a b : Status) : bool :=
  match a, b with
  | LOADED, LOADED | OPTIMAL, OPTIMAL | INFEASIBLE, INFEASIBLE
  | INF_OR_UNBD, INF_OR_UNBD | UNBOUNDED, UNBOUNDED | OTHER, OTHER => true
  | _, _ => false
  end.

(** What [model.optimize()] leaves in the model, and what the solver
    writes to standard output: its log during [optimize()] and, when it
    is asked for one, during [computeIIS()]. *)
Record Outcome := {
  o_status : Status;
  o_x : Var -> Q;              (* var.x *)
  o_ObjVal : Q;                (* model.ObjVal *)
  o_log : list string;         (* the lines of the log of optimize() *)
  o_iis_log : list string      (* the lines of the log of computeIIS() *)
}.

Inductive Direction := MINIMIZE | MAXIMIZE.

Record Model := {
  m_name : string;
  m_vars : list Var;
  m_constrs : list Added;
  m_objective : option (expr * Direction);
  m_outcome : option Outcome;     (* set by optimize() *)
  m_optimize_calls : nat;
  m_iis_computed : bool
}.

Definition new_Model (name : string) : Model :=
  {| m_name := name; m_vars := []; m_constrs := []; m_objective := None;
     m_outcome := None; m_optimize_calls := 0; m_iis_computed := false |}.

Definition m_status (m : Model) : Status :=
  match m_outcome m with
  | None => LOADED
  | Some o => o_status o
  end.

Definition Solver := Model -> Outcome.

(* ================================================================== *)
(** * The world and its monad *)

Definition key := (Z * Z * Z * Z)%type.

Definition key_eqb (a b : key) : bool :=
  match a, b with
  | (i, j, u, v), (i', j', u', v') =>
      (i =? i') && (j =? j') && (u =? u') && (v =? v')
  end.

Record World := {
  w_G : DiGraph;                   (* the object bound to G *)
  w_traffic_demand : Demands;      (* the object bound to traffic_demand *)
  w_model : Model;                 (* the local model *)
  w_x : list (key * Var);          (* the local dict x *)
  w_stdout : list string;
  w_files : list string            (* names of the files written *)
}.

Definition M (A : Type) : Type := World -> World * (exn + A).

Definition ret {A} (a : A) : M A := fun w => (w, inr a).

Definition raise {A} (e : exn) : M A := fun w => (w, inl e).

Definition bind {A B} (m : M A) (k : A -> M B) : M B :=
  fun w =>
    match m w with
    | (w', inr a) => k a w'
    | (w', inl e) => (w', inl e)
    end.

Declare Scope py_scope.
Delimit Scope py_scope with py.
Notation "x <- m ;; k" := (bind m (fun x => k))
  (at level 61, m at next level, right associativity) : py_scope.
Notation "' p <- m ;; k" := (bind m (fun p => k))
  (at level 61, p pattern, m at next level, right associativity) : py_scope.
Notation "m ;; k" := (bind m (fun _ => k))
  (at level 61, right associativity) : py_scope.
Local Open Scope py_scope.

Definition gets {A} (f : World -> A) : M A := fun w => (w, inr (f w)).

Definition set_model (m : Model) (w : World) : World :=
  {| w_G := w_G w; w_traffic_demand := w_traffic_demand w; w_model := m;
     w_x := w_x w; w_stdout := w_stdout w; w_files := w_files w |}.

Definition set_x (x : list (key * Var)) (w : World) : World :=
  {| w_G := w_G w; w_traffic_demand := w_traffic_demand w; w_model := w_model w;
     w_x := x; w_stdout := w_stdout w; w_files := w_files w |}.

(** [for a in l: body(a)] *)
Fixpoint for_each {A} (l : list A) (body : A -> M unit) : M unit :=
  match l with
  | [] => ret tt
  | a :: l' => body a ;; for_each l' body
  end.

(** [sum(term(a) for a in l)]: the accumulator starts at [0]. *)
Fixpoint sum_from {A} (acc : expr) (l : list A) (term : A -> M expr) : M expr :=
  match l with
  | [] => ret acc
  | a :: l' => t <- term a ;; sum_from (EAdd acc t) l' term
  end.

Definition py_sum {A} (l : list A) (term : A -> M expr) : M expr :=
  sum_from (ENum 0) l term.

(** [e / q] *)
Definition py_div (e : expr) (q : Q) : M expr :=
  if Qeq_bool q 0 then raise ZeroDivisionError else ret (EDiv e q).

(** ** The operations the notebook calls *)

(** [Model(name)] bound to the local [model]. *)
Definition Model_new (name : string) : M unit :=
  fun w => (set_model (new_Model name) w, inr tt).

(** [x = {}] *)
Definition x_new : M unit := fun w => (set_x [] w, inr tt).

(** [model.addVar(lb=, ub=, name=)] *)
Definition addVar (lb : Q) (ub : Bound) (name : VarName) : M Var :=
  fun w =>
    let v := {| VarName_of := name; LB := lb; UB := ub |} in
    let m := w_model w in
    (set_model {| m_name := m_name m; m_vars := m_vars m ++ [v];
                  m_constrs := m_constrs m; m_objective := m_objective m;
                  m_outcome := m_outcome m;
                  m_optimize_calls := m_optimize_calls m;
                  m_iis_computed := m_iis_computed m |} w, inr v).

(** [model.addConstr(c, name=)], where [c] is the value of a comparison. *)
Definition addConstr (c : Compared) (name : string) : M unit :=
  fun w =>
    let c := {| given := c; given_name := name |} in
    let m := w_model w in
    (set_model {| m_name := m_name m; m_vars := m_vars m;
                  m_constrs := m_constrs m ++ [c]; m_objective := m_objective m;
                  m_outcome := m_outcome m;
                  m_optimize_calls := m_optimize_calls m;
                  m_iis_computed := m_iis_computed m |} w, inr tt).

(** [model.setObjective(e, direction)] *)
Definition setObjective (e : expr) (d : Direction) : M unit :=
  fun w =>
    let m := w_model w in
    (set_model {| m_name := m_name m; m_vars := m_vars m;
                  m_constrs := m_constrs m; m_objective := Some (e, d);
                  m_outcome := m_outcome m;
                  m_optimize_calls := m_optimize_calls m;
                  m_iis_computed := m_iis_computed m |} w, inr tt).

(** Lines written to standard output by the solver. *)
Definition solver_writes (lines : list string) (w : World) : World :=
  {| w_G := w_G w; w_traffic_demand := w_traffic_demand w;
     w_model := w_model w; w_x := w_x w; w_stdout := w_stdout w ++ lines;
     w_files := w_files w |}.

(** [model.optimize()]: the solver runs on the model and writes its log. *)
Definition optimize (gurobi : Solver) : M unit :=
  fun w =>
    let m := w_model w in
    (solver_writes (o_log (gurobi m))
       (set_model {| m_name := m_name m; m_vars := m_vars m;
                     m_constrs := m_constrs m; m_objective := m_objective m;
                     m_outcome := Some (gurobi m);
                     m_optimize_calls := S (m_optimize_calls m);
                     m_iis_computed := m_iis_computed m |} w), inr tt).

(** The log of [computeIIS()] on a model that was optimized. *)
Definition iis_log (m : Model) : list string :=
  match m_outcome m with
  | Some o => o_iis_log o
  | None => []
  end.

(** [model.computeIIS()]: it writes its log too. *)
Definition computeIIS : M unit :=
  fun w =>
    let m := w_model w in
    (solver_writes (iis_log m)
       (set_model {| m_name := m_name m; m_vars := m_vars m;
                     m_constrs := m_constrs m; m_objective := m_objective m;
                     m_outcome := m_outcome m;
                     m_optimize_calls := m_optimize_calls m;
                     m_iis_computed := true |} w), inr tt).

(** [model.write(filename)] *)
Definition model_write (filename : string) : M unit :=
  fun w =>
    ({| w_G := w_G w; w_traffic_demand := w_traffic_demand w;
        w_model := w_model w; w_x := w_x w; w_stdout := w_stdout w;
        w_files := w_files w ++ [filename] |}, inr tt).

(** [print(s)] *)
Definition print (s : string) : M unit :=
  fun w =>
    ({| w_G := w_G w; w_traffic_demand := w_traffic_demand w;
        w_model := w_model w; w_x := w_x w; w_stdout := w_stdout w ++ [s];
        w_files := w_files w |}, inr tt).

(** [x[i, j, u, v] = var] *)
Definition x_setitem (k : key) (v : Var) : M unit :=
  fun w => (set_x (dict_set key_eqb k v (w_x w)) w, inr tt).

(** [x[(i, j, u, v)]] *)
Definition x_getitem (k : key) : M Var :=
  fun w =>
    match dict_get key_eqb k (w_x w) with
    | Some v => (w, inr v)
    | None => (w, inl KeyError)
    end.

(** [G[u][v]] *)
Definition G_item (u v : node) : M EdgeAttr :=
  fun w =>
    match G_getitem (w_G w) u v with
    | Some a => (w, inr a)
    | None => (w, inl KeyError)
    end.

(** [traffic_demand.items()] *)
Definition items : M (list (arc * Z)) := gets w_traffic_demand.

(** [var.x] and [model.ObjVal], read after [optimize()]. *)
Definition var_x (m : Model) (v : Var) : Q :=
  match m_outcome m with
  | Some o => o_x o v
  | None => 0%Q
  end.

Definition ObjVal (m : Model) : Q :=
  match m_outcome m with
  | Some o => o_ObjVal o
  | None => 0%Q
  end.

(* ================================================================== *)
(** * solve_linear_program *)

(** [[
    x = {}
    for (i, j), demand in traffic_demand.items():
        for u, v in G.edges:
            x[i, j, u, v] = model.addVar(lb=0, ub=1, name=f"x_{i}_{j}_{u}_{v}")
    ]] *)
Definition declare_variables : M unit :=
  x_new ;;
  td <- items ;;
  for_each td (fun '((i, j), demand) =>
    edges <- gets (fun w => G_edges (w_G w)) ;;
    for_each edges (fun '(u, v) =>
      var <- addVar 0 (Finite 1) (x_name i j u v) ;;
      x_setitem (i, j, u, v) var)).

(** [sum(x[(i, j, u, v)] for u, v in edges)] *)
Definition flow_sum (i j : Z) (edges : list arc) : M expr :=
  py_sum edges (fun '(u, v) => var <- x_getitem (i, j, u, v) ;; ret (EVar var)).

Definition flow_name (kind : string) (i j n : Z) : string :=
  (kind ++ py_str i ++ "_" ++ py_str j ++ "_" ++ py_str n)%string.

(** [[
    for (i, j), demand in traffic_demand.items():
        for node in G.nodes:
            inflow = sum(x[(i, j, u, v)] for u, v in G.in_edges(node))
            outflow = sum(x[(i, j, u, v)] for u, v, in G.out_edges(node))
            if node == i:
                model.addConstr(outflow - inflow == 1, name=f"flow_src_{i}_{j}_{node}")
            elif node == j:
                model.addConstr(inflow - outflow == 1, name=f"flow_dst_{i}_{j}_{node}")
            else:
                model.addConstr(inflow - outflow == 0, name=f"flow_mid_{i}_{j}_{node}")
    ]] *)
Definition add_flow_conservation : M unit :=
  td <- items ;;
  for_each td (fun '((i, j), demand) =>
    nodes <- gets (fun w => G_nodes (w_G w)) ;;
    for_each nodes (fun node =>
      in_edges <- gets (fun w => G_in_edges (w_G w) node) ;;
      inflow <- flow_sum i j in_edges ;;
      out_edges <- gets (fun w => G_out_edges (w_G w) node) ;;
      outflow <- flow_sum i j out_edges ;;
      if node =? i then
        addConstr (compare (ESub outflow inflow) Equal (ENum 1))
                  (flow_name "flow_src_" i j node)
      else if node =? j then
        addConstr (compare (ESub inflow outflow) Equal (ENum 1))
                  (flow_name "flow_dst_" i j node)
      else
        addConstr (compare (ESub inflow outflow) Equal (ENum 0))
                  (flow_name "flow_mid_" i j node))).

(** [sum(demand * x[(i, j, u, v)] for (i, j), demand in traffic_demand.items())] *)
Definition load_sum (u v : node) : M expr :=
  td <- items ;;
  py_sum td (fun '((i, j), demand) =>
    var <- x_getitem (i, j, u, v) ;;
    ret (EMul (ENum (inject_Z demand)) (EVar var))).

Definition arc_name (kind : string) (u v : Z) : string :=
  (kind ++ py_str u ++ "_" ++ py_str v)%string.

(** [[
    for u, v in G.edges:
        model.addConstr(
            sum(demand * x[(i, j, u, v)] for (i, j), demand in traffic_demand.items())
              <= G[u][v]['capacity'],
            name=f"capacity_{u}_{v}")
    ]] *)
Definition add_capacity_constraints : M unit :=
  edges <- gets (fun w => G_edges (w_G w)) ;;
  for_each edges (fun '(u, v) =>
    load <- load_sum u v ;;
    a <- G_item u v ;;
    addConstr (compare load LessEqual (ENum (capacity a))) (arc_name "capacity_" u v)).

(** The [if objective == ...] chain. *)
Definition set_objective (objective : string) : M unit :=
  if (objective =? "cost")%string then
    td <- items ;;
    edges <- gets (fun w => G_edges (w_G w)) ;;
    total <- py_sum (list_prod td edges) (fun '(((i, j), demand), (u, v)) =>
               var <- x_getitem (i, j, u, v) ;;
               a <- G_item u v ;;
               ret (EMul (EMul (EVar var) (ENum (inject_Z demand))) (ENum (cost a)))) ;;
    setObjective total MINIMIZE
  else if (objective =? "max_utlilization")%string then
    utilisation <- addVar 0 GRB_INFINITY max_utilisation_name ;;
    edges <- gets (fun w => G_edges (w_G w)) ;;
    for_each edges (fun '(u, v) =>
      load <- load_sum u v ;;
      a <- G_item u v ;;
      ratio <- py_div load (capacity a) ;;
      addConstr (compare (EVar utilisation) GreaterEqual ratio)
                (arc_name "utilisation_" u v)) ;;
    setObjective (EVar utilisation) MINIMIZE
  else if (objective =? "avg_utilisation")%string then
    edges <- gets (fun w => G_edges (w_G w)) ;;
    total <- py_sum edges (fun '(u, v) =>
               load <- load_sum u v ;;
               a <- G_item u v ;;
               py_div load (capacity a)) ;;
    n <- gets (fun w => G_number_of_edges (w_G w)) ;;
    avg_utilisation <- py_div total (inject_Z n) ;;
    setObjective avg_utilisation MINIMIZE
  else
    raise (ValueError "Fonction objectif non reconnue").

(** Everything up to, and excluding, [model.optimize()]. *)
Definition build_model (objective : string) : M unit :=
  Model_new "Routing" ;;
  declare_variables ;;
  add_flow_conservation ;;
  add_capacity_constraints ;;
  set_objective objective.

Definition Solution := list (key * Q).

(** [{key: var.x for key, var in x.items() if var.x > 0}] *)
Definition positive_flows (m : Model) (x : list (key * Var)) : Solution :=
  fold_left
    (fun sol kv =>
       if negb (Qle_bool (var_x m (snd kv)) 0)
       then dict_set key_eqb (fst kv) (var_x m (snd kv)) sol
       else sol)
    x [].

(** The code after [model.optimize()].  [None] is Python's [None]. *)
Definition interpret_status : M (option (Solution * Q)) :=
  m <- gets w_model ;;
  if Status_eqb (m_status m) INFEASIBLE then
    print "Modèle infaisable. Analyse des conflits..." ;;
    computeIIS ;;
    model_write "infeasible.ilp" ;;
    print "Conflits enregistrés dans infeasible.ilp" ;;
    ret None
  else if Status_eqb (m_status m) OPTIMAL then
    x <- gets w_x ;;
    ret (Some (positive_flows m x, ObjVal m))
  else
    raise (Exception "Pas de solution optimale trouvée").

Definition solve_linear_program (gurobi : Solver) (objective : string)
  : M (option (Solution * Q)) :=
  build_model objective ;;
  optimize gurobi ;;
  interpret_status.


(* ================================================================== *)
(** * save_to_csv and read_instance *)

(** A file written through [csv.writer] and read through [csv.reader] is
    its list of rows; a row is the list of its cells as text, and a blank
    line is the empty row.  [str] and [float] on capacities and costs are
    parameters of the section. *)

Definition Row := list string.

Definition ebind {A B} (r : exn + A) (k : A -> exn + B) : exn + B :=
  match r with
  | inl e => inl e
  | inr a => k a
  end.

Declare Scope err_scope.
Delimit Scope err_scope with err.
Notation "x <- m ;; k" := (ebind m (fun x => k))
  (at level 61, m at next level, right associativity) : err_scope.

(** [row[n]] *)
Definition cell (row : Row) (n : nat) : exn + string :=
  match nth_error row n with
  | Some s => inr s
  | None => inl IndexError
  end.

(** [int(s)] *)
Definition to_int (s : string) : exn + Z :=
  match py_int s with
  | Some z => inr z
  | None => inl (ValueError ("invalid literal for int() with base 10: '" ++ s ++ "'"))
  end.

(** [list(map(int, row))] *)
Fixpoint map_int (row : Row) : exn + list Z :=
  match row with
  | [] => inr []
  | s :: row' =>
      (z <- to_int s ;; zs <- map_int row' ;; inr (z :: zs))%err
  end.

Inductive FileSection := arcs | traffic | subset.

Record ReadState := {
  r_G : DiGraph;
  r_traffic_demand : Demands;
  r_S : list Z;
  r_section : FileSection
}.

Definition set_section (s : FileSection) (st : ReadState) : ReadState :=
  {| r_G := r_G st; r_traffic_demand := r_traffic_demand st; r_S := r_S st;
     r_section := s |}.

Section Persistence.
Variable str_num : Q -> string.             (* str(x) of a capacity or a cost *)
Variable py_float : string -> option Q.     (* float(s) *)

(** [float(s)] *)
Definition to_float (s : string) : exn + Q :=
  match py_float s with
  | Some q => inr q
  | None => inl (ValueError ("could not convert string to float: '" ++ s ++ "'"))
  end.

(** [[
    for u, v in G.edges:
        writer.writerow([u, v, G[u][v]['capacity'], G[u][v]['cost']])
    ]] *)
Fixpoint arc_rows (G : DiGraph) (edges : list arc) : exn + list Row :=
  match edges with
  | [] => inr []
  | (u, v) :: edges' =>
      match G_getitem G u v with
      | None => inl KeyError
      | Some a =>
          (rows <- arc_rows G edges' ;;
           inr ([py_str u; py_str v; str_num (capacity a); str_num (cost a)] :: rows))%err
      end
  end.

(** [[
    for (i, j), demand in traffic_demand.items():
        writer.writerow([i, j, demand])
    ]] *)
Definition demand_rows (td : Demands) : list Row :=
  map (fun d => [py_str (fst (fst d)); py_str (snd (fst d)); py_str (snd d)]) td.

(** The rows [save_to_csv(G, S, traffic_demand, filename)] writes. *)
Definition save_to_csv (G : DiGraph) (S : list Z) (td : Demands) : exn + list Row :=
  (rows <- arc_rows G (G_edges G) ;;
   inr ([["Source"; "Target"; "Capacity"; "Cost"]%string]
        ++ rows
        ++ [[]]
        ++ [["entry"; "Target"; "Traffic Demand"]%string]
        ++ demand_rows td
        ++ [[]]
        ++ [["Subset S"%string]]
        ++ [map py_str S]))%err.

(** [G.add_edge(int(row[0]), int(row[1]), capacity=float(row[2]), cost=float(row[3]))] *)
Definition read_arc (row : Row) (st : ReadState) : exn + ReadState :=
  (c0 <- cell row 0 ;; u <- to_int c0 ;;
   c1 <- cell row 1 ;; v <- to_int c1 ;;
   c2 <- cell row 2 ;; cap <- to_float c2 ;;
   c3 <- cell row 3 ;; cst <- to_float c3 ;;
   inr {| r_G := G_add_edge (r_G st) u v {| capacity := cap; cost := cst |};
          r_traffic_demand := r_traffic_demand st; r_S := r_S st;
          r_section := r_section st |})%err.

(** [traffic_demand[(int(row[0]), int(row[1]))] = int(row[2])]: the
    right-hand side is evaluated first. *)
Definition read_demand (row : Row) (st : ReadState) : exn + ReadState :=
  (c2 <- cell row 2 ;; d <- to_int c2 ;;
   c0 <- cell row 0 ;; i <- to_int c0 ;;
   c1 <- cell row 1 ;; j <- to_int c1 ;;
   inr {| r_G := r_G st;
          r_traffic_demand := dict_set arc_eqb (i, j) d (r_traffic_demand st);
          r_S := r_S st; r_section := r_section st |})%err.

(** The body of [for row in reader:]. *)
Fixpoint read_rows (rows : list Row) (st : ReadState) : exn + ReadState :=
  match rows with
  | [] => inr st
  | row :: rows' =>
      match row with
      | [] => read_rows rows' st                              (* if not row: continue *)
      | c0 :: _ =>
          if (c0 =? "Source")%string then read_rows rows' st  (* continue *)
          else
            let st1 := if (c0 =? "entry")%string
                       then set_section traffic st else st in
            if (c0 =? "Subset S")%string
            then read_rows rows' (set_section subset st1)     (* continue *)
            else
              match r_section st1 with
              | arcs => (st2 <- read_arc row st1 ;; read_rows rows' st2)%err
              | traffic => (st2 <- read_demand row st1 ;; read_rows rows' st2)%err
              | subset =>
                  (S <- map_int row ;;
                   inr {| r_G := r_G st1;
                          r_traffic_demand := r_traffic_demand st1;
                          r_S := S; r_section := r_section st1 |})%err   (* break *)
              end
      end
  end.

(** [read_instance(filename)] on the rows of the file. *)
Definition read_instance (rows : list Row) : exn + (DiGraph * list Z * Demands) :=
  (st <- read_rows rows
           {| r_G := empty_DiGraph; r_traffic_demand := []; r_S := [];
              r_section := arcs |} ;;
   inr (r_G st, r_S st, r_traffic_demand st))%err.
End Persistence.

(* ================================================================== *)
(** * The linear program, described *)

(** The description of what [solve_linear_program] builds, against which
    the code above is compared. *)

(** The FlowVariable of demand [(i, j)] on arc [(u, v)]. *)
Definition flow_var (i j u v : Z) : Var :=
  {| VarName_of := x_name i j u v; LB := 0; UB := Finite 1 |}.

Definition var_of_key (k : key) : Var :=
  match k with (i, j, u, v) => flow_var i j u v end.

(** The UtilizationVariable. *)
Definition utilisation_var : Var :=
  {| VarName_of := max_utilisation_name; LB := 0; UB := GRB_INFINITY |}.

(** The (demand, arc) pairs, demand-major. *)
Definition flow_keys (G : DiGraph) (td : Demands) : list key :=
  flat_map (fun d => map (fun e => (fst (fst d), snd (fst d), fst e, snd e))
                         (G_edges G)) td.

Definition sum_expr (es : list expr) : expr := fold_left EAdd es (ENum 0).

(** The sum of the FlowVariables of demand [(i, j)] over [edges]. *)
Definition flows (i j : Z) (edges : list arc) : expr :=
  sum_expr (map (fun e => EVar (flow_var i j (fst e) (snd e))) edges).

Definition inflow (G : DiGraph) (i j n : Z) : expr := flows i j (G_in_edges G n).
Definition outflow (G : DiGraph) (i j n : Z) : expr := flows i j (G_out_edges G n).

(** The flow-conservation constraint of demand [(i, j)] at node [n]. *)
Definition conservation (G : DiGraph) (i j n : Z) : Constr :=
  if n =? i then
    {| c_lhs := ESub (outflow G i j n) (inflow G i j n); c_sense := Equal;
       c_rhs := ENum 1; c_name := flow_name "flow_src_" i j n |}
  else if n =? j then
    {| c_lhs := ESub (inflow G i j n) (outflow G i j n); c_sense := Equal;
       c_rhs := ENum 1; c_name := flow_name "flow_dst_" i j n |}
  else
    {| c_lhs := ESub (inflow G i j n) (outflow G i j n); c_sense := Equal;
       c_rhs := ENum 0; c_name := flow_name "flow_mid_" i j n |}.

Definition conservation_constrs (G : DiGraph) (td : Demands) : list Constr :=
  flat_map (fun d => map (conservation G (fst (fst d)) (snd (fst d))) (G_nodes G)) td.

(** Sum over the demands of volume times FlowVariable on arc [(u, v)]. *)
Definition load (td : Demands) (u v : Z) : expr :=
  sum_expr (map (fun d => EMul (ENum (inject_Z (snd d)))
                               (EVar (flow_var (fst (fst d)) (snd (fst d)) u v))) td).

Definition capacity_of (G : DiGraph) (u v : Z) : Q :=
  match G_getitem G u v with
  | Some a => capacity a
  | None => 0%Q
  end.

Definition cost_of (G : DiGraph) (u v : Z) : Q :=
  match G_getitem G u v with
  | Some a => cost a
  | None => 0%Q
  end.

Definition capacity_constr (G : DiGraph) (td : Demands) (e : arc) : Constr :=
  {| c_lhs := load td (fst e) (snd e); c_sense := LessEqual;
     c_rhs := ENum (capacity_of G (fst e) (snd e));
     c_name := arc_name "capacity_" (fst e) (snd e) |}.

Definition capacity_constrs (G : DiGraph) (td : Demands) : list Constr :=
  map (capacity_constr G td) (G_edges G).

Definition utilisation_constr (G : DiGraph) (td : Demands) (e : arc) : Constr :=
  {| c_lhs := EVar utilisation_var; c_sense := GreaterEqual;
     c_rhs := EDiv (load td (fst e) (snd e)) (capacity_of G (fst e) (snd e));
     c_name := arc_name "utilisation_" (fst e) (snd e) |}.

Definition utilisation_constrs (G : DiGraph) (td : Demands) : list Constr :=
  map (utilisation_constr G td) (G_edges G).

Definition cost_objective (G : DiGraph) (td : Demands) : expr :=
  sum_expr (map (fun de : (arc * Z) * arc =>
                   EMul (EMul (EVar (flow_var (fst (fst (fst de))) (snd (fst (fst de)))
                                              (fst (snd de)) (snd (snd de))))
                              (ENum (inject_Z (snd (fst de)))))
                        (ENum (cost_of G (fst (snd de)) (snd (snd de)))))
                (list_prod td (G_edges G))).

Definition avg_objective (G : DiGraph) (td : Demands) : expr :=
  EDiv (sum_expr (map (fun e => EDiv (load td (fst e) (snd e))
                                     (capacity_of G (fst e) (snd e)))
                      (G_edges G)))
       (inject_Z (G_number_of_edges G)).

(** [sum(f(a) for a in l)] on numbers. *)
Definition Qsum {A} (f : A -> Q) (l : list A) : Q :=
  fold_right (fun a acc => (f a + acc)%Q) 0%Q l.

(** Sum of the values of the left-hand sides of a list of constraints. *)
Definition sum_lhs (val : Var -> Q) (cs : list Constr) : Q :=
  fold_right (fun c acc => (eval val (c_lhs c) + acc)%Q) 0%Q cs.

(** What was given to [addConstr] is an equality constraint. *)
Definition is_equality (a : Added) : bool :=
  match given a with
  | TempConstr _ Equal _ => true
  | _ => false
  end.

(** The equality constraints of a model. *)
Definition equality_constrs (m : Model) : list Added :=
  filter is_equality (m_constrs m).

(** Node [n] is an end of some arc. *)
Definition has_arc (G : DiGraph) (n : node) : bool :=
  existsb (fun e => (fst (fst e) =? n) || (snd (fst e) =? n)) (g_adj G).

(** The demand a variable belongs to, if it is a FlowVariable. *)
Definition demand_of (v : Var) : option arc :=
  match VarName_of v with
  | x_name i j _ _ => Some (i, j)
  | max_utilisation_name => None
  end.

Definition constr_demands (c : Constr) : list arc :=
  flat_map (fun v => match demand_of v with Some d => [d] | None => [] end)
           (vars_of (c_lhs c) ++ vars_of (c_rhs c)).

(** A constraint couples distinct demands when it mentions FlowVariables
    of two different demands. *)
Definition couples (c : Constr) : bool :=
  existsb (fun d1 => existsb (fun d2 => negb (arc_eqb d1 d2)) (constr_demands c))
          (constr_demands c).

(** The same on what was given to [addConstr]: a [bool] mentions no
    variable. *)
Definition couples_added (a : Added) : bool :=
  match given a with
  | PyBool _ => false
  | TempConstr lhs s rhs =>
      couples {| c_lhs := lhs; c_sense := s; c_rhs := rhs; c_name := given_name a |}
  end.

Definition recognized (objective : string) : Prop :=
  objective = "cost"%string \/ objective = "max_utlilization"%string \/
  objective = "avg_utilisation"%string.

Definition capacities_nonzero (G : DiGraph) : Prop :=
  Forall (fun e => ~ (capacity (snd e) == 0)%Q) (g_adj G).

(** When the objective stage divides by nothing that is zero. *)
Definition objective_defined (G : DiGraph) (objective : string) : Prop :=
  objective = "cost"%string \/
  (objective = "max_utlilization"%string /\ capacities_nonzero G) \/
  (objective = "avg_utilisation"%string /\ capacities_nonzero G /\ g_adj G <> []).

(** ** Updates of the world *)

Definition add_vars (vs : list Var) (w : World) : World :=
  let m := w_model w in
  set_model {| m_name := m_name m; m_vars := m_vars m ++ vs;
               m_constrs := m_constrs m; m_objective := m_objective m;
               m_outcome := m_outcome m;
               m_optimize_calls := m_optimize_calls m;
               m_iis_computed := m_iis_computed m |} w.

Definition add_constrs (cs : list Constr) (w : World) : World :=
  let m := w_model w in
  set_model {| m_name := m_name m; m_vars := m_vars m;
               m_constrs := m_constrs m ++ map passed cs;
               m_objective := m_objective m;
               m_outcome := m_outcome m;
               m_optimize_calls := m_optimize_calls m;
               m_iis_computed := m_iis_computed m |} w.

Definition with_objective (o : expr * Direction) (w : World) : World :=
  let m := w_model w in
  set_model {| m_name := m_name m; m_vars := m_vars m;
               m_constrs := m_constrs m; m_objective := Some o;
               m_outcome := m_outcome m;
               m_optimize_calls := m_optimize_calls m;
               m_iis_computed := m_iis_computed m |} w.

(** One pass of the body of the variable loop. *)
Definition declare_one (w : World) (k : key) : World :=
  set_x (dict_set key_eqb k (var_of_key k) (w_x w)) (add_vars [var_of_key k] w).

(** The world in which the build starts: the inputs and a fresh model. *)
Definition fresh (w : World) : World := set_x [] (set_model (new_Model "Routing") w).

(** The world after the variables, conservation and capacity stages. *)
Definition after_constraints (w : World) : World :=
  let G := w_G w in
  let td := w_traffic_demand w in
  add_constrs (conservation_constrs G td ++ capacity_constrs G td)
    (set_x (map (fun k => (k, var_of_key k)) (flow_keys G td))
       (add_vars (map var_of_key (flow_keys G td))
          (set_model (new_Model "Routing") w))).

(** A computation that leaves [G] and [traffic_demand] as they are. *)
Definition preserves_inputs {A} (m : M A) : Prop :=
  forall w, w_G (fst (m w)) = w_G w /\
            w_traffic_demand (fst (m w)) = w_traffic_demand w.

(** What the loops rely on: the inputs, and [x] holding every FlowVariable. *)
Definition Ctx (G : DiGraph) (td : Demands) (w : World) : Prop :=
  w_G w = G /\ w_traffic_demand w = td /\
  forall i j u v : Z,
    In (i, j) (map fst td) -> In (u, v) (map fst (g_adj G)) ->
    dict_get key_eqb (i, j, u, v) (w_x w) = Some (flow_var i j u v).

(** ** Instances used in the examples *)

(** A world in which a call starts: the two inputs, nothing else. *)
Definition world_of (G : DiGraph) (td : Demands) : World :=
  {| w_G := G; w_traffic_demand := td; w_model := new_Model ""; w_x := [];
     w_stdout := []; w_files := [] |}.

(** The 3-node directed cycle 0 -> 1 -> 2 -> 0, capacity 5 and cost 1 on
    every arc. *)
Definition cycle3 : DiGraph :=
  {| g_nodes := [0; 1; 2];
     g_adj := [((0, 1), {| capacity := 5; cost := 1 |});
               ((1, 2), {| capacity := 5; cost := 1 |});
               ((2, 0), {| capacity := 5; cost := 1 |})] |}.

(** A single arc 0 -> 1 of capacity 2 and cost 5. *)
Definition one_arc : DiGraph :=
  {| g_nodes := [0; 1];
     g_adj := [((0, 1), {| capacity := 2; cost := 5 |})] |}.

(** A solver that reports [status], gives every variable the value [q]
    and logs nothing. *)
Definition constant_solver (status : Status) (q : Q) : Solver :=
  fun _ => {| o_status := status; o_x := fun _ => q; o_ObjVal := 0;
              o_log := []; o_iis_log := [] |}.

(** [str] and [float] on numbers that are integers: [str(2)] is ["2"]
    and [float("2")] is [2.0]. *)
Definition str_integral (q : Q) : string := py_str (Qnum q).

Definition float_of_literal (s : string) : option Q :=
  option_map inject_Z (py_int s).

(** The shape of an arc record of a saved file. *)
Definition arc_row (row : Row) : Prop :=
  exists u v a b, row = [py_str u; py_str v; a; b].

(** ** How a build ends *)

Definition zero_capacity (a : EdgeAttr) : bool := Qeq_bool (capacity a) 0.

Definition has_zero_capacity (G : DiGraph) : bool :=
  existsb (fun e => zero_capacity (snd e)) (g_adj G).

(** The result of the build, read off the graph and the selector. *)
Definition build_result (G : DiGraph) (objective : string) : exn + unit :=
  if (objective =? "cost")%string then inr tt
  else if (objective =? "max_utlilization")%string then
    if has_zero_capacity G then inl ZeroDivisionError else inr tt
  else if (objective =? "avg_utilisation")%string then
    if has_zero_capacity G || (G_number_of_edges G =? 0)
    then inl ZeroDivisionError else inr tt
  else inl (ValueError "Fonction objectif non reconnue").

(** A computation that prints nothing and writes no file. *)
Definition quiet {A} (m : M A) : Prop :=
  forall w, w_stdout (fst (m w)) = w_stdout w /\
            w_files (fst (m w)) = w_files w.

(** An assignment of the variables satisfies a comparison. *)
Definition holds (val : Var -> Q) (c : Constr) : Prop :=
  match c_sense c with
  | Equal => (eval val (c_lhs c) == eval val (c_rhs c))%Q
  | LessEqual => (eval val (c_lhs c) <= eval val (c_rhs c))%Q
  | GreaterEqual => (eval val (c_rhs c) <= eval val (c_lhs c))%Q
  end.

(** An assignment of the variables satisfies what was given to
    [addConstr]: a constraint as above; the bool [True] always, the bool
    [False] never. *)
Definition satisfies (val : Var -> Q) (a : Added) : Prop :=
  match given a with
  | PyBool b => b = true
  | TempConstr lhs s rhs =>
      holds val {| c_lhs := lhs; c_sense := s; c_rhs := rhs; c_name := given_name a |}
  end.

(** The whole demand (0, 2) routed along 0 -> 1 -> 2. *)
Definition route_0_1_2 (v : Var) : Q :=
  match VarName_of v with
  | x_name 0 2 0 1 => 1
  | x_name 0 2 1 2 => 1
  | _ => 0
  end.

(** ** Rows and graphs of the instance files *)

(** A row that the loop of [read_instance] passes over: a blank row or a
    row whose first cell is ["Source"]. *)
Definition passed_over (row : Row) : bool :=
  match row with
  | [] => true
  | c0 :: _ => (c0 =? "Source")%string
  end.

(** Every node is an end of some arc. *)
Definition no_isolated_node (G : DiGraph) : Prop :=
  forall n, In n (g_nodes G) ->
    exists u v, In (u, v) (map fst (g_adj G)) /\ (n = u \/ n = v).

(** The record [save_to_csv] writes for an arc with data [a], and the
    data [G[u][v]] of an arc of [G]. *)
Definition arc_record (str_num : Q -> string) (e : arc) (a : EdgeAttr) : Row :=
  [py_str (fst e); py_str (snd e); str_num (capacity a); str_num (cost a)].

Definition attr_of (G : DiGraph) (e : arc) : EdgeAttr :=
  {| capacity := capacity_of G (fst e) (snd e); cost := cost_of G (fst e) (snd e) |}.

(* ================================================================== *)
(** * The instance generators *)

(** ** random

    The module's generator is an oracle: a sequence of draws and the
    position of the next one.  [random()], [randint], [uniform] and
    [sample] are what the library computes from the draws. *)

Record Rng := { draws : nat -> N; position : nat }.

Definition next_draw (r : Rng) : N * Rng :=
  (draws r (position r), {| draws := draws r; position := S (position r) |}).

(** The exceptions of the generators and of the callers: those above,
    [TypeError] and networkx's [NetworkXError]. *)
Inductive error :=
| Raised (e : exn)
| TypeError (msg : string)
| NetworkXError (msg : string).

Definition Gen (A : Type) : Type := Rng -> error + (A * Rng).

Definition gret {A} (a : A) : Gen A := fun r => inr (a, r).

Definition graise {A} (e : error) : Gen A := fun _ => inl e.

(** A computation that makes no draw. *)
Definition glift {A} (r : error + A) : Gen A :=
  fun rng => match r with
             | inl e => inl e
             | inr a => inr (a, rng)
             end.

Definition gbind {A B} (m : Gen A) (k : A -> Gen B) : Gen B :=
  fun r =>
    match m r with
    | inl e => inl e
    | inr (a, r') => k a r'
    end.

Declare Scope gen_scope.
Delimit Scope gen_scope with gen.
Notation "x <- m ;; k" := (gbind m (fun x => k))
  (at level 61, m at next level, right associativity) : gen_scope.

(** [random.random()]: a number in [0, 1). *)
Definition random_random : Gen Q :=
  fun r => let (d, r') := next_draw r in
           inr (Z.of_N (d mod 2 ^ 53) # (2 ^ 53), r').

(** [_randbelow(n)] for [n > 0]. *)
Definition randbelow (n : Z) : Gen Z :=
  fun r => let (d, r') := next_draw r in inr (Z.of_N d mod n, r').

(** [random.randint(a, b)], that is [randrange(a, b + 1)]. *)
Definition randint (a b : Z) : Gen Z :=
  if 0 <? b + 1 - a then
    (k <- randbelow (b + 1 - a) ;; gret (a + k))%gen
  else
    graise (Raised (ValueError
      ("empty range for randrange() (" ++ py_str a ++ ", " ++ py_str (b + 1)
       ++ ", " ++ py_str (b + 1 - a) ++ ")"))).

(** [random.uniform(a, b)], in exact arithmetic. *)
Definition uniform (a b : Q) : Gen Q :=
  (u <- random_random ;; gret (a + (b - a) * u)%Q)%gen.

(** One step of [sample]: [pool[j]] is taken and the last element of the
    pool takes its place. *)
Definition take_at {A} (j : nat) (pool : list A) : option (A * list A) :=
  match nth_error pool j with
  | None => None
  | Some x =>
      Some (x, match List.rev (skipn (S j) pool) with
               | [] => firstn j pool
               | z :: r => firstn j pool ++ z :: List.rev r
               end)
  end.

Fixpoint sample_pool {A} (pool : list A) (k : nat) : Gen (list A) :=
  match k with
  | O => gret []
  | S k' =>
      (j <- randbelow (Z.of_nat (List.length pool)) ;;
       match take_at (Z.to_nat j) pool with
       | None => graise (Raised IndexError)
       | Some (x, pool') => (rest <- sample_pool pool' k' ;; gret (x :: rest))
       end)%gen
  end.

(** [random.sample(population, k)], by the selection from a pool.  (On a
    population above the library's threshold the library selects by
    rejection; its result is again [k] distinct positions of the
    population, which is all that is proved of it below.) *)
Definition sample {A} (population : list A) (k : Z) : Gen (list A) :=
  if (0 <=? k) && (k <=? Z.of_nat (List.length population)) then
    sample_pool population (Z.to_nat k)
  else
    graise (Raised (ValueError "Sample larger than population or is negative")).

(** ** networkx graphs whose arcs may lack data *)

(** The data dict of an arc: the keys ['capacity'] and ['cost'], each
    present or not. *)
Record Attrs := { a_capacity : option Q; a_cost : option Q }.

Definition no_data : Attrs := {| a_capacity := None; a_cost := None |}.

Record NxDiGraph := {
  nx_nodes : list node;
  nx_adj : list (arc * Attrs)
}.

(** [G.edges] *)
Definition nx_edges (G : NxDiGraph) : list arc :=
  flat_map (fun n => map fst (filter (fun e => fst (fst e) =? n) (nx_adj G)))
           (nx_nodes G).

Definition nx_wf (G : NxDiGraph) : Prop :=
  NoDup (nx_nodes G) /\
  NoDup (map fst (nx_adj G)) /\
  forall u v, In (u, v) (map fst (nx_adj G)) ->
              In u (nx_nodes G) /\ In v (nx_nodes G).

Definition nx_add_node (G : NxDiGraph) (n : node) : NxDiGraph :=
  if existsb (Z.eqb n) (nx_nodes G) then G
  else {| nx_nodes := nx_nodes G ++ [n]; nx_adj := nx_adj G |}.

(** [G.add_edge(u, v)]: an arc that is there keeps its data. *)
Definition nx_add_edge (G : NxDiGraph) (u v : node) : NxDiGraph :=
  let G' := nx_add_node (nx_add_node G u) v in
  match dict_get arc_eqb (u, v) (nx_adj G') with
  | Some _ => G'
  | None => {| nx_nodes := nx_nodes G'; nx_adj := nx_adj G' ++ [((u, v), no_data)] |}
  end.

(** [G.add_edges_from(edges)] *)
Definition nx_add_edges_from (G : NxDiGraph) (edges : list arc) : NxDiGraph :=
  fold_left (fun G e => nx_add_edge G (fst e) (snd e)) edges G.

(** [range(n)] *)
Definition py_range (n : Z) : list Z := map Z.of_nat (seq 0 (Z.to_nat n)).

(** The nodes for a number [n], as the generators of networkx take them
    ([nodes_or_number]): [range(n)], and a negative number is refused. *)
Definition nodes_or_number (n : Z) : error + list Z :=
  if n <? 0
  then inl (NetworkXError ("Negative number of nodes not valid: " ++ py_str n))
  else inr (py_range n).

(** [empty_graph(nodes, create_using=nx.DiGraph)] *)
Definition empty_graph (nodes : list Z) : NxDiGraph :=
  {| nx_nodes := nodes; nx_adj := [] |}.

(** [itertools.permutations(nodes, 2)] on distinct nodes. *)
Definition ordered_pairs (nodes : list Z) : list arc :=
  flat_map (fun u => map (pair u) (filter (fun v => negb (v =? u)) nodes)) nodes.

(** [pairwise(nodes, cyclic=True)] *)
Definition pairwise_cyclic (nodes : list Z) : list arc :=
  match nodes with
  | [] => []
  | first :: rest => combine nodes (rest ++ [first])
  end.

(** [nx.complete_graph(n, create_using=nx.DiGraph)] *)
Definition complete_graph (n : Z) : error + NxDiGraph :=
  match nodes_or_number n with
  | inl e => inl e
  | inr nodes =>
      let G := empty_graph nodes in
      inr (if (1 <? List.length nodes)%nat
           then nx_add_edges_from G (ordered_pairs nodes)
           else G)
  end.

(** [nx.cycle_graph(n, create_using=nx.DiGraph)] *)
Definition cycle_graph (n : Z) : error + NxDiGraph :=
  match nodes_or_number n with
  | inl e => inl e
  | inr nodes =>
      let G := empty_graph nodes in
      inr (nx_add_edges_from G (pairwise_cyclic nodes))
  end.

(** The loop of [erdos_renyi_graph]: every ordered pair is an arc when
    its draw is below [p]. *)
Fixpoint gnp_loop (p : Q) (pairs : list arc) (G : NxDiGraph) : Gen NxDiGraph :=
  match pairs with
  | [] => gret G
  | (u, v) :: pairs' =>
      (x <- random_random ;;
       gnp_loop p pairs' (if Qle_bool p x then G else nx_add_edge G u v))%gen
  end.

(** [nx.erdos_renyi_graph(n, p, directed=True)]: the complete graph when
    [p >= 1], the graph without arcs when [p <= 0], the loop otherwise;
    comparing [None] with a number raises [TypeError].  (Releases of
    networkx differ on a negative [n] with [p < 1]: the graph is made by
    [empty_graph(n)], which refuses it, or by [add_nodes_from(range(n))],
    which gives the graph without node; no statement below depends on
    this case.) *)
Definition erdos_renyi_graph (n : Z) (p : option Q) : Gen NxDiGraph :=
  match p with
  | None =>
      graise (TypeError "'>=' not supported between instances of 'NoneType' and 'int'")
  | Some p =>
      if Qle_bool 1 p then glift (complete_graph n)
      else
        match nodes_or_number n with
        | inl e => graise e
        | inr nodes =>
            let G := empty_graph nodes in
            if Qle_bool p 0 then gret G
            else gnp_loop p (ordered_pairs nodes) G
        end
  end.

(** ** generate_graph *)

Definition generate_graph (graph_type : string) (n_nodes : Z) (p : option Q)
  : Gen NxDiGraph :=
  if (graph_type =? "complete")%string then glift (complete_graph n_nodes)
  else if (graph_type =? "cycle")%string then glift (cycle_graph n_nodes)
  else if (graph_type =? "random")%string then erdos_renyi_graph n_nodes p
  else graise (Raised (ValueError "Type de graphe non supporté")).

(** ** assign_capacities_and_costs *)

(** [G[u][v][key] = value]; [None] is the [KeyError] of [G[u][v]]. *)
Fixpoint nx_update (e : arc) (f : Attrs -> Attrs) (adj : list (arc * Attrs))
  : option (list (arc * Attrs)) :=
  match adj with
  | [] => None
  | (e', a) :: adj' =>
      if arc_eqb e e' then Some ((e', f a) :: adj')
      else option_map (cons (e', a)) (nx_update e f adj')
  end.

Definition nx_setitem (G : NxDiGraph) (e : arc) (f : Attrs -> Attrs) : Gen NxDiGraph :=
  match nx_update e f (nx_adj G) with
  | Some adj => gret {| nx_nodes := nx_nodes G; nx_adj := adj |}
  | None => graise (Raised KeyError)
  end.

Definition set_capacity (c : Q) (a : Attrs) : Attrs :=
  {| a_capacity := Some c; a_cost := a_cost a |}.

Definition set_cost (k : Q) (a : Attrs) : Attrs :=
  {| a_capacity := a_capacity a; a_cost := Some k |}.

(** [[
    for u, v in G.edges:
        G[u][v]['capacity'] = random.randint(lo, hi)    # capacity_range
        G[u][v]['cost'] = random.uniform(lo, hi)  # cost_range
    ]] *)
Fixpoint assign_loop (edges : list arc) (capacity_range : Z * Z) (cost_range : Q * Q)
         (G : NxDiGraph) : Gen NxDiGraph :=
  match edges with
  | [] => gret G
  | e :: edges' =>
      (c <- randint (fst capacity_range) (snd capacity_range) ;;
       G1 <- nx_setitem G e (set_capacity (inject_Z c)) ;;
       k <- uniform (fst cost_range) (snd cost_range) ;;
       G2 <- nx_setitem G1 e (set_cost k) ;;
       assign_loop edges' capacity_range cost_range G2)%gen
  end.

(** The graph is changed in place and returned. *)
Definition assign_capacities_and_costs (G : NxDiGraph) (capacity_range : Z * Z)
           (cost_range : Q * Q) : Gen NxDiGraph :=
  assign_loop (nx_edges G) capacity_range cost_range G.

(** The graph as [solve_linear_program] and [save_to_csv] read it, when
    every arc has its capacity and its cost. *)
Definition attrs_data (a : Attrs) : option EdgeAttr :=
  match a_capacity a, a_cost a with
  | Some c, Some k => Some {| capacity := c; cost := k |}
  | _, _ => None
  end.

Fixpoint adj_data (adj : list (arc * Attrs)) : option (list (arc * EdgeAttr)) :=
  match adj with
  | [] => Some []
  | (e, a) :: adj' =>
      match attrs_data a, adj_data adj' with
      | Some d, Some l => Some ((e, d) :: l)
      | _, _ => None
      end
  end.

Definition as_DiGraph (G : NxDiGraph) : option DiGraph :=
  option_map (fun adj => {| g_nodes := nx_nodes G; g_adj := adj |}) (adj_data (nx_adj G)).

(** ** generate_traffic_demand *)

(** [[
    for i in S:
        for j in S:
            if i != j:
                traffic_demand[(i, j)] = random.randint(lo, hi)  # demand_range
    ]] over the flattened pairs. *)
Fixpoint demand_loop (pairs : list arc) (demand_range : Z * Z) (td : Demands)
  : Gen Demands :=
  match pairs with
  | [] => gret td
  | (i, j) :: pairs' =>
      if negb (i =? j) then
        (d <- randint (fst demand_range) (snd demand_range) ;;
         demand_loop pairs' demand_range (dict_set arc_eqb (i, j) d td))%gen
      else demand_loop pairs' demand_range td
  end.

Definition generate_traffic_demand (G : NxDiGraph) (S_size : Z) (demand_range : Z * Z)
  : Gen (list Z * Demands) :=
  (S <- sample (nx_nodes G) S_size ;;
   td <- demand_loop (list_prod S S) demand_range [] ;;
   gret (S, td))%gen.

(** ** create_instance *)

(** What a completed call leaves: the file written and what was printed. *)
Record Created := {
  c_path : string;
  c_rows : list Row;
  c_stdout : list string
}.

(** [[
    G = generate_graph(graph_type, n_nodes, p=0.3)
    G = assign_capacities_and_costs(G, capacity_range, cost_range)
    S, traffic_demand = generate_traffic_demand(G, S_size, demand_range)
    save_to_csv(G, S, traffic_demand, filename)
    print(f"Instance générée et sauvegardée dans {filename}")
    ]]
    An arc without its data makes [save_to_csv] raise [KeyError]. *)
Definition create_instance (str_num : Q -> string)
           (graph_type : string) (n_nodes : Z) (capacity_range : Z * Z)
           (cost_range : Q * Q) (S_size : Z) (demand_range : Z * Z)
           (filename : string) (r : Rng) : error + Created :=
  match (G <- generate_graph graph_type n_nodes (Some (3 # 10)) ;;
         G <- assign_capacities_and_costs G capacity_range cost_range ;;
         p <- generate_traffic_demand G S_size demand_range ;;
         gret (G, p))%gen r with
  | inl e => inl e
  | inr ((G, (subset_S, traffic_demand)), _) =>
      match as_DiGraph G with
      | None => inl (Raised KeyError)
      | Some D =>
          match save_to_csv str_num D subset_S traffic_demand with
          | inl e => inl (Raised e)
          | inr rows =>
              inr {| c_path := ("graph/" ++ filename)%string;
                     c_rows := rows;
                     c_stdout := [("Instance générée et sauvegardée dans " ++ filename)%string] |}
          end
      end
  end.

(** ** test_program *)

(** What a call leaves: standard output, the files written, and the
    return or the exception. *)
Record Tested := {
  t_stdout : list string;
  t_files : list string;
  t_result : error + unit
}.

(** [[
    G = generate_graph(graph_type, n_nodes, 0.3)
    G = assign_capacities_and_costs(G, capacity_range, cost_range)
    S, traffic_demand = generate_traffic_demand(G, S_size, demand_range)
    solution, optimal_value = solve_linear_program(G, traffic_demand, objective)
    print(f"Solution optimale pour {objective}:", solution)
    print(f"Valeur optimale pour {objective}: {optimal_value}")
    ]]
    [str_solution] and [str_value] are [str] on the dict of flows and on
    the optimal value.  Unpacking [None] raises [TypeError]. *)
Definition test_program (gurobi : Solver)
           (str_solution : Solution -> string) (str_value : Q -> string)
           (graph_type : string) (n_nodes : Z) (S_size : Z) (demand_range : Z * Z)
           (capacity_range : Z * Z) (cost_range : Q * Q) (objective : string)
           (r : Rng) : Tested :=
  match (G <- generate_graph graph_type n_nodes (Some (3 # 10)) ;;
         G <- assign_capacities_and_costs G capacity_range cost_range ;;
         p <- generate_traffic_demand G S_size demand_range ;;
         gret (G, p))%gen r with
  | inl e => {| t_stdout := []; t_files := []; t_result := inl e |}
  | inr ((G, (subset_S, traffic_demand)), _) =>
      match as_DiGraph G with
      | None => {| t_stdout := []; t_files := []; t_result := inl (Raised KeyError) |}
      | Some D =>
          let r := solve_linear_program gurobi objective (world_of D traffic_demand) in
          match snd r with
          | inl e =>
              {| t_stdout := w_stdout (fst r); t_files := w_files (fst r);
                 t_result := inl (Raised e) |}
          | inr None =>
              {| t_stdout := w_stdout (fst r); t_files := w_files (fst r);
                 t_result := inl (TypeError "cannot unpack non-iterable NoneType object") |}
          | inr (Some (solution, optimal_value)) =>
              {| t_stdout := w_stdout (fst r)
                   ++ [("Solution optimale pour " ++ objective ++ ": "
                          ++ str_solution solution)%string;
                       ("Valeur optimale pour " ++ objective ++ ": "
                          ++ str_value optimal_value)%string];
                 t_files := w_files (fst r);
                 t_result := inr tt |}
          end
      end
  end.

(** The draws that are all [n]. *)
Definition constant_draws (n : N) : Rng := {| draws := fun _ => n; position := 0 |}.

(** The cycle 0 -> 1 -> 2 -> 0 as a generator returns it, without data. *)
Definition bare_cycle3 : NxDiGraph :=
  {| nx_nodes := [0; 1; 2];
     nx_adj := [((0, 1), no_data); ((1, 2), no_data); ((2, 0), no_data)] |}.

(** A solver that reports [status] and writes the given logs. *)
Definition logging_solver (status : Status) (log iis : list string) : Solver :=
  fun _ => {| o_status := status; o_x := fun _ => 0%Q; o_ObjVal := 0;
              o_log := log; o_iis_log := iis |}.

(** The data of an arc after the assignment: a capacity and a cost, each
    in its range. *)
Definition assigned (capacity_range : Z * Z) (cost_range : Q * Q) (a : Attrs) : Prop :=
  exists (c : Z) (k : Q),
    a = {| a_capacity := Some (inject_Z c); a_cost := Some k |} /\
    fst capacity_range <= c <= snd capacity_range /\
    ((fst cost_range <= snd cost_range)%Q ->
     (fst cost_range <= k)%Q /\ (k <= snd cost_range)%Q).

(** The parameters with which the three generators complete. *)
Definition generators_defined (graph_type : string) (n_nodes : Z)
           (capacity_range : Z * Z) (S_size : Z) (demand_range : Z * Z) : Prop :=
  (graph_type = "complete"%string \/ graph_type = "cycle"%string \/
   graph_type = "random"%string) /\
  0 <= n_nodes /\
  fst capacity_range <= snd capacity_range /\
  0 <= S_size <= n_nodes /\
  fst demand_range <= snd demand_range.

(* ================================================================== *)
(** * Reasoning about computations *)

Lemma arc_eqb_eq (a b : arc) : arc_eqb a b = true <-> a = b.
Proof.
  destruct a as [a1 a2], b as [b1 b2]; unfold arc_eqb; simpl.
  rewrite andb_true_iff, !Z.eqb_eq. split.
  - intros [-> ->]; reflexivity.
  - intros [= -> ->]; split; reflexivity.
Qed.

Lemma key_eqb_eq (a b : key) : key_eqb a b = true <-> a = b.
Proof.
  destruct a as [[[a1 a2] a3] a4], b as [[[b1 b2] b3] b4]; simpl.
  rewrite !andb_true_iff, !Z.eqb_eq. split.
  - intros [[[-> ->] ->] ->]; reflexivity.
  - intros [= -> -> -> ->]; repeat split.
Qed.

Section DictFacts.
Context {K V : Type} (eqb : K -> K -> bool).
Hypothesis eqb_eq : forall a b, eqb a b = true <-> a = b.

Lemma dict_set_fresh (k : K) (v : V) (d : list (K * V)) :
  ~ In k (map fst d) -> dict_set eqb k v d = d ++ [(k, v)].
Proof.
  induction d as [|[k' v'] d IH]; simpl; intros H; [reflexivity|].
  destruct (eqb k k') eqn:E.
  - apply eqb_eq in E. subst. exfalso. apply H. left; reflexivity.
  - rewrite IH; [reflexivity|]. intros H'. apply H. right; exact H'.
Qed.

Lemma dict_get_In (k : K) (v : V) (d : list (K * V)) :
  dict_get eqb k d = Some v -> In (k, v) d.
Proof.
  induction d as [|[k' v'] d IH]; simpl; [discriminate|].
  destruct (eqb k k') eqn:E.
  - intros [= ->]. apply eqb_eq in E. subst. left; reflexivity.
  - intros H. right. apply IH, H.
Qed.

Lemma dict_get_None (k : K) (d : list (K * V)) :
  dict_get eqb k d = None -> ~ In k (map fst d).
Proof.
  induction d as [|[k' v'] d IH]; simpl; [tauto|].
  destruct (eqb k k') eqn:E; [discriminate|].
  intros H [H'|H']; [|exact (IH H H')].
  subst k'. assert (eqb k k = true) by (apply eqb_eq; reflexivity). congruence.
Qed.

Lemma dict_get_map (f : K -> V) (k : K) (l : list K) :
  In k l -> dict_get eqb k (map (fun a => (a, f a)) l) = Some (f k).
Proof.
  induction l as [|a l IH]; simpl; [tauto|].
  intros H. destruct (eqb k a) eqn:E.
  - apply eqb_eq in E. subst. reflexivity.
  - destruct H as [->|H]; [|exact (IH H)].
    assert (eqb k k = true) by (apply eqb_eq; reflexivity). congruence.
Qed.

(** Filling a dict key by key from distinct keys appends the items. *)
Lemma fold_dict_set_fresh (f : K -> V) (l : list K) (d : list (K * V)) :
  NoDup (map fst d ++ l) ->
  fold_left (fun x k => dict_set eqb k (f k) x) l d
  = d ++ map (fun k => (k, f k)) l.
Proof.
  revert d. induction l as [|a l IH]; intros d Hnd; simpl.
  - rewrite app_nil_r. reflexivity.
  - rewrite dict_set_fresh.
    + rewrite IH.
      * rewrite <- app_assoc. reflexivity.
      * rewrite map_app, <- app_assoc. simpl. exact Hnd.
    + apply NoDup_remove_2 in Hnd. intros H. apply Hnd.
      apply in_or_app. left; exact H.
Qed.
End DictFacts.

Lemma bind_ok {A B} (m : M A) (k : A -> M B) (w w' : World) (a : A) :
  m w = (w', inr a) -> bind m k w = k a w'.
Proof. intros H. unfold bind. rewrite H. reflexivity. Qed.

Lemma bind_raise {A B} (m : M A) (k : A -> M B) (w w' : World) (e : exn) :
  m w = (w', inl e) -> bind m k w = (w', inl e).
Proof. intros H. unfold bind. rewrite H. reflexivity. Qed.

Lemma bind_gets {A B} (f : World -> A) (k : A -> M B) (w : World) :
  bind (gets f) k w = k (f w) w.
Proof. reflexivity. Qed.

(** ** Updates commute and compose *)

Lemma add_constrs_app (a b : list Constr) (w : World) :
  add_constrs b (add_constrs a w) = add_constrs (a ++ b) w.
Proof.
  unfold add_constrs, set_model; simpl. rewrite map_app, app_assoc. reflexivity.
Qed.

Lemma add_constrs_nil (w : World) : add_constrs [] w = w.
Proof.
  destruct w as [G td [n vs cs o oc calls iis] x out files].
  unfold add_constrs, set_model; simpl. rewrite app_nil_r. reflexivity.
Qed.

Lemma add_vars_nil (w : World) : add_vars [] w = w.
Proof.
  destruct w as [G td [n vs cs o oc calls iis] x out files].
  unfold add_vars, set_model; simpl. rewrite app_nil_r. reflexivity.
Qed.

Lemma Ctx_add_constrs G td cs w : Ctx G td w -> Ctx G td (add_constrs cs w).
Proof. intros H; exact H. Qed.

(** ** Loops *)

Lemma for_each_run {A} (P : World -> Prop) (step : World -> A -> World)
      (l : list A) (body : A -> M unit) :
  (forall a w, In a l -> P w -> body a w = (step w a, inr tt)) ->
  (forall a w, In a l -> P w -> P (step w a)) ->
  forall w, P w ->
    for_each l body w = (fold_left step l w, inr tt) /\ P (fold_left step l w).
Proof.
  induction l as [|a l IH]; intros Hbody Hinv w HP; simpl.
  - split; [reflexivity|exact HP].
  - rewrite (bind_ok _ _ _ _ _ (Hbody a w (or_introl eq_refl) HP)).
    apply IH.
    + intros b w' Hb. apply Hbody. right; exact Hb.
    + intros b w' Hb. apply Hinv. right; exact Hb.
    + apply Hinv; [left; reflexivity|exact HP].
Qed.

(** A loop whose body adds one constraint. *)
Lemma for_each_constrs {A} (P : World -> Prop) (f : A -> Constr)
      (l : list A) (body : A -> M unit) :
  (forall a w, In a l -> P w -> body a w = (add_constrs [f a] w, inr tt)) ->
  (forall cs w, P w -> P (add_constrs cs w)) ->
  forall w, P w -> for_each l body w = (add_constrs (map f l) w, inr tt).
Proof.
  intros Hbody Hinv w HP.
  destruct (for_each_run P (fun w a => add_constrs [f a] w) l body) with (w := w)
    as [E _]; auto.
  rewrite E. f_equal. clear. revert w.
  induction l as [|a l IH]; intros w; simpl.
  - symmetry. apply add_constrs_nil.
  - rewrite IH, add_constrs_app. reflexivity.
Qed.

(** A loop whose body adds one constraint or raises, nothing changed. *)
Lemma for_each_constrs_partial {A} (P : World -> Prop) (f : A -> Constr)
      (l : list A) (body : A -> M unit) :
  (forall a w, In a l -> P w ->
     body a w = (add_constrs [f a] w, inr tt) \/ exists e, body a w = (w, inl e)) ->
  (forall cs w, P w -> P (add_constrs cs w)) ->
  forall w, P w ->
    exists l1 l2 r, l = l1 ++ l2 /\
      for_each l body w = (add_constrs (map f l1) w, r) /\
      (r = inr tt -> l2 = []).
Proof.
  induction l as [|a l IH]; intros Hbody Hinv w HP; simpl.
  - exists [], [], (inr tt). rewrite add_constrs_nil. auto.
  - destruct (Hbody a w (or_introl eq_refl) HP) as [E|[e E]].
    + rewrite (bind_ok _ _ _ _ _ E).
      destruct (IH (fun b w' Hb => Hbody b w' (or_intror Hb)) Hinv
                   (add_constrs [f a] w) (Hinv _ _ HP))
        as (l1 & l2 & r & -> & Hrun & Hr).
      exists (a :: l1), l2, r. split; [reflexivity|]. split; [|exact Hr].
      rewrite Hrun, add_constrs_app. reflexivity.
    + rewrite (bind_raise _ _ _ _ _ E).
      exists [], (a :: l), (inl e). rewrite add_constrs_nil.
      split; [reflexivity|]. split; [reflexivity|discriminate].
Qed.

Lemma sum_from_run {A} (g : A -> expr) (l : list A) (term : A -> M expr) (w : World) :
  (forall a, In a l -> term a w = (w, inr (g a))) ->
  forall acc, sum_from acc l term w = (w, inr (fold_left EAdd (map g l) acc)).
Proof.
  induction l as [|a l IH]; intros H acc; simpl; [reflexivity|].
  rewrite (bind_ok _ _ _ _ _ (H a (or_introl eq_refl))).
  apply IH. intros b Hb. apply H. right; exact Hb.
Qed.

Lemma py_sum_run {A} (g : A -> expr) (l : list A) (term : A -> M expr) (w : World) :
  (forall a, In a l -> term a w = (w, inr (g a))) ->
  py_sum l term w = (w, inr (sum_expr (map g l))).
Proof. intros H. apply sum_from_run. exact H. Qed.

(** A sum whose terms may raise: its value when none does. *)
Lemma py_sum_cases {A} (g : A -> expr) (l : list A) (term : A -> M expr) (w : World) :
  (forall a, In a l -> term a w = (w, inr (g a)) \/ exists e, term a w = (w, inl e)) ->
  py_sum l term w = (w, inr (sum_expr (map g l))) \/ exists e, py_sum l term w = (w, inl e).
Proof.
  unfold py_sum, sum_expr. generalize (ENum 0) as acc.
  induction l as [|a l IH]; intros acc H; simpl.
  - left; reflexivity.
  - destruct (H a (or_introl eq_refl)) as [E|[e E]].
    + rewrite (bind_ok _ _ _ _ _ E). apply IH.
      intros b Hb. apply H. right; exact Hb.
    + right. exists e. apply bind_raise. exact E.
Qed.

(* ================================================================== *)
(** * Facts about graphs and keys *)

Lemma in_G_out_edges (G : DiGraph) (n : node) (e : arc) :
  In e (G_out_edges G n) <-> In e (map fst (g_adj G)) /\ fst e = n.
Proof.
  unfold G_out_edges. rewrite !in_map_iff. split.
  - intros [[a d] [<- H]]. apply filter_In in H. destruct H as [H E].
    simpl in *. apply Z.eqb_eq in E. split; [|exact E].
    exists (a, d). split; [reflexivity|exact H].
  - intros [[[a d] [<- H]] E]. exists (a, d). split; [reflexivity|].
    apply filter_In. split; [exact H|]. simpl in *. apply Z.eqb_eq. exact E.
Qed.

Lemma in_G_in_edges (G : DiGraph) (n : node) (e : arc) :
  In e (G_in_edges G n) <-> In e (map fst (g_adj G)) /\ snd e = n.
Proof.
  unfold G_in_edges. rewrite !in_map_iff. split.
  - intros [[a d] [<- H]]. apply filter_In in H. destruct H as [H E].
    simpl in *. apply Z.eqb_eq in E. split; [|exact E].
    exists (a, d). split; [reflexivity|exact H].
  - intros [[[a d] [<- H]] E]. exists (a, d). split; [reflexivity|].
    apply filter_In. split; [exact H|]. simpl in *. apply Z.eqb_eq. exact E.
Qed.

Lemma in_G_edges (G : DiGraph) (e : arc) :
  wf_graph G -> (In e (G_edges G) <-> In e (map fst (g_adj G))).
Proof.
  intros (_ & _ & Hends). unfold G_edges. rewrite in_flat_map. split.
  - intros [n [_ H]]. apply in_G_out_edges in H. tauto.
  - intros H. exists (fst e). split.
    + destruct e as [u v]. apply (Hends u v H).
    + apply in_G_out_edges. split; [exact H|reflexivity].
Qed.

Lemma G_edges_in_adj (G : DiGraph) (e : arc) :
  In e (G_edges G) -> In e (map fst (g_adj G)).
Proof.
  unfold G_edges. rewrite in_flat_map.
  intros [n [_ H]]. apply in_G_out_edges in H. tauto.
Qed.

(** Selecting items of a dict keeps its keys distinct. *)
Lemma dict_filter_keys {K V} (keep : K * V -> bool) (d : list (K * V)) :
  NoDup (map fst d) -> NoDup (map fst (filter keep d)).
Proof.
  intros Hd. induction d as [|[k v] d IH]; simpl; [constructor|].
  simpl in Hd. apply NoDup_cons_iff in Hd. destruct Hd as [Hk Hd].
  destruct (keep (k, v)); simpl; [|exact (IH Hd)].
  apply NoDup_cons; [|exact (IH Hd)].
  rewrite in_map_iff. intros [[k' v'] [E Hin]]. simpl in E. subst k'.
  apply filter_In in Hin. apply Hk.
  apply in_map_iff. exists (k, v'). tauto.
Qed.

Lemma NoDup_G_edges (G : DiGraph) : wf_graph G -> NoDup (G_edges G).
Proof.
  intros (Hnodes & Harcs & _). unfold G_edges.
  induction Hnodes as [|n ns Hn Hns IH]; simpl; [constructor|].
  apply NoDup_app.
  - unfold G_out_edges. apply dict_filter_keys. exact Harcs.
  - exact IH.
  - intros e He Hin. apply in_G_out_edges in He. destruct He as [_ <-].
    apply in_flat_map in Hin. destruct Hin as [m [Hm Hin]].
    apply in_G_out_edges in Hin. destruct Hin as [_ E].
    apply Hn. rewrite E. exact Hm.
Qed.

Lemma G_getitem_some (G : DiGraph) (u v : node) :
  In (u, v) (map fst (g_adj G)) -> exists a, G_getitem G u v = Some a.
Proof.
  intros H. unfold G_getitem.
  destruct (dict_get arc_eqb (u, v) (g_adj G)) eqn:E; [eauto|].
  apply (dict_get_None arc_eqb arc_eqb_eq) in E. contradiction.
Qed.

Lemma in_flow_keys (G : DiGraph) (td : Demands) (i j u v : Z) :
  In (i, j, u, v) (flow_keys G td) <->
  In (i, j) (map fst td) /\ In (u, v) (G_edges G).
Proof.
  unfold flow_keys. rewrite in_flat_map. split.
  - intros [[[i' j'] d] [Hd H]]. apply in_map_iff in H.
    destruct H as [[u' v'] [E He]]. simpl in E. injection E as -> -> -> ->.
    split; [|exact He]. apply in_map_iff. exists ((i, j), d). auto.
  - intros [Hd He]. apply in_map_iff in Hd. destruct Hd as [[[i' j'] d] [E Hd]].
    simpl in E. injection E as -> ->.
    exists ((i, j), d). split; [exact Hd|].
    apply in_map_iff. exists (u, v). auto.
Qed.

Lemma NoDup_flow_keys (G : DiGraph) (td : Demands) :
  wf_graph G -> NoDup (map fst td) -> NoDup (flow_keys G td).
Proof.
  intros Hwf Htd. pose proof (NoDup_G_edges G Hwf) as He.
  unfold flow_keys. induction td as [|[[i j] d] td IH]; simpl; [constructor|].
  inversion Htd as [|? ? Hnotin Htd']; subst.
  apply NoDup_app.
  - apply NoDup_map_NoDup_ForallPairs; [|exact He].
    intros [u v] [u' v'] _ _ [= -> ->]. reflexivity.
  - apply IH. exact Htd'.
  - intros [[[i' j'] u] v] H1 H2.
    apply in_map_iff in H1. destruct H1 as [[u' v'] [E _]].
    simpl in E. injection E as <- <- <- <-.
    apply (in_flow_keys G td i j u' v') in H2.
    apply Hnotin. tauto.
Qed.

(* ================================================================== *)
(** * The stages of the build *)

Lemma fold_left_via_map {A B C} (f : A -> B -> A) (h : C -> B) (l : list C) (a : A) :
  fold_left (fun a c => f a (h c)) l a = fold_left f (map h l) a.
Proof. revert a. induction l as [|c l IH]; intros a; simpl; auto. Qed.

Lemma fold_left_flat_map {A B C} (f : A -> B -> A) (h : C -> list B) (l : list C) (a : A) :
  fold_left (fun a c => fold_left f (h c) a) l a = fold_left f (flat_map h l) a.
Proof.
  revert a. induction l as [|c l IH]; intros a; simpl; [reflexivity|].
  rewrite fold_left_app. apply IH.
Qed.

Lemma fold_declare_one (keys : list key) (w : World) :
  fold_left declare_one keys w
  = set_x (fold_left (fun x k => dict_set key_eqb k (var_of_key k) x) keys (w_x w))
          (add_vars (map var_of_key keys) w).
Proof.
  revert w. induction keys as [|k keys IH]; intros w; simpl.
  - rewrite add_vars_nil. destruct w; reflexivity.
  - rewrite IH. unfold declare_one, set_x, add_vars, set_model; simpl.
    rewrite <- app_assoc. reflexivity.
Qed.

Lemma declare_variables_run (w : World) :
  wf_graph (w_G w) -> NoDup (map fst (w_traffic_demand w)) ->
  declare_variables w
  = (set_x (map (fun k => (k, var_of_key k)) (flow_keys (w_G w) (w_traffic_demand w)))
       (add_vars (map var_of_key (flow_keys (w_G w) (w_traffic_demand w))) w),
     inr tt).
Proof.
  intros Hwf Htd. unfold declare_variables.
  set (G := w_G w). set (td := w_traffic_demand w).
  rewrite (bind_ok _ _ w (set_x [] w) tt) by reflexivity.
  unfold items. rewrite bind_gets. change (w_traffic_demand (set_x [] w)) with td.
  pose (h := fun (d : arc * Z) (e : arc) => (fst (fst d), snd (fst d), fst e, snd e)).
  destruct (for_each_run (fun w' => w_G w' = G)
              (fun w' d => fold_left declare_one (map (h d) (G_edges G)) w')
              td
              (fun '(i, j, _) =>
                 edges <- gets (fun w0 => G_edges (w_G w0)) ;;
                 for_each edges (fun '(u, v) =>
                   var <- addVar 0 (Finite 1) (x_name i j u v) ;;
                   x_setitem (i, j, u, v) var))) with (w := set_x [] w)
    as [E _].
  - intros [[i j] d] w' _ HG. rewrite bind_gets, HG.
    destruct (for_each_run (fun _ => True)
                (fun w0 e => declare_one w0 (h (i, j, d) e)) (G_edges G)
                (fun '(u, v) =>
                   var <- addVar 0 (Finite 1) (x_name i j u v) ;;
                   x_setitem (i, j, u, v) var)) with (w := w') as [E _]; auto.
    + intros [u v] w0 _ _. reflexivity.
    + rewrite E. rewrite fold_left_via_map. reflexivity.
  - intros d w' _ HG. rewrite fold_declare_one. exact HG.
  - reflexivity.
  - rewrite E. f_equal.
    rewrite (fold_left_flat_map declare_one (fun d => map (h d) (G_edges G))).
    change (flat_map (fun d => map (h d) (G_edges G)) td) with (flow_keys G td).
    rewrite fold_declare_one. simpl w_x.
    rewrite (fold_dict_set_fresh key_eqb key_eqb_eq).
    + reflexivity.
    + simpl. apply NoDup_flow_keys; assumption.
Qed.

Lemma Ctx_declared (G : DiGraph) (td : Demands) (w : World) :
  wf_graph G -> w_G w = G -> w_traffic_demand w = td ->
  w_x w = map (fun k => (k, var_of_key k)) (flow_keys G td) ->
  Ctx G td w.
Proof.
  intros Hwf HG Htd Hx. split; [exact HG|]. split; [exact Htd|].
  intros i j u v Hd He. rewrite Hx.
  apply (dict_get_map key_eqb key_eqb_eq var_of_key (i, j, u, v)).
  apply in_flow_keys. split; [exact Hd|]. apply in_G_edges; assumption.
Qed.

Lemma x_getitem_run (G : DiGraph) (td : Demands) (w : World) (i j u v : Z) (d : Z) :
  Ctx G td w -> In ((i, j), d) td -> In (u, v) (map fst (g_adj G)) ->
  x_getitem (i, j, u, v) w = (w, inr (flow_var i j u v)).
Proof.
  intros (_ & _ & Hx) Hd He. unfold x_getitem. rewrite (Hx i j u v); [reflexivity| |exact He].
  apply in_map_iff. exists ((i, j), d). auto.
Qed.

Lemma flow_sum_run (G : DiGraph) (td : Demands) (w : World) (i j d : Z) (edges : list arc) :
  Ctx G td w -> In ((i, j), d) td -> incl edges (map fst (g_adj G)) ->
  flow_sum i j edges w = (w, inr (flows i j edges)).
Proof.
  intros HC Hd Hincl. unfold flow_sum, flows.
  apply (py_sum_run (fun e => EVar (flow_var i j (fst e) (snd e)))).
  intros [u v] He.
  rewrite (bind_ok _ _ _ _ _ (x_getitem_run G td w i j u v d HC Hd (Hincl _ He))).
  reflexivity.
Qed.

Lemma add_flow_conservation_run (G : DiGraph) (td : Demands) (w : World) :
  Ctx G td w ->
  add_flow_conservation w = (add_constrs (conservation_constrs G td) w, inr tt).
Proof.
  intros HC. unfold add_flow_conservation, items. rewrite bind_gets.
  destruct HC as (HG & Htd & Hx). rewrite Htd.
  assert (HC : Ctx G td w) by (split; [|split]; assumption).
  match goal with
  | |- for_each td ?body w = _ =>
      destruct (for_each_run (Ctx G td)
                  (fun w' d => add_constrs
                     (map (conservation G (fst (fst d)) (snd (fst d))) (G_nodes G)) w')
                  td body) with (w := w) as [E _]
  end.
  - intros [[i j] d] w' Hd HC'. rewrite bind_gets.
    destruct HC' as (HG' & Htd' & Hx'). rewrite HG'.
    apply (for_each_constrs (Ctx G td) (conservation G i j)).
    + intros n w0 _ HC0. pose proof HC0 as (HG0 & _ & _).
      rewrite bind_gets, HG0.
      rewrite (bind_ok _ _ _ _ _ (flow_sum_run G td w0 i j d _ HC0 Hd
                 (fun e He => proj1 (proj1 (in_G_in_edges G n e) He)))).
      rewrite bind_gets, HG0.
      rewrite (bind_ok _ _ _ _ _ (flow_sum_run G td w0 i j d _ HC0 Hd
                 (fun e He => proj1 (proj1 (in_G_out_edges G n e) He)))).
      unfold conservation, inflow, outflow.
      destruct (n =? i); [reflexivity|]. destruct (n =? j); reflexivity.
    + intros cs w0 H0. exact H0.
    + split; [|split]; assumption.
  - intros d w' _ HC'. exact HC'.
  - exact HC.
  - etransitivity; [exact E|]. f_equal. unfold conservation_constrs. clear.
    revert w. induction td as [|d td IH]; intros w; simpl.
    + symmetry. apply add_constrs_nil.
    + rewrite IH, add_constrs_app. reflexivity.
Qed.

Lemma load_sum_run (G : DiGraph) (td : Demands) (w : World) (u v : Z) :
  Ctx G td w -> In (u, v) (map fst (g_adj G)) ->
  load_sum u v w = (w, inr (load td u v)).
Proof.
  intros HC He. unfold load_sum, items. rewrite bind_gets.
  pose proof HC as (_ & -> & _). unfold load.
  apply (py_sum_run (fun d => EMul (ENum (inject_Z (snd d)))
                                   (EVar (flow_var (fst (fst d)) (snd (fst d)) u v)))).
  intros [[i j] d] Hd.
  rewrite (bind_ok _ _ _ _ _ (x_getitem_run G td w i j u v d HC Hd He)).
  reflexivity.
Qed.

Lemma G_item_run (G : DiGraph) (w : World) (u v : Z) :
  w_G w = G -> In (u, v) (map fst (g_adj G)) ->
  exists a, G_item u v w = (w, inr a) /\
            capacity a = capacity_of G u v /\ cost a = cost_of G u v /\
            In ((u, v), a) (g_adj G).
Proof.
  intros HG He. destruct (G_getitem_some G u v He) as [a Ha].
  exists a. unfold G_item, capacity_of, cost_of. rewrite HG, Ha.
  repeat split. apply (dict_get_In arc_eqb arc_eqb_eq). exact Ha.
Qed.

Lemma add_capacity_constraints_run (G : DiGraph) (td : Demands) (w : World) :
  Ctx G td w ->
  add_capacity_constraints w = (add_constrs (capacity_constrs G td) w, inr tt).
Proof.
  intros HC. unfold add_capacity_constraints. rewrite bind_gets.
  pose proof HC as (HG & _ & _). rewrite HG.
  apply (for_each_constrs (Ctx G td) (capacity_constr G td)).
  - intros [u v] w0 He HC0. apply G_edges_in_adj in He.
    rewrite (bind_ok _ _ _ _ _ (load_sum_run G td w0 u v HC0 He)).
    destruct (G_item_run G w0 u v (proj1 HC0) He) as (a & Ea & Hcap & _).
    rewrite (bind_ok _ _ _ _ _ Ea). unfold capacity_constr; simpl.
    rewrite <- Hcap. reflexivity.
  - intros cs w0 H0. exact H0.
  - exact HC.
Qed.

Lemma Ctx_after_constraints (w : World) :
  wf_graph (w_G w) ->
  Ctx (w_G w) (w_traffic_demand w) (after_constraints w).
Proof. intros Hwf. apply Ctx_declared; auto. Qed.

(** The stages up to the capacity constraints never raise: whatever
    follows them runs in [after_constraints w]. *)
Lemma constraints_then {B} (k : M B) (w : World) :
  wf_graph (w_G w) -> NoDup (map fst (w_traffic_demand w)) ->
  (Model_new "Routing" ;; declare_variables ;; add_flow_conservation ;;
   add_capacity_constraints ;; k) w
  = k (after_constraints w).
Proof.
  intros Hwf Htd.
  set (G := w_G w). set (td := w_traffic_demand w).
  set (w0 := set_model (new_Model "Routing") w).
  set (w1 := set_x (map (fun k => (k, var_of_key k)) (flow_keys G td))
                   (add_vars (map var_of_key (flow_keys G td)) w0)).
  assert (HC1 : Ctx G td w1) by (apply Ctx_declared; auto).
  rewrite (bind_ok _ _ w w0 tt) by reflexivity.
  rewrite (bind_ok _ _ w0 w1 tt) by (apply (declare_variables_run w0); assumption).
  rewrite (bind_ok _ _ _ _ _ (add_flow_conservation_run G td w1 HC1)).
  rewrite (bind_ok _ _ _ _ _
             (add_capacity_constraints_run G td _ (Ctx_add_constrs G td _ w1 HC1))).
  rewrite add_constrs_app. reflexivity.
Qed.

Lemma build_model_eq (objective : string) (w : World) :
  wf_graph (w_G w) -> NoDup (map fst (w_traffic_demand w)) ->
  build_model objective w = set_objective objective (after_constraints w).
Proof. intros Hwf Htd. unfold build_model. apply constraints_then; assumption. Qed.

Lemma py_div_run (e : expr) (q : Q) (w : World) :
  ~ (q == 0)%Q -> py_div e q w = (w, inr (EDiv e q)).
Proof.
  intros H. unfold py_div. destruct (Qeq_bool q 0) eqn:E; [|reflexivity].
  apply Qeq_bool_iff in E. contradiction.
Qed.

Lemma py_div_cases (e : expr) (q : Q) (w : World) :
  py_div e q w = (w, inr (EDiv e q)) \/ exists x, py_div e q w = (w, inl x).
Proof.
  unfold py_div. destruct (Qeq_bool q 0); [right; eexists|left]; reflexivity.
Qed.

Lemma capacity_of_nonzero (G : DiGraph) (u v : Z) (a : EdgeAttr) :
  capacities_nonzero G -> In ((u, v), a) (g_adj G) -> ~ (capacity a == 0)%Q.
Proof.
  intros H Hin. unfold capacities_nonzero in H. rewrite Forall_forall in H.
  exact (H _ Hin).
Qed.

Lemma set_objective_cost_run (G : DiGraph) (td : Demands) (w : World) :
  Ctx G td w ->
  set_objective "cost" w = (with_objective (cost_objective G td, MINIMIZE) w, inr tt).
Proof.
  intros HC. pose proof HC as (HG & Htd & _).
  change (set_objective "cost") with
    (td <- items ;;
     edges <- gets (fun w => G_edges (w_G w)) ;;
     total <- py_sum (list_prod td edges) (fun '(((i, j), demand), (u, v)) =>
                var <- x_getitem (i, j, u, v) ;;
                a <- G_item u v ;;
                ret (EMul (EMul (EVar var) (ENum (inject_Z demand))) (ENum (cost a)))) ;;
     setObjective total MINIMIZE).
  unfold items. rewrite !bind_gets, HG, Htd.
  erewrite bind_ok; [reflexivity|].
  unfold cost_objective.
  apply (py_sum_run (fun de : (arc * Z) * arc =>
           EMul (EMul (EVar (flow_var (fst (fst (fst de))) (snd (fst (fst de)))
                                      (fst (snd de)) (snd (snd de))))
                      (ENum (inject_Z (snd (fst de)))))
                (ENum (cost_of G (fst (snd de)) (snd (snd de)))))).
  intros [[[i j] d] [u v]] Hin. apply in_prod_iff in Hin. destruct Hin as [Hd He].
  apply G_edges_in_adj in He.
  rewrite (bind_ok _ _ _ _ _ (x_getitem_run G td w i j u v d HC Hd He)).
  destruct (G_item_run G w u v HG He) as (a & Ea & _ & Hcost & _).
  rewrite (bind_ok _ _ _ _ _ Ea). simpl. rewrite <- Hcost. reflexivity.
Qed.

(** One pass of the utilisation loop: a constraint, or a division by zero. *)
Lemma utilisation_body_cases (G : DiGraph) (td : Demands) (w : World) (u v : Z) :
  Ctx G td w -> In (u, v) (map fst (g_adj G)) ->
  let body :=
    (load <- load_sum u v ;;
     a <- G_item u v ;;
     ratio <- py_div load (capacity a) ;;
     addConstr (compare (EVar utilisation_var) GreaterEqual ratio)
               (arc_name "utilisation_" u v)) in
  (body w = (add_constrs [utilisation_constr G td (u, v)] w, inr tt) \/
   exists e, body w = (w, inl e)) /\
  (capacities_nonzero G ->
   body w = (add_constrs [utilisation_constr G td (u, v)] w, inr tt)).
Proof.
  intros HC He body. unfold body.
  rewrite (bind_ok _ _ _ _ _ (load_sum_run G td w u v HC He)).
  destruct (G_item_run G w u v (proj1 HC) He) as (a & Ea & Hcap & _ & Hin).
  rewrite (bind_ok _ _ _ _ _ Ea).
  assert (Hok : py_div (load td u v) (capacity a) w
                = (w, inr (EDiv (load td u v) (capacity a))) ->
                (ratio <- py_div (load td u v) (capacity a) ;;
                 addConstr (compare (EVar utilisation_var) GreaterEqual ratio)
                           (arc_name "utilisation_" u v)) w
                = (add_constrs [utilisation_constr G td (u, v)] w, inr tt)).
  { intros E. rewrite (bind_ok _ _ _ _ _ E).
    unfold utilisation_constr; simpl. rewrite <- Hcap. reflexivity. }
  split.
  - destruct (py_div_cases (load td u v) (capacity a) w) as [E|[e E]].
    + left. exact (Hok E).
    + right. exists e. apply bind_raise. exact E.
  - intros Hnz. apply Hok, py_div_run.
    exact (capacity_of_nonzero G u v a Hnz Hin).
Qed.

Lemma set_objective_max_body :
  set_objective "max_utlilization" =
    (utilisation <- addVar 0 GRB_INFINITY max_utilisation_name ;;
     edges <- gets (fun w => G_edges (w_G w)) ;;
     for_each edges (fun '(u, v) =>
       load <- load_sum u v ;;
       a <- G_item u v ;;
       ratio <- py_div load (capacity a) ;;
       addConstr (compare (EVar utilisation) GreaterEqual ratio)
                 (arc_name "utilisation_" u v)) ;;
     setObjective (EVar utilisation) MINIMIZE).
Proof. reflexivity. Qed.

Lemma set_objective_max_run (G : DiGraph) (td : Demands) (w : World) :
  Ctx G td w -> capacities_nonzero G ->
  set_objective "max_utlilization" w
  = (with_objective (EVar utilisation_var, MINIMIZE)
       (add_constrs (utilisation_constrs G td) (add_vars [utilisation_var] w)),
     inr tt).
Proof.
  intros HC Hnz. rewrite set_objective_max_body.
  rewrite (bind_ok _ _ w (add_vars [utilisation_var] w) utilisation_var) by reflexivity.
  rewrite bind_gets. change (w_G (add_vars [utilisation_var] w)) with (w_G w).
  rewrite (proj1 HC).
  erewrite bind_ok; [reflexivity|].
  apply (for_each_constrs (Ctx G td) (utilisation_constr G td)).
  - intros [u v] w0 He HC0. apply G_edges_in_adj in He.
    exact (proj2 (utilisation_body_cases G td w0 u v HC0 He) Hnz).
  - intros cs w0 H0. exact H0.
  - exact HC.
Qed.

(** Without the hypothesis on capacities: the constraints added are
    utilisation constraints of arcs, up to the first zero capacity. *)
Lemma set_objective_max_cases (G : DiGraph) (td : Demands) (w : World) :
  Ctx G td w ->
  exists l1 l2 r, G_edges G = l1 ++ l2 /\
    let w1 := add_constrs (map (utilisation_constr G td) l1)
                          (add_vars [utilisation_var] w) in
    (set_objective "max_utlilization" w = (w1, inl r) \/
     (l2 = [] /\
      set_objective "max_utlilization" w
      = (with_objective (EVar utilisation_var, MINIMIZE) w1, inr tt))).
Proof.
  intros HC. rewrite set_objective_max_body.
  rewrite (bind_ok _ _ w (add_vars [utilisation_var] w) utilisation_var) by reflexivity.
  rewrite bind_gets. change (w_G (add_vars [utilisation_var] w)) with (w_G w).
  rewrite (proj1 HC).
  match goal with
  | |- context [for_each (G_edges G) ?body] =>
      destruct (for_each_constrs_partial (Ctx G td) (utilisation_constr G td)
                  (G_edges G) body) with (w := add_vars [utilisation_var] w)
        as (l1 & l2 & r & Hsplit & Hrun & Hr)
  end.
  - intros [u v] w0 He HC0. apply G_edges_in_adj in He.
    exact (proj1 (utilisation_body_cases G td w0 u v HC0 He)).
  - intros cs w0 H0. exact H0.
  - exact HC.
  - destruct r as [e|[]].
    + exists l1, l2, e. split; [exact Hsplit|]. left.
      apply bind_raise. exact Hrun.
    + exists l1, l2, KeyError. split; [exact Hsplit|]. right.
      split; [apply Hr; reflexivity|].
      rewrite (bind_ok _ _ _ _ _ Hrun). reflexivity.
Qed.

Lemma set_objective_avg_body :
  set_objective "avg_utilisation" =
    (edges <- gets (fun w => G_edges (w_G w)) ;;
     total <- py_sum edges (fun '(u, v) =>
                load <- load_sum u v ;;
                a <- G_item u v ;;
                py_div load (capacity a)) ;;
     n <- gets (fun w => G_number_of_edges (w_G w)) ;;
     avg_utilisation <- py_div total (inject_Z n) ;;
     setObjective avg_utilisation MINIMIZE).
Proof. reflexivity. Qed.

Lemma ratio_term_cases (G : DiGraph) (td : Demands) (w : World) (u v : Z) :
  Ctx G td w -> In (u, v) (map fst (g_adj G)) ->
  let term := (load <- load_sum u v ;; a <- G_item u v ;; py_div load (capacity a)) in
  (term w = (w, inr (EDiv (load td u v) (capacity_of G u v))) \/
   exists e, term w = (w, inl e)) /\
  (capacities_nonzero G ->
   term w = (w, inr (EDiv (load td u v) (capacity_of G u v)))).
Proof.
  intros HC He term. unfold term.
  rewrite (bind_ok _ _ _ _ _ (load_sum_run G td w u v HC He)).
  destruct (G_item_run G w u v (proj1 HC) He) as (a & Ea & Hcap & _ & Hin).
  rewrite (bind_ok _ _ _ _ _ Ea). rewrite <- Hcap. split.
  - apply py_div_cases.
  - intros Hnz. apply py_div_run. exact (capacity_of_nonzero G u v a Hnz Hin).
Qed.

Lemma set_objective_avg_cases (G : DiGraph) (td : Demands) (w : World) :
  Ctx G td w ->
  (exists e, set_objective "avg_utilisation" w = (w, inl e)) \/
  set_objective "avg_utilisation" w
  = (with_objective (avg_objective G td, MINIMIZE) w, inr tt).
Proof.
  intros HC. rewrite set_objective_avg_body.
  rewrite bind_gets, (proj1 HC).
  match goal with
  | |- context [py_sum (G_edges G) ?term] =>
      destruct (py_sum_cases
                  (fun e => EDiv (load td (fst e) (snd e)) (capacity_of G (fst e) (snd e)))
                  (G_edges G) term w) as [E|[e E]]
  end.
  - intros [u v] He. apply G_edges_in_adj in He.
    exact (proj1 (ratio_term_cases G td w u v HC He)).
  - rewrite (bind_ok _ _ _ _ _ E). rewrite bind_gets, (proj1 HC).
    match goal with
    | |- context [py_div ?t ?q] => destruct (py_div_cases t q w) as [E'|[e E']]
    end.
    + right. rewrite (bind_ok _ _ _ _ _ E'). reflexivity.
    + left. exists e. apply bind_raise. exact E'.
  - left. exists e. apply bind_raise. exact E.
Qed.

Lemma number_of_edges_nonzero (G : DiGraph) :
  g_adj G <> [] -> ~ (inject_Z (G_number_of_edges G) == 0)%Q.
Proof.
  intros H. unfold G_number_of_edges, Qeq; simpl.
  destruct (g_adj G); [contradiction|]. simpl List.length. lia.
Qed.

Lemma set_objective_avg_run (G : DiGraph) (td : Demands) (w : World) :
  Ctx G td w -> capacities_nonzero G -> g_adj G <> [] ->
  set_objective "avg_utilisation" w
  = (with_objective (avg_objective G td, MINIMIZE) w, inr tt).
Proof.
  intros HC Hnz Hne. rewrite set_objective_avg_body.
  rewrite bind_gets, (proj1 HC).
  erewrite bind_ok.
  2:{ apply (py_sum_run
               (fun e => EDiv (load td (fst e) (snd e)) (capacity_of G (fst e) (snd e)))).
      intros [u v] He. apply G_edges_in_adj in He.
      exact (proj2 (ratio_term_cases G td w u v HC He) Hnz). }
  rewrite bind_gets, (proj1 HC).
  erewrite bind_ok; [reflexivity|].
  apply py_div_run, number_of_edges_nonzero, Hne.
Qed.

Lemma set_objective_unrecognized (objective : string) (w : World) :
  ~ recognized objective ->
  set_objective objective w = (w, inl (ValueError "Fonction objectif non reconnue")).
Proof.
  intros H. unfold recognized in H. unfold set_objective.
  destruct (String.eqb_spec objective "cost"); [tauto|].
  destruct (String.eqb_spec objective "max_utlilization"); [tauto|].
  destruct (String.eqb_spec objective "avg_utilisation"); [tauto|].
  reflexivity.
Qed.

(** What the objective stage may change, whatever the selector and
    whether or not it raises: it appends at most the utilisation variable
    and utilisation constraints of arcs. *)
Lemma set_objective_effect (G : DiGraph) (td : Demands) (w : World) (objective : string) :
  Ctx G td w ->
  exists vs cs,
    let w' := fst (set_objective objective w) in
    w_x w' = w_x w /\
    m_vars (w_model w') = m_vars (w_model w) ++ vs /\
    m_constrs (w_model w') = m_constrs (w_model w) ++ map passed cs /\
    m_optimize_calls (w_model w') = m_optimize_calls (w_model w) /\
    (vs = [] \/ vs = [utilisation_var]) /\
    incl cs (utilisation_constrs G td) /\
    (objective <> "max_utlilization"%string -> vs = [] /\ cs = []).
Proof.
  intros HC.
  assert (Hnone : forall w', (w' = w \/ exists o, w' = with_objective o w) ->
            w_x w' = w_x w /\
            m_vars (w_model w') = m_vars (w_model w) ++ [] /\
            m_constrs (w_model w') = m_constrs (w_model w) ++ map passed [] /\
            m_optimize_calls (w_model w') = m_optimize_calls (w_model w) /\
            (@nil Var = [] \/ @nil Var = [utilisation_var]) /\
            incl (@nil Constr) (utilisation_constrs G td) /\
            (objective <> "max_utlilization"%string -> @nil Var = [] /\ @nil Constr = [])).
  { intros w' Hw'. rewrite !app_nil_r.
    assert (incl (@nil Constr) (utilisation_constrs G td)) by (intros c []).
    destruct Hw' as [->|[o ->]]; simpl; auto 10. }
  destruct (String.eqb_spec objective "cost") as [->|Hc].
  { exists [], []. rewrite (set_objective_cost_run G td w HC). apply Hnone.
    right; eexists; reflexivity. }
  destruct (String.eqb_spec objective "max_utlilization") as [->|Hm].
  { destruct (set_objective_max_cases G td w HC) as (l1 & l2 & r & Hsplit & Hcase).
    exists [utilisation_var], (map (utilisation_constr G td) l1).
    assert (Hincl : incl (map (utilisation_constr G td) l1) (utilisation_constrs G td)).
    { unfold utilisation_constrs. rewrite Hsplit, map_app. apply incl_appl, incl_refl. }
    destruct Hcase as [E|[_ E]]; rewrite E; simpl; repeat split; auto; congruence. }
  destruct (String.eqb_spec objective "avg_utilisation") as [->|Ha].
  { exists [], [].
    destruct (set_objective_avg_cases G td w HC) as [[e E]|E]; rewrite E;
      apply Hnone; [left; reflexivity|right; eexists; reflexivity]. }
  exists [], []. rewrite set_objective_unrecognized.
  - apply Hnone. left; reflexivity.
  - unfold recognized. tauto.
Qed.

(* ================================================================== *)
(** * The model that is built *)

Lemma filter_all {A} (p : A -> bool) (l : list A) :
  (forall a, In a l -> p a = true) -> filter p l = l.
Proof.
  induction l as [|a l IH]; simpl; intros H; [reflexivity|].
  rewrite (H a (or_introl eq_refl)), IH; [reflexivity|].
  intros b Hb. apply H. right; exact Hb.
Qed.

Lemma filter_none {A} (p : A -> bool) (l : list A) :
  (forall a, In a l -> p a = false) -> filter p l = [].
Proof.
  induction l as [|a l IH]; simpl; intros H; [reflexivity|].
  rewrite (H a (or_introl eq_refl)). apply IH.
  intros b Hb. apply H. right; exact Hb.
Qed.

Lemma vars_of_fold_EAdd (es : list expr) (acc : expr) :
  vars_of (fold_left EAdd es acc) = vars_of acc ++ flat_map vars_of es.
Proof.
  revert acc. induction es as [|e es IH]; intros acc; simpl.
  - rewrite app_nil_r. reflexivity.
  - rewrite IH. simpl. rewrite app_assoc. reflexivity.
Qed.

Lemma vars_of_flows (i j : Z) (edges : list arc) (v : Var) :
  In v (vars_of (flows i j edges)) -> demand_of v = Some (i, j).
Proof.
  unfold flows, sum_expr. rewrite vars_of_fold_EAdd. simpl.
  rewrite in_flat_map. intros [e [He Hv]].
  apply in_map_iff in He. destruct He as [a [<- _]].
  destruct Hv as [<-|[]]. reflexivity.
Qed.

Lemma vars_of_flows_eq (i j : Z) (edges : list arc) :
  vars_of (flows i j edges) = map (fun e => flow_var i j (fst e) (snd e)) edges.
Proof.
  unfold flows, sum_expr. rewrite vars_of_fold_EAdd. simpl.
  induction edges as [|e edges IH]; simpl; [reflexivity|]. rewrite IH. reflexivity.
Qed.

(** A sum of FlowVariables is a number exactly when it is over no arc. *)
Lemma is_number_flows (i j : Z) (edges : list arc) :
  is_number (flows i j edges) = match edges with [] => true | _ :: _ => false end.
Proof.
  unfold is_number. rewrite vars_of_flows_eq. destruct edges; reflexivity.
Qed.

Lemma is_number_ESub (a b : expr) :
  is_number (ESub a b) = is_number a && is_number b.
Proof.
  unfold is_number. simpl. destruct (vars_of a); [|reflexivity].
  destruct (vars_of b); reflexivity.
Qed.

Lemma has_arc_false (G : DiGraph) (n : node) :
  has_arc G n = false <-> G_in_edges G n = [] /\ G_out_edges G n = [].
Proof.
  unfold has_arc, G_in_edges, G_out_edges.
  induction (g_adj G) as [|[[u v] a] adj IH]; simpl; [tauto|].
  destruct (u =? n), (v =? n); simpl; rewrite ?IH;
    split; try tauto; try discriminate; intros [H1 H2]; discriminate.
Qed.

(** At a node without arc both sums are the number [0], and the
    comparison is a [bool]: [False] at the origin and at the destination,
    [True] elsewhere.  At a node with an arc it is the equality
    constraint. *)
Lemma passed_conservation (G : DiGraph) (i j n : Z) :
  passed (conservation G i j n)
  = {| given := if has_arc G n
                then TempConstr (c_lhs (conservation G i j n)) Equal
                                (c_rhs (conservation G i j n))
                else PyBool (negb ((n =? i) || (n =? j)));
       given_name := c_name (conservation G i j n) |}.
Proof.
  unfold passed. f_equal. unfold compare.
  assert (Hnum : is_number (ESub (inflow G i j n) (outflow G i j n)) = negb (has_arc G n)
                 /\ is_number (ESub (outflow G i j n) (inflow G i j n)) = negb (has_arc G n)).
  { rewrite !is_number_ESub. unfold inflow, outflow. rewrite !is_number_flows.
    destruct (has_arc G n) eqn:E.
    - destruct (G_in_edges G n) eqn:Ei; [|rewrite ?andb_false_r; split; reflexivity].
      destruct (G_out_edges G n) eqn:Eo; [|split; reflexivity].
      assert (has_arc G n = false) by (apply has_arc_false; auto). congruence.
    - apply has_arc_false in E. destruct E as [-> ->]. split; reflexivity. }
  destruct Hnum as [H1 H2]. unfold conservation.
  destruct (n =? i) eqn:Ei; [|destruct (n =? j) eqn:Ej]; cbn [c_lhs c_sense c_rhs];
    rewrite ?H1, ?H2; destruct (has_arc G n) eqn:E; cbn [negb andb orb];
    try reflexivity;
    apply has_arc_false in E; destruct E as [Hin Hout];
    unfold inflow, outflow; rewrite Hin, Hout; reflexivity.
Qed.

Lemma is_equality_passed (c : Constr) :
  c_sense c <> Equal -> is_equality (passed c) = false.
Proof.
  intros H. unfold is_equality, passed, compare. simpl.
  destruct (is_number (c_lhs c) && is_number (c_rhs c)); [reflexivity|].
  destruct (c_sense c); congruence.
Qed.

(** The equality constraints among the conservation entries: those at the
    nodes that have an arc. *)
Lemma filter_conservation (G : DiGraph) (td : Demands) :
  filter is_equality (map passed (conservation_constrs G td))
  = map passed (flat_map (fun d => map (conservation G (fst (fst d)) (snd (fst d)))
                                       (filter (has_arc G) (G_nodes G))) td).
Proof.
  unfold conservation_constrs.
  induction td as [|d td IH]; [reflexivity|].
  cbn [flat_map]. rewrite !map_app, filter_app, IH. f_equal. clear IH.
  induction (G_nodes G) as [|n nodes IHn]; [reflexivity|].
  cbn [map filter]. rewrite passed_conservation at 1. unfold is_equality at 1.
  cbn [given]. destruct (has_arc G n); [|exact IHn].
  cbn [map]. rewrite IHn. reflexivity.
Qed.

Lemma filter_capacity (G : DiGraph) (td : Demands) :
  filter is_equality (map passed (capacity_constrs G td)) = [].
Proof.
  apply filter_none. intros c Hc. apply in_map_iff in Hc.
  destruct Hc as [c' [<- Hc]]. unfold capacity_constrs in Hc.
  apply in_map_iff in Hc. destruct Hc as [e [<- _]].
  apply is_equality_passed. discriminate.
Qed.

Lemma filter_utilisation (G : DiGraph) (td : Demands) (cs : list Constr) :
  incl cs (utilisation_constrs G td) -> filter is_equality (map passed cs) = [].
Proof.
  intros H. apply filter_none. intros c Hc. apply in_map_iff in Hc.
  destruct Hc as [c' [<- Hc]]. apply H in Hc.
  unfold utilisation_constrs in Hc.
  apply in_map_iff in Hc. destruct Hc as [e [<- _]].
  apply is_equality_passed. discriminate.
Qed.

Lemma var_of_key_inj (a b : key) : var_of_key a = var_of_key b -> a = b.
Proof.
  destruct a as [[[i j] u] v], b as [[[i' j'] u'] v']; simpl.
  unfold flow_var. intros [= -> -> -> ->]. reflexivity.
Qed.

(** The model at the end of the build, whether or not the objective
    stage raised. *)
Lemma build_model_contents (objective : string) (w : World) :
  wf_graph (w_G w) -> NoDup (map fst (w_traffic_demand w)) ->
  let G := w_G w in
  let td := w_traffic_demand w in
  let w' := fst (build_model objective w) in
  exists vs cs,
    w_x w' = map (fun k => (k, var_of_key k)) (flow_keys G td) /\
    m_vars (w_model w') = map var_of_key (flow_keys G td) ++ vs /\
    m_constrs (w_model w')
      = map passed (conservation_constrs G td ++ capacity_constrs G td ++ cs) /\
    m_optimize_calls (w_model w') = 0%nat /\
    (vs = [] \/ vs = [utilisation_var]) /\
    incl cs (utilisation_constrs G td) /\
    (objective <> "max_utlilization"%string -> vs = [] /\ cs = []).
Proof.
  intros Hwf Htd G td w'. unfold w'. rewrite build_model_eq by assumption.
  destruct (set_objective_effect G td (after_constraints w) objective
              (Ctx_after_constraints w Hwf))
    as (vs & cs & Hx & Hv & Hc & Hcalls & Hvs & Hcs & Hother).
  exists vs, cs. rewrite Hx, Hv, Hc, Hcalls. simpl.
  rewrite !map_app, <- ?app_assoc. auto 10.
Qed.

(** C1, as the code has it.  For every well-formed graph, every demand
    dict and every objective selector, the model that
    [solve_linear_program] builds has, besides the utilisation variable of
    the max-utilisation objective, exactly the FlowVariables [x_i_j_u_v],
    one per (demand, arc) pair and each with bounds [0, 1].  For every
    demand [(i, j)] and every node [n], in this order, [addConstr] is
    given exactly one flow-conservation comparison: outflow - inflow = 1
    when [n = i], inflow - outflow = 1 when [n = j] and [j <> i],
    inflow - outflow = 0 at every other node, the two sums being over the
    FlowVariables of the demand on the arcs of the graph that enter and
    that leave [n].  What is given is an equality constraint exactly
    when [n] is an end of some arc; at a node without arc both sums are
    the number [0] and what is given is a [bool], [False] at the origin
    and at the destination and [True] elsewhere.  The model has no other
    equality constraint. *)
Theorem build_model_flow_structure (objective : string) (w : World) :
  wf_graph (w_G w) -> NoDup (map fst (w_traffic_demand w)) ->
  let G := w_G w in
  let td := w_traffic_demand w in
  let m := w_model (fst (build_model objective w)) in
  (exists vs, m_vars m = map var_of_key (flow_keys G td) ++ vs /\
              (vs = [] \/ vs = [utilisation_var])) /\
  NoDup (map var_of_key (flow_keys G td)) /\
  (forall i j u v, In (i, j, u, v) (flow_keys G td) <->
                   In (i, j) (map fst td) /\ In (u, v) (G_edges G)) /\
  (forall i j u v, LB (flow_var i j u v) = 0%Q /\ UB (flow_var i j u v) = Finite 1) /\
  (exists rest,
     m_constrs m
     = map passed
         (flat_map (fun d => map (conservation G (fst (fst d)) (snd (fst d)))
                                 (G_nodes G)) td)
       ++ rest /\
     filter is_equality rest = []) /\
  equality_constrs m
    = map passed
        (flat_map (fun d => map (conservation G (fst (fst d)) (snd (fst d)))
                                (filter (has_arc G) (G_nodes G))) td) /\
  (forall i j n,
     c_sense (conservation G i j n) = Equal /\
     (n = i ->
      c_lhs (conservation G i j n) = ESub (outflow G i j n) (inflow G i j n) /\
      c_rhs (conservation G i j n) = ENum 1) /\
     (n = j -> i <> j ->
      c_lhs (conservation G i j n) = ESub (inflow G i j n) (outflow G i j n) /\
      c_rhs (conservation G i j n) = ENum 1) /\
     (n <> i -> n <> j ->
      c_lhs (conservation G i j n) = ESub (inflow G i j n) (outflow G i j n) /\
      c_rhs (conservation G i j n) = ENum 0)) /\
  (forall i j n,
     inflow G i j n
     = flows i j (map fst (filter (fun e => snd (fst e) =? n) (g_adj G))) /\
     outflow G i j n
     = flows i j (map fst (filter (fun e => fst (fst e) =? n) (g_adj G)))) /\
  (forall i j edges,
     vars_of (flows i j edges) = map (fun e => flow_var i j (fst e) (snd e)) edges) /\
  (forall i j n,
     passed (conservation G i j n)
     = {| given := if has_arc G n
                   then TempConstr (c_lhs (conservation G i j n)) Equal
                                   (c_rhs (conservation G i j n))
                   else PyBool (negb ((n =? i) || (n =? j)));
          given_name := c_name (conservation G i j n) |}).
Proof.
  intros Hwf Htd G td m.
  destruct (build_model_contents objective w Hwf Htd)
    as (vs & cs & _ & Hv & Hc & _ & Hvs & Hcs & _).
  fold G td in Hv, Hc, Hcs. fold m in Hv, Hc.
  split; [exists vs; auto|].
  split.
  { apply NoDup_map_NoDup_ForallPairs.
    - intros a b _ _. apply var_of_key_inj.
    - apply NoDup_flow_keys; assumption. }
  split; [intros; apply in_flow_keys|].
  split; [intros; split; reflexivity|].
  split.
  { exists (map passed (capacity_constrs G td ++ cs)). split.
    - rewrite Hc, map_app. reflexivity.
    - rewrite map_app, filter_app, filter_capacity, (filter_utilisation G td cs Hcs).
      reflexivity. }
  split.
  { unfold equality_constrs. rewrite Hc, !map_app, !filter_app.
    rewrite filter_conservation, filter_capacity, (filter_utilisation G td cs Hcs).
    rewrite !app_nil_r. reflexivity. }
  split.
  { intros i j n. unfold conservation.
    split; [destruct (n =? i); [|destruct (n =? j)]; reflexivity|].
    split; [intros ->; rewrite Z.eqb_refl; split; reflexivity|].
    split.
    - intros -> Hij. destruct (Z.eqb_spec j i) as [E|_]; [congruence|].
      rewrite Z.eqb_refl. split; reflexivity.
    - intros Hi Hj. destruct (Z.eqb_spec n i) as [E|_]; [congruence|].
      destruct (Z.eqb_spec n j) as [E|_]; [congruence|]. split; reflexivity. }
  split; [intros i j n; split; reflexivity|].
  split; [intros i j edges; apply vars_of_flows_eq|].
  intros i j n. apply passed_conservation.
Qed.

Ltac solve_NoDup :=
  repeat (constructor; [simpl; intuition congruence|]); constructor.

Lemma wf_cycle3 : wf_graph cycle3.
Proof.
  split; [solve_NoDup|]. split; [solve_NoDup|].
  intros u v [H|[H|[H|[]]]]; injection H as <- <-; simpl; auto.
Qed.

Lemma wf_one_arc : wf_graph one_arc.
Proof.
  split; [solve_NoDup|]. split; [solve_NoDup|].
  intros u v [H|[]]; injection H as <- <-; simpl; auto.
Qed.

Lemma build_model_flow_structure_witness :
  wf_graph cycle3 /\
  NoDup (map fst [((0, 2), 3)]) /\
  equality_constrs (w_model (fst (build_model "cost" (world_of cycle3 [((0, 2), 3)]))))
  = map passed (map (conservation cycle3 0 2) [0; 1; 2]).
Proof.
  split; [exact wf_cycle3|]. split; [solve_NoDup|].
  destruct (build_model_flow_structure "cost" (world_of cycle3 [((0, 2), 3)]))
    as (_ & _ & _ & _ & _ & H & _).
  - exact wf_cycle3.
  - solve_NoDup.
  - rewrite H. reflexivity.
Defined.

(** C1 as stated fails.  On two nodes without arc and the demand (0, 1),
    neither of the two conservation entries is an equality constraint:
    each is the bool [False], and the model has no equality constraint.
    And for a demand from a node to itself, the entry at that node has the
    form of the origin, not of the destination. *)
Lemma conservation_entries_not_all_equalities :
  let m := w_model (fst (build_model "cost"
                           (world_of {| g_nodes := [0; 1]; g_adj := [] |}
                                     [((0, 1), 1)]))) in
  m_constrs m = [{| given := PyBool false; given_name := "flow_src_0_1_0" |};
                 {| given := PyBool false; given_name := "flow_dst_0_1_1" |}] /\
  equality_constrs m = [] /\
  c_lhs (conservation one_arc 0 0 0)
  = ESub (outflow one_arc 0 0 0) (inflow one_arc 0 0 0) /\
  outflow one_arc 0 0 0 <> inflow one_arc 0 0 0.
Proof.
  split; [vm_compute; reflexivity|]. split; [vm_compute; reflexivity|].
  split; [reflexivity|]. vm_compute. discriminate.
Qed.

(** The cycle 0 -> 1 -> 2 -> 0 with the demand (0, 2): at the origin the
    constraint is [x_0_2_0_1 - x_0_2_2_0 = 1]. *)
Example cycle3_origin_constraint :
  nth_error (m_constrs (w_model (fst (build_model "cost"
                                        (world_of cycle3 [((0, 2), 3)]))))) 0
  = Some {| given := TempConstr (ESub (EAdd (ENum 0) (EVar (flow_var 0 2 0 1)))
                                      (EAdd (ENum 0) (EVar (flow_var 0 2 2 0))))
                                Equal (ENum 1);
            given_name := "flow_src_0_2_0" |}.
Proof. vm_compute. reflexivity. Qed.

(** On a graph without arcs the average divides by zero. *)
Example avg_utilisation_without_arcs :
  snd (build_model "avg_utilisation"
         (world_of {| g_nodes := [0; 1]; g_adj := [] |} []))
  = inl ZeroDivisionError.
Proof. vm_compute. reflexivity. Qed.

(* ================================================================== *)
(** * Capacity constraints and coupling *)

Lemma couples_single (c : Constr) (d : arc) :
  (forall v, In v (vars_of (c_lhs c) ++ vars_of (c_rhs c)) ->
             demand_of v = Some d \/ demand_of v = None) ->
  couples c = false.
Proof.
  intros H. unfold couples.
  assert (Hd : forall d', In d' (constr_demands c) -> d' = d).
  { intros d' Hd'. unfold constr_demands in Hd'. apply in_flat_map in Hd'.
    destruct Hd' as [v [Hv Hd']]. destruct (H v Hv) as [E|E]; rewrite E in Hd'.
    - destruct Hd' as [<-|[]]. reflexivity.
    - destruct Hd'. }
  destruct (existsb _ (constr_demands c)) eqn:E; [|reflexivity].
  apply existsb_exists in E. destruct E as [d1 [H1 E]].
  apply existsb_exists in E. destruct E as [d2 [H2 E]].
  rewrite (Hd d1 H1), (Hd d2 H2) in E.
  assert (arc_eqb d d = true) by (apply arc_eqb_eq; reflexivity).
  rewrite H0 in E. discriminate.
Qed.

Lemma conservation_not_coupling (G : DiGraph) (i j n : Z) :
  couples (conservation G i j n) = false.
Proof.
  apply (couples_single _ (i, j)). intros v Hv. left.
  assert (H : In v (vars_of (inflow G i j n)) \/ In v (vars_of (outflow G i j n))).
  { unfold conservation in Hv.
    destruct (n =? i); [|destruct (n =? j)]; simpl in Hv;
      rewrite app_nil_r in Hv; apply in_app_or in Hv; tauto. }
  destruct H as [H|H]; exact (vars_of_flows _ _ _ _ H).
Qed.

Lemma couples_added_passed (c : Constr) : couples_added (passed c) = couples c.
Proof.
  unfold couples_added, passed, compare. cbn [given given_name].
  destruct (is_number (c_lhs c) && is_number (c_rhs c)) eqn:E.
  - apply andb_true_iff in E. destruct E as [El Er].
    unfold is_number in El, Er. unfold couples, constr_demands.
    destruct (vars_of (c_lhs c)); [|discriminate].
    destruct (vars_of (c_rhs c)); [|discriminate]. reflexivity.
  - destruct c. reflexivity.
Qed.

(** The capacity comparison of an arc is a constraint as soon as there is
    a demand; with no demand the sum is the number [0] and the comparison
    is the bool [0 <= capacity]. *)
Lemma compare_load (G : DiGraph) (td : Demands) (u v : Z) :
  compare (load td u v) LessEqual (ENum (capacity_of G u v))
  = match td with
    | [] => PyBool (Qle_bool 0 (capacity_of G u v))
    | _ :: _ => TempConstr (load td u v) LessEqual (ENum (capacity_of G u v))
    end.
Proof.
  destruct td as [|d td]; [reflexivity|].
  unfold compare.
  replace (is_number (load (d :: td) u v)) with false; [reflexivity|].
  unfold is_number, load, sum_expr. rewrite vars_of_fold_EAdd. reflexivity.
Qed.

(** C2, as the code has it.  For every arc [(u, v)] of the graph,
    [addConstr] is given the comparison
    [sum over demands of volume * x[d, u, v] <= capacity(u, v)] under the
    name [capacity_u_v]: the capacity constraint as soon as there is a
    demand; with an empty demand dict the sum is the number [0] and what
    is given is the bool [0 <= capacity(u, v)], not a constraint.  A
    constraint of the model that mentions FlowVariables of two distinct
    demands is one of these capacity constraints or, under the
    max-utilisation objective only, one of the per-arc utilisation
    constraints. *)
Theorem capacity_constraints_and_coupling (objective : string) (w : World) :
  wf_graph (w_G w) -> NoDup (map fst (w_traffic_demand w)) ->
  let G := w_G w in
  let td := w_traffic_demand w in
  let m := w_model (fst (build_model objective w)) in
  (forall u v, In (u, v) (G_edges G) ->
     In {| given := match td with
                    | [] => PyBool (Qle_bool 0 (capacity_of G u v))
                    | _ :: _ => TempConstr (load td u v) LessEqual
                                           (ENum (capacity_of G u v))
                    end;
           given_name := arc_name "capacity_" u v |} (m_constrs m)) /\
  (forall a, In a (m_constrs m) -> couples_added a = true ->
     In a (map passed (capacity_constrs G td)) \/
     (objective = "max_utlilization"%string /\
      In a (map passed (utilisation_constrs G td)))).
Proof.
  intros Hwf Htd G td m.
  destruct (build_model_contents objective w Hwf Htd)
    as (vs & cs & _ & _ & Hc & _ & _ & Hcs & Hother).
  fold G td in Hc, Hcs. fold m in Hc. split.
  - intros u v He. rewrite Hc, !map_app. apply in_or_app. right. apply in_or_app. left.
    unfold capacity_constrs. rewrite map_map. apply in_map_iff. exists (u, v).
    split; [|exact He]. unfold passed, capacity_constr. cbn [c_lhs c_sense c_rhs c_name fst snd].
    rewrite compare_load. reflexivity.
  - intros a Hin Hcouples. rewrite Hc, !map_app in Hin.
    apply in_app_or in Hin. destruct Hin as [Hin|Hin].
    + exfalso. apply in_map_iff in Hin. destruct Hin as [c [<- Hin]].
      unfold conservation_constrs in Hin. apply in_flat_map in Hin.
      destruct Hin as [d [_ Hin]]. apply in_map_iff in Hin.
      destruct Hin as [n [<- _]].
      rewrite couples_added_passed, conservation_not_coupling in Hcouples.
      discriminate.
    + apply in_app_or in Hin. destruct Hin as [Hin|Hin]; [left; exact Hin|].
      right. split.
      * destruct (string_dec objective "max_utlilization") as [E|E]; [exact E|].
        destruct (Hother E) as [_ ->]. destruct Hin.
      * apply in_map_iff in Hin. destruct Hin as [c [<- Hin]].
        apply in_map. exact (Hcs _ Hin).
Qed.

Lemma capacity_constraints_and_coupling_witness :
  wf_graph one_arc /\
  NoDup (map fst [((0, 1), 1); ((1, 0), 1)]) /\
  In {| given := TempConstr (load [((0, 1), 1); ((1, 0), 1)] 0 1) LessEqual
                            (ENum (capacity_of one_arc 0 1));
        given_name := arc_name "capacity_" 0 1 |}
     (m_constrs (w_model (fst (build_model "cost"
        (world_of one_arc [((0, 1), 1); ((1, 0), 1)]))))).
Proof.
  split; [exact wf_one_arc|]. split; [solve_NoDup|].
  destruct (capacity_constraints_and_coupling "cost"
              (world_of one_arc [((0, 1), 1); ((1, 0), 1)])) as [H _].
  - exact wf_one_arc.
  - solve_NoDup.
  - apply (H 0 1). simpl. auto.
Defined.

(** C2 as stated fails: under the max-utilisation objective the
    utilisation constraint of the arc mentions the FlowVariables of both
    demands and is not a capacity constraint. *)
Lemma utilisation_constraint_couples :
  ~ (forall a,
       In a (m_constrs (w_model (fst (build_model "max_utlilization"
               (world_of one_arc [((0, 1), 1); ((1, 0), 1)]))))) ->
       couples_added a = true ->
       In a (map passed (capacity_constrs one_arc [((0, 1), 1); ((1, 0), 1)]))).
Proof.
  intros H.
  specialize (H (passed (utilisation_constr one_arc [((0, 1), 1); ((1, 0), 1)] (0, 1)))).
  assert (Hin : In (passed (utilisation_constr one_arc [((0, 1), 1); ((1, 0), 1)] (0, 1)))
                   (map passed (capacity_constrs one_arc [((0, 1), 1); ((1, 0), 1)]))).
  { apply H.
    - vm_compute. tauto.
    - vm_compute. reflexivity. }
  vm_compute in Hin. destruct Hin as [Hin|[]]. discriminate Hin.
Qed.

(** With an empty demand dict, what is given for the arc of [one_arc] is
    the bool [True] (0 <= 2), and the capacity is not in the model. *)
Example capacity_without_demand :
  m_constrs (w_model (fst (build_model "cost" (world_of one_arc []))))
  = [{| given := PyBool true; given_name := "capacity_0_1" |}].
Proof. vm_compute. reflexivity. Qed.

(** ** Where numbers are compared

    A sum over nothing is a number, and a comparison of two numbers is a
    [bool], not a linear constraint.  When there is a demand and every
    node has an arc, this does not occur: every comparison of the build
    mentions a variable, and [addConstr] is given constraints only. *)

Lemma vars_of_sum_nonempty {A} (f : A -> expr) (l : list A) :
  l <> [] -> (forall a, In a l -> vars_of (f a) <> []) ->
  vars_of (sum_expr (map f l)) <> [].
Proof.
  intros Hl Hf. unfold sum_expr. rewrite vars_of_fold_EAdd. simpl.
  destruct l as [|a l]; [contradiction|]. simpl.
  intros H. apply app_eq_nil in H. destruct H as [H _].
  exact (Hf a (or_introl eq_refl) H).
Qed.

Lemma vars_of_flows_nonempty (i j : Z) (edges : list arc) :
  edges <> [] -> vars_of (flows i j edges) <> [].
Proof.
  intros H. unfold flows. apply vars_of_sum_nonempty; [exact H|].
  intros e _. discriminate.
Qed.

Lemma constraints_mention_variables (objective : string) (w : World) :
  wf_graph (w_G w) -> NoDup (map fst (w_traffic_demand w)) ->
  w_traffic_demand w <> [] ->
  (forall n, In n (G_nodes (w_G w)) ->
             G_in_edges (w_G w) n <> [] \/ G_out_edges (w_G w) n <> []) ->
  forall a, In a (m_constrs (w_model (fst (build_model objective w)))) ->
            exists c, a = {| given := TempConstr (c_lhs c) (c_sense c) (c_rhs c);
                             given_name := c_name c |}.
Proof.
  intros Hwf Htd Hne Harcs a Ha.
  destruct (build_model_contents objective w Hwf Htd)
    as (vs & cs & _ & _ & Hm & _ & _ & Hcs & _).
  rewrite Hm in Ha. clear Hm. apply in_map_iff in Ha. destruct Ha as [c [<- Hc]].
  exists c. unfold passed. f_equal. unfold compare.
  replace (is_number (c_lhs c) && is_number (c_rhs c)) with false; [reflexivity|].
  symmetry. apply not_true_is_false. intros Hnum.
  apply andb_true_iff in Hnum. destruct Hnum as [Hl Hr].
  assert (Hvars : vars_of (c_lhs c) ++ vars_of (c_rhs c) = []).
  { unfold is_number in Hl, Hr. destruct (vars_of (c_lhs c)); [|discriminate].
    destruct (vars_of (c_rhs c)); [reflexivity|discriminate]. }
  revert Hvars.
  assert (Happ : forall a b : list Var, a <> [] -> a ++ b <> []).
  { intros a b Ha H. apply app_eq_nil in H. tauto. }
  apply in_app_or in Hc. destruct Hc as [Hc|Hc].
  - unfold conservation_constrs in Hc. apply in_flat_map in Hc.
    destruct Hc as [[[i j] d] [_ Hc]]. apply in_map_iff in Hc.
    destruct Hc as [n [<- Hn]]. simpl. apply Happ.
    assert (Hflow : vars_of (inflow (w_G w) i j n) ++ vars_of (outflow (w_G w) i j n) <> []
                    /\ vars_of (outflow (w_G w) i j n) ++ vars_of (inflow (w_G w) i j n) <> []).
    { destruct (Harcs n Hn) as [H|H].
      - pose proof (vars_of_flows_nonempty i j _ H) as Hv.
        split; intros E; apply app_eq_nil in E; unfold inflow in *; tauto.
      - pose proof (vars_of_flows_nonempty i j _ H) as Hv.
        split; intros E; apply app_eq_nil in E; unfold outflow in *; tauto. }
    unfold conservation.
    destruct (n =? i); [|destruct (n =? j)]; simpl; tauto.
  - apply in_app_or in Hc. destruct Hc as [Hc|Hc].
    + unfold capacity_constrs in Hc. apply in_map_iff in Hc.
      destruct Hc as [e [<- _]]. simpl. apply Happ.
      unfold load. apply vars_of_sum_nonempty; [exact Hne|].
      intros d _. discriminate.
    + apply Hcs in Hc. unfold utilisation_constrs in Hc. apply in_map_iff in Hc.
      destruct Hc as [e [<- _]]. discriminate.
Qed.

(* ================================================================== *)
(** * Solving and interpreting the status *)

Lemma solve_after_build (gurobi : Solver) (objective : string) (w w1 : World) :
  build_model objective w = (w1, inr tt) ->
  solve_linear_program gurobi objective w
  = interpret_status (fst (optimize gurobi w1)).
Proof.
  intros H. unfold solve_linear_program.
  rewrite (bind_ok _ _ _ _ _ H). reflexivity.
Qed.

Lemma solve_build_raises (gurobi : Solver) (objective : string) (w w1 : World) (e : exn) :
  build_model objective w = (w1, inl e) ->
  solve_linear_program gurobi objective w = (w1, inl e).
Proof. intros H. unfold solve_linear_program. apply bind_raise. exact H. Qed.

Lemma interpret_status_calls (w : World) :
  m_optimize_calls (w_model (fst (interpret_status w))) = m_optimize_calls (w_model w).
Proof.
  unfold interpret_status. rewrite bind_gets.
  destruct (m_status (w_model w)); reflexivity.
Qed.

(** C3, as the code has it.  Once the model is built, the result of
    [solve_linear_program] is decided by the status the solver reports:
    on INFEASIBLE the IIS is computed, written to [infeasible.ilp], and
    the function returns [None]; on OPTIMAL it returns the pair of the
    positive flows and the objective value; on every other status it
    raises [Exception]. *)
Theorem solve_linear_program_outcome
        (gurobi : Solver) (objective : string) (w w1 : World) :
  build_model objective w = (w1, inr tt) ->
  let out := gurobi (w_model w1) in
  let r := solve_linear_program gurobi objective w in
  (o_status out = INFEASIBLE ->
     snd r = inr None /\
     m_iis_computed (w_model (fst r)) = true /\
     w_files (fst r) = w_files w1 ++ ["infeasible.ilp"%string]) /\
  (o_status out = OPTIMAL ->
     snd r = inr (Some (positive_flows (w_model (fst (optimize gurobi w1))) (w_x w1),
                        o_ObjVal out))) /\
  (o_status out <> INFEASIBLE -> o_status out <> OPTIMAL ->
     snd r = inl (Exception "Pas de solution optimale trouvée")).
Proof.
  intros H out r. unfold r. rewrite (solve_after_build gurobi objective w w1 H).
  unfold interpret_status. rewrite bind_gets.
  change (m_status (w_model (fst (optimize gurobi w1)))) with (o_status out).
  split; [|split].
  - intros ->. simpl. auto.
  - intros ->. reflexivity.
  - intros H1 H2. destruct (o_status out); try contradiction; reflexivity.
Qed.

Lemma solve_linear_program_outcome_witness :
  snd (solve_linear_program (constant_solver INFEASIBLE 0) "cost"
         (world_of one_arc [((0, 1), 3)])) = inr None.
Proof.
  destruct (solve_linear_program_outcome (constant_solver INFEASIBLE 0) "cost"
              (world_of one_arc [((0, 1), 3)])
              (fst (build_model "cost" (world_of one_arc [((0, 1), 3)]))))
    as [H _].
  - vm_compute. reflexivity.
  - apply H. reflexivity.
Defined.

(** C3 as stated fails: on INFEASIBLE the function returns [None], and
    on UNBOUNDED it raises. *)
Lemma infeasible_returns_None_unbounded_raises :
  snd (solve_linear_program (constant_solver INFEASIBLE 0) "cost"
         (world_of one_arc [((0, 1), 3)])) = inr None /\
  snd (solve_linear_program (constant_solver UNBOUNDED 0) "cost"
         (world_of one_arc [((0, 1), 3)]))
  = inl (Exception "Pas de solution optimale trouvée").
Proof. split; vm_compute; reflexivity. Qed.

(* ================================================================== *)
(** * The objective selectors *)

(** C4, as the code has it.  The selector of the max-utilisation
    objective is the string ["max_utlilization"].  With it, on a graph
    whose capacities are not zero, the build adds one variable
    [max_utilisation] with lower bound 0 and no upper bound, adds for every
    arc [(u, v)] the constraint
    [max_utilisation >= (sum over demands of volume * x[d, u, v]) / capacity(u, v)],
    and sets the objective to minimise that variable. *)
Theorem max_utlilization_objective (w : World) :
  wf_graph (w_G w) -> NoDup (map fst (w_traffic_demand w)) ->
  capacities_nonzero (w_G w) ->
  let G := w_G w in
  let td := w_traffic_demand w in
  let r := build_model "max_utlilization" w in
  let m := w_model (fst r) in
  snd r = inr tt /\
  m_vars m = map var_of_key (flow_keys G td)
             ++ [{| VarName_of := max_utilisation_name; LB := 0; UB := GRB_INFINITY |}] /\
  m_constrs m
  = map passed (conservation_constrs G td ++ capacity_constrs G td)
    ++ map (fun e =>
              {| given := TempConstr (EVar utilisation_var) GreaterEqual
                            (EDiv (load td (fst e) (snd e))
                                  (capacity_of G (fst e) (snd e)));
                 given_name := arc_name "utilisation_" (fst e) (snd e) |})
           (G_edges G) /\
  m_objective m = Some (EVar utilisation_var, MINIMIZE).
Proof.
  intros Hwf Htd Hnz G td r m. unfold m, r.
  rewrite build_model_eq by assumption.
  rewrite (set_objective_max_run G td _ (Ctx_after_constraints w Hwf) Hnz).
  simpl. unfold utilisation_constrs. rewrite map_map. auto.
Qed.

Lemma capacities_nonzero_one_arc : capacities_nonzero one_arc.
Proof. repeat constructor. simpl. intros H. discriminate H. Qed.

Lemma max_utlilization_objective_witness :
  m_objective (w_model (fst (build_model "max_utlilization"
                               (world_of one_arc [((0, 1), 1); ((1, 0), 1)]))))
  = Some (EVar utilisation_var, MINIMIZE).
Proof.
  destruct (max_utlilization_objective (world_of one_arc [((0, 1), 1); ((1, 0), 1)]))
    as (_ & _ & _ & H).
  - exact wf_one_arc.
  - solve_NoDup.
  - exact capacities_nonzero_one_arc.
  - exact H.
Defined.

(** C4 as stated fails: the string ["max_utilization"] is not a selector
    the code knows; the call raises [ValueError], no utilisation variable
    exists and no objective is set. *)
Lemma max_utilization_is_not_recognized :
  let r := build_model "max_utilization" (world_of one_arc [((0, 1), 1); ((1, 0), 1)]) in
  snd r = inl (ValueError "Fonction objectif non reconnue") /\
  ~ In utilisation_var (m_vars (w_model (fst r))) /\
  m_objective (w_model (fst r)) = None.
Proof.
  vm_compute. split; [reflexivity|]. split; [|reflexivity].
  intros [H|[H|[]]]; discriminate H.
Qed.

(** C5, as the code has it.  With a selector that is none of ["cost"],
    ["max_utlilization"], ["avg_utilisation"], the call raises
    [ValueError] after every FlowVariable, flow-conservation constraint
    and capacity constraint has been added to the local model, and before
    the solver is invoked. *)
Theorem unrecognized_objective_raises_late
        (gurobi : Solver) (objective : string) (w : World) :
  wf_graph (w_G w) -> NoDup (map fst (w_traffic_demand w)) ->
  ~ recognized objective ->
  let G := w_G w in
  let td := w_traffic_demand w in
  let r := solve_linear_program gurobi objective w in
  let m := w_model (fst r) in
  snd r = inl (ValueError "Fonction objectif non reconnue") /\
  m_vars m = map var_of_key (flow_keys G td) /\
  m_constrs m = map passed (conservation_constrs G td ++ capacity_constrs G td) /\
  m_objective m = None /\
  m_optimize_calls m = 0%nat.
Proof.
  intros Hwf Htd Hobj G td r m. unfold m, r.
  rewrite (solve_build_raises gurobi objective w (after_constraints w)
             (ValueError "Fonction objectif non reconnue")).
  - simpl. auto.
  - rewrite build_model_eq by assumption.
    apply set_objective_unrecognized. exact Hobj.
Qed.

Lemma unrecognized_objective_raises_late_witness :
  snd (solve_linear_program (constant_solver OPTIMAL 1) "max_utilization"
         (world_of cycle3 [((0, 2), 3)]))
  = inl (ValueError "Fonction objectif non reconnue").
Proof.
  destruct (unrecognized_objective_raises_late (constant_solver OPTIMAL 1)
              "max_utilization" (world_of cycle3 [((0, 2), 3)])) as [H _].
  - exact wf_cycle3.
  - solve_NoDup.
  - unfold recognized. intros [H|[H|H]]; discriminate H.
  - exact H.
Defined.

(** C5 as stated fails: when the call raises, the model already holds
    the FlowVariable and three constraints. *)
Lemma unrecognized_objective_after_variables :
  let r := build_model "total_cost" (world_of one_arc [((0, 1), 3)]) in
  snd r = inl (ValueError "Fonction objectif non reconnue") /\
  m_vars (w_model (fst r)) = [flow_var 0 1 0 1] /\
  List.length (m_constrs (w_model (fst r))) = 3%nat.
Proof. vm_compute. auto. Qed.

(* ================================================================== *)
(** * No validation of the demands *)

Lemma build_model_succeeds (objective : string) (w : World) :
  wf_graph (w_G w) -> NoDup (map fst (w_traffic_demand w)) ->
  objective_defined (w_G w) objective ->
  exists w1, build_model objective w = (w1, inr tt) /\
             m_optimize_calls (w_model w1) = 0%nat.
Proof.
  intros Hwf Htd Hobj. rewrite build_model_eq by assumption.
  pose proof (Ctx_after_constraints w Hwf) as HC.
  destruct Hobj as [->|[[-> Hnz]|(-> & Hnz & Hne)]].
  - rewrite (set_objective_cost_run _ _ _ HC). eexists. split; reflexivity.
  - rewrite (set_objective_max_run _ _ _ HC Hnz). eexists. split; reflexivity.
  - rewrite (set_objective_avg_run _ _ _ HC Hnz Hne). eexists. split; reflexivity.
Qed.

(** C6, as the code has it.  No check is made that the origin and the
    destination of a demand are nodes of the graph.  On an input in which
    some demand refers to a node that is not in the graph, with a selector
    the code knows and no division by zero in the objective, the build
    completes without raising and the solver is invoked once. *)
Theorem no_endpoint_validation (gurobi : Solver) (objective : string) (w : World) :
  wf_graph (w_G w) -> NoDup (map fst (w_traffic_demand w)) ->
  objective_defined (w_G w) objective ->
  (exists i j d, In ((i, j), d) (w_traffic_demand w) /\
                 (~ In i (G_nodes (w_G w)) \/ ~ In j (G_nodes (w_G w)))) ->
  snd (build_model objective w) = inr tt /\
  m_optimize_calls (w_model (fst (solve_linear_program gurobi objective w))) = 1%nat.
Proof.
  intros Hwf Htd Hobj _.
  destruct (build_model_succeeds objective w Hwf Htd Hobj) as (w1 & Hb & Hcalls).
  rewrite Hb. split; [reflexivity|].
  rewrite (solve_after_build gurobi objective w w1 Hb), interpret_status_calls.
  simpl. rewrite Hcalls. reflexivity.
Qed.

Lemma no_endpoint_validation_witness :
  m_optimize_calls
    (w_model (fst (solve_linear_program (constant_solver INFEASIBLE 0) "cost"
                     (world_of one_arc [((7, 1), 3)])))) = 1%nat.
Proof.
  destruct (no_endpoint_validation (constant_solver INFEASIBLE 0) "cost"
              (world_of one_arc [((7, 1), 3)])) as [_ H].
  - exact wf_one_arc.
  - solve_NoDup.
  - left. reflexivity.
  - exists 7, 1, 3. split; [left; reflexivity|].
    left. simpl. intros [H|[H|[]]]; discriminate H.
  - exact H.
Defined.

(** C6 as stated fails: the origin 7 is not a node of the graph, yet
    the build returns normally and the solver is called. *)
Lemma missing_node_reaches_solver :
  ~ In 7 (G_nodes one_arc) /\
  snd (build_model "cost" (world_of one_arc [((7, 1), 3)])) = inr tt /\
  m_optimize_calls
    (w_model (fst (solve_linear_program (constant_solver INFEASIBLE 0) "cost"
                     (world_of one_arc [((7, 1), 3)])))) = 1%nat.
Proof.
  split; [simpl; intros [H|[H|[]]]; discriminate H|].
  split; vm_compute; reflexivity.
Qed.

(* ================================================================== *)
(** * The inputs are left as they are *)

Lemma preserves_ret {A} (a : A) : preserves_inputs (ret a).
Proof. intros w. split; reflexivity. Qed.

Lemma preserves_raise {A} (e : exn) : preserves_inputs (@raise A e).
Proof. intros w. split; reflexivity. Qed.

Lemma preserves_gets {A} (f : World -> A) : preserves_inputs (gets f).
Proof. intros w. split; reflexivity. Qed.

Lemma preserves_bind {A B} (m : M A) (k : A -> M B) :
  preserves_inputs m -> (forall a, preserves_inputs (k a)) ->
  preserves_inputs (bind m k).
Proof.
  intros Hm Hk w. unfold bind. specialize (Hm w).
  destruct (m w) as [w' [e|a]]; simpl in *; [exact Hm|].
  destruct (Hk a w') as [H1 H2]. destruct Hm as [H3 H4].
  split; congruence.
Qed.

Lemma preserves_for_each {A} (l : list A) (body : A -> M unit) :
  (forall a, preserves_inputs (body a)) -> preserves_inputs (for_each l body).
Proof.
  intros H. induction l as [|a l IH]; simpl.
  - apply preserves_ret.
  - apply preserves_bind; [apply H|intros _; exact IH].
Qed.

Lemma preserves_sum_from {A} (l : list A) (term : A -> M expr) (acc : expr) :
  (forall a, preserves_inputs (term a)) -> preserves_inputs (sum_from acc l term).
Proof.
  intros H. revert acc. induction l as [|a l IH]; intros acc; simpl.
  - apply preserves_ret.
  - apply preserves_bind; [apply H|intros t; apply IH].
Qed.

Lemma preserves_x_getitem (k : key) : preserves_inputs (x_getitem k).
Proof.
  intros w. unfold x_getitem.
  destruct (dict_get key_eqb k (w_x w)); split; reflexivity.
Qed.

Lemma preserves_G_item (u v : node) : preserves_inputs (G_item u v).
Proof.
  intros w. unfold G_item.
  destruct (G_getitem (w_G w) u v); split; reflexivity.
Qed.

Lemma preserves_py_div (e : expr) (q : Q) : preserves_inputs (py_div e q).
Proof.
  unfold py_div. destruct (Qeq_bool q 0); [apply preserves_raise|apply preserves_ret].
Qed.

Lemma preserves_primitive {A} (m : M A) :
  (forall w, w_G (fst (m w)) = w_G w) ->
  (forall w, w_traffic_demand (fst (m w)) = w_traffic_demand w) ->
  preserves_inputs m.
Proof. intros H1 H2 w. split; auto. Qed.

Ltac preserves :=
  repeat first
    [ apply preserves_ret
    | apply preserves_raise
    | apply preserves_gets
    | apply preserves_x_getitem
    | apply preserves_G_item
    | apply preserves_py_div
    | apply preserves_for_each; intros
    | apply preserves_sum_from; intros
    | apply preserves_bind; [|intros]
    | (apply preserves_primitive; reflexivity)
    | match goal with
      | |- preserves_inputs (match ?p with (_, _) => _ end) => destruct p
      | |- preserves_inputs (if ?b then _ else _) => destruct b
      end ].

Lemma preserves_load_sum (u v : node) : preserves_inputs (load_sum u v).
Proof. unfold load_sum, items, py_sum. preserves. Qed.

Lemma preserves_declare_variables : preserves_inputs declare_variables.
Proof. unfold declare_variables, items. preserves. Qed.

Lemma preserves_add_flow_conservation : preserves_inputs add_flow_conservation.
Proof. unfold add_flow_conservation, items, flow_sum, py_sum. preserves. Qed.

Lemma preserves_add_capacity_constraints : preserves_inputs add_capacity_constraints.
Proof.
  unfold add_capacity_constraints.
  preserves; try apply preserves_load_sum; preserves.
Qed.

Lemma preserves_set_objective (objective : string) :
  preserves_inputs (set_objective objective).
Proof.
  unfold set_objective, items, py_sum.
  preserves; try apply preserves_load_sum; preserves.
Qed.

Lemma preserves_interpret_status : preserves_inputs interpret_status.
Proof. unfold interpret_status. preserves. Qed.

(** C9.  [solve_linear_program] does not mutate its inputs: whatever the
    graph, the demands, the selector and the solver's answer, and whether
    the call returns or raises, the object bound to [G] (its nodes, its
    arcs, their capacity and cost) and the object bound to
    [traffic_demand] (its keys and volumes) are the same after the call
    as before. *)
Theorem solve_linear_program_preserves_inputs
        (gurobi : Solver) (objective : string) (w : World) :
  w_G (fst (solve_linear_program gurobi objective w)) = w_G w /\
  w_traffic_demand (fst (solve_linear_program gurobi objective w))
  = w_traffic_demand w.
Proof.
  revert w. change (preserves_inputs (solve_linear_program gurobi objective)).
  unfold solve_linear_program, build_model.
  preserves;
    first [ apply preserves_declare_variables
          | apply preserves_add_flow_conservation
          | apply preserves_add_capacity_constraints
          | apply preserves_set_objective
          | apply preserves_interpret_status ].
Qed.

(* ================================================================== *)
(** * The solution that is returned *)

Lemma positive_flows_from (m : Model) (x : list (key * Var)) (acc : Solution) :
  NoDup (map fst acc ++ map fst x) ->
  fold_left
    (fun sol kv =>
       if negb (Qle_bool (var_x m (snd kv)) 0)
       then dict_set key_eqb (fst kv) (var_x m (snd kv)) sol
       else sol) x acc
  = acc ++ map (fun kv => (fst kv, var_x m (snd kv)))
               (filter (fun kv => negb (Qle_bool (var_x m (snd kv)) 0)) x).
Proof.
  revert acc. induction x as [|[k v] x IH]; intros acc Hnd; simpl.
  - rewrite app_nil_r. reflexivity.
  - simpl in Hnd. destruct (negb (Qle_bool (var_x m v) 0)); simpl.
    + rewrite (dict_set_fresh key_eqb key_eqb_eq).
      * rewrite IH.
        -- rewrite <- app_assoc. reflexivity.
        -- rewrite map_app, <- app_assoc. exact Hnd.
      * apply NoDup_remove_2 in Hnd. intros H. apply Hnd.
        apply in_or_app. left; exact H.
    + apply IH. apply NoDup_remove_1 in Hnd. exact Hnd.
Qed.

Lemma positive_flows_eq (m : Model) (x : list (key * Var)) :
  NoDup (map fst x) ->
  positive_flows m x
  = map (fun kv => (fst kv, var_x m (snd kv)))
        (filter (fun kv => negb (Qle_bool (var_x m (snd kv)) 0)) x).
Proof. intros H. unfold positive_flows. rewrite positive_flows_from; auto. Qed.

Lemma positive_iff (q : Q) : negb (Qle_bool q 0) = true <-> (0 < q)%Q.
Proof.
  rewrite negb_true_iff. split.
  - intros H. apply Qnot_le_lt. intros Hle.
    apply Qle_bool_iff in Hle. congruence.
  - intros H. destruct (Qle_bool q 0) eqn:E; [|reflexivity].
    apply Qle_bool_iff in E. exfalso. exact (Qlt_not_le _ _ H E).
Qed.

Lemma solve_optimal (gurobi : Solver) (objective : string) (w w1 : World) :
  build_model objective w = (w1, inr tt) ->
  o_status (gurobi (w_model w1)) = OPTIMAL ->
  snd (solve_linear_program gurobi objective w)
  = inr (Some (positive_flows (w_model (fst (optimize gurobi w1))) (w_x w1),
               o_ObjVal (gurobi (w_model w1)))).
Proof.
  intros Hb Hst. rewrite (solve_after_build gurobi objective w w1 Hb).
  unfold interpret_status. rewrite bind_gets.
  change (m_status (w_model (fst (optimize gurobi w1))))
    with (o_status (gurobi (w_model w1))).
  rewrite Hst. reflexivity.
Qed.

(** C8, as the code has it.  When the build has succeeded and the solver
    reports OPTIMAL, the call returns the objective value together with a
    dict that holds exactly the keys [(i, j, u, v)] of the FlowVariables
    whose value is strictly greater than zero, each mapped to that value:
    the comparison is against zero itself. *)
Theorem optimal_solution_positive_flows
        (gurobi : Solver) (objective : string) (w w1 : World) :
  wf_graph (w_G w) -> NoDup (map fst (w_traffic_demand w)) ->
  build_model objective w = (w1, inr tt) ->
  o_status (gurobi (w_model w1)) = OPTIMAL ->
  let out := gurobi (w_model w1) in
  exists sol,
    snd (solve_linear_program gurobi objective w) = inr (Some (sol, o_ObjVal out)) /\
    NoDup (map fst sol) /\
    forall i j u v q,
      In ((i, j, u, v), q) sol <->
      In (i, j, u, v) (flow_keys (w_G w) (w_traffic_demand w)) /\
      q = o_x out (flow_var i j u v) /\ (0 < q)%Q.
Proof.
  intros Hwf Htd Hb Hst out.
  destruct (build_model_contents objective w Hwf Htd) as (_ & _ & Hx & _).
  rewrite Hb in Hx. simpl in Hx.
  pose proof (NoDup_flow_keys _ _ Hwf Htd) as Hnd.
  set (keys := flow_keys (w_G w) (w_traffic_demand w)) in *.
  assert (Hkeys : map fst (w_x w1) = keys).
  { rewrite Hx, map_map. simpl. apply map_id. }
  eexists. split; [apply (solve_optimal gurobi objective w w1 Hb Hst)|].
  rewrite positive_flows_eq by (rewrite Hkeys; exact Hnd).
  set (m := w_model (fst (optimize gurobi w1))).
  assert (Hval : forall v, var_x m v = o_x out v) by reflexivity.
  split.
  - rewrite map_map. simpl.
    apply dict_filter_keys. rewrite Hkeys. exact Hnd.
  - intros i j u v q. rewrite in_map_iff. split.
    + intros [[k var] [E Hin]]. simpl in E. injection E as -> <-.
      apply filter_In in Hin. destruct Hin as [Hin Hpos]. simpl in Hpos.
      rewrite Hx in Hin. apply in_map_iff in Hin. destruct Hin as [k [E Hk]].
      injection E as -> <-. rewrite Hval in *. simpl.
      split; [exact Hk|]. split; [reflexivity|]. apply positive_iff. exact Hpos.
    + intros (Hk & -> & Hpos). exists ((i, j, u, v), flow_var i j u v). simpl.
      rewrite Hval. split; [reflexivity|]. apply filter_In. split.
      * rewrite Hx. apply in_map_iff. exists (i, j, u, v). auto.
      * simpl. rewrite Hval. apply positive_iff. exact Hpos.
Qed.

Lemma optimal_solution_positive_flows_witness :
  exists sol,
    snd (solve_linear_program (constant_solver OPTIMAL 1) "cost"
           (world_of one_arc [((0, 1), 3)])) = inr (Some (sol, 0%Q)) /\
    NoDup (map fst sol).
Proof.
  destruct (optimal_solution_positive_flows (constant_solver OPTIMAL 1) "cost"
              (world_of one_arc [((0, 1), 3)])
              (fst (build_model "cost" (world_of one_arc [((0, 1), 3)]))))
    as (sol & H1 & H2 & _).
  - exact wf_one_arc.
  - solve_NoDup.
  - vm_compute. reflexivity.
  - reflexivity.
  - exists sol. split; [exact H1|exact H2].
Defined.

(** C8 as stated fails: no positive threshold describes the code.  For
    every threshold [eps > 0], a FlowVariable of value [eps / 2] is in the
    returned solution although it does not exceed [eps]. *)
Lemma no_positive_threshold :
  ~ (exists eps : Q, (0 < eps)%Q /\
       forall (q : Q) (sol : Solution) (obj : Q),
         snd (solve_linear_program (constant_solver OPTIMAL q) "cost"
                (world_of one_arc [((0, 1), 3)])) = inr (Some (sol, obj)) ->
         (In (0, 1, 0, 1) (map fst sol) <-> (eps < q)%Q)).
Proof.
  intros [eps [Hpos H]].
  assert (Hb : build_model "cost" (world_of one_arc [((0, 1), 3)])
               = (fst (build_model "cost" (world_of one_arc [((0, 1), 3)])), inr tt))
    by (vm_compute; reflexivity).
  pose proof (solve_optimal (constant_solver OPTIMAL (eps / 2)) "cost" _ _ Hb eq_refl)
    as Hs.
  change (w_x (fst (build_model "cost" (world_of one_arc [((0, 1), 3)]))))
    with [((0, 1, 0, 1), flow_var 0 1 0 1)] in Hs.
  apply H in Hs. clear H.
  assert (Hhalf : (0 < eps / 2)%Q).
  { apply Qlt_shift_div_l; [reflexivity|]. rewrite Qmult_0_l. exact Hpos. }
  unfold positive_flows in Hs. simpl fold_left in Hs.
  change (var_x _ (flow_var 0 1 0 1)) with (eps / 2)%Q in Hs.
  rewrite (proj2 (positive_iff (eps / 2)) Hhalf) in Hs. simpl in Hs.
  assert (Hlt : (eps < eps / 2)%Q) by (apply Hs; left; reflexivity).
  apply Qlt_shift_div_r in Hlt; [|reflexivity].
  apply (Qlt_irrefl eps).
  apply Qlt_trans with (eps * 2)%Q; [|exact Hlt].
  rewrite <- (Qmult_1_r eps) at 1.
  rewrite Qmult_lt_l by exact Hpos. reflexivity.
Qed.

(* ================================================================== *)
(** * Summing the conservation constraints of one demand *)

Lemma Qsum_ext {A} (f g : A -> Q) (l : list A) :
  (forall a, In a l -> (f a == g a)%Q) -> (Qsum f l == Qsum g l)%Q.
Proof.
  induction l as [|a l IH]; simpl; intros H; [reflexivity|].
  rewrite (H a (or_introl eq_refl)), IH; [reflexivity|].
  intros b Hb. apply H. right; exact Hb.
Qed.

Lemma Qsum_plus {A} (f g : A -> Q) (l : list A) :
  (Qsum (fun a => f a + g a) l == Qsum f l + Qsum g l)%Q.
Proof.
  induction l as [|a l IH]; simpl; [reflexivity|]. rewrite IH. ring.
Qed.

Lemma Qsum_minus {A} (f g : A -> Q) (l : list A) :
  (Qsum (fun a => f a - g a) l == Qsum f l - Qsum g l)%Q.
Proof.
  induction l as [|a l IH]; simpl; [reflexivity|]. rewrite IH. ring.
Qed.

Lemma Qsum_zero {A} (l : list A) : (Qsum (fun _ => 0) l == 0)%Q.
Proof. induction l as [|a l IH]; simpl; [reflexivity|]. rewrite IH. ring. Qed.

Lemma Qsum_map {A B} (f : B -> Q) (g : A -> B) (l : list A) :
  Qsum f (map g l) = Qsum (fun a => f (g a)) l.
Proof. induction l as [|a l IH]; simpl; [reflexivity|]. rewrite IH. reflexivity. Qed.

(** A sum that picks the term of one node. *)
Lemma Qsum_at (g : Z -> Q) (i : Z) (l : list Z) :
  NoDup l ->
  (Qsum (fun n => if n =? i then g n else 0) l
   == if existsb (Z.eqb i) l then g i else 0)%Q.
Proof.
  intros Hnd. induction Hnd as [|n l Hn Hnd IH]; simpl; [reflexivity|].
  rewrite IH. rewrite (Z.eqb_sym i n).
  destruct (Z.eqb_spec n i) as [->|Hne]; simpl; [|ring].
  destruct (existsb (Z.eqb i) l) eqn:E; [|ring].
  exfalso. apply existsb_exists in E. destruct E as [k [Hk E]].
  apply Z.eqb_eq in E. subst k. contradiction.
Qed.

(** Grouping the terms of a sum by a node-valued key. *)
Lemma Qsum_grouped {A} (f : A -> Q) (h : A -> Z) (nodes : list Z) (l : list A) :
  NoDup nodes -> (forall a, In a l -> In (h a) nodes) ->
  (Qsum (fun n => Qsum f (filter (fun a => h a =? n) l)) nodes == Qsum f l)%Q.
Proof.
  intros Hnd. induction l as [|a l IH]; intros Hin; simpl.
  - apply Qsum_zero.
  - rewrite (Qsum_ext _ (fun n => (if n =? h a then f a else 0)
                                  + Qsum f (filter (fun a => h a =? n) l))%Q).
    + rewrite Qsum_plus, (Qsum_at (fun _ => f a) (h a) nodes Hnd).
      rewrite IH by (intros b Hb; apply Hin; right; exact Hb).
      destruct (existsb (Z.eqb (h a)) nodes) eqn:E; [reflexivity|].
      exfalso. assert (Hex : existsb (Z.eqb (h a)) nodes = true).
      { apply existsb_exists. exists (h a). split.
        - apply Hin. left; reflexivity.
        - apply Z.eqb_refl. }
      congruence.
    + intros n _. rewrite (Z.eqb_sym n (h a)).
      destruct (h a =? n); simpl; ring.
Qed.

Lemma eval_fold_EAdd (val : Var -> Q) (es : list expr) (acc : expr) :
  (eval val (fold_left EAdd es acc) == eval val acc + Qsum (eval val) es)%Q.
Proof.
  revert acc. induction es as [|e es IH]; intros acc; simpl.
  - ring.
  - rewrite IH. simpl. ring.
Qed.

Lemma eval_flows (val : Var -> Q) (i j : Z) (edges : list arc) :
  (eval val (flows i j edges)
   == Qsum (fun e => val (flow_var i j (fst e) (snd e))) edges)%Q.
Proof.
  unfold flows, sum_expr. rewrite eval_fold_EAdd, Qsum_map. simpl. ring.
Qed.

Lemma eval_inflow (val : Var -> Q) (G : DiGraph) (i j n : Z) :
  (eval val (inflow G i j n)
   == Qsum (fun e => val (flow_var i j (fst (fst e)) (snd (fst e))))
           (filter (fun e => snd (fst e) =? n) (g_adj G)))%Q.
Proof. unfold inflow, G_in_edges. rewrite eval_flows, Qsum_map. reflexivity. Qed.

Lemma eval_outflow (val : Var -> Q) (G : DiGraph) (i j n : Z) :
  (eval val (outflow G i j n)
   == Qsum (fun e => val (flow_var i j (fst (fst e)) (snd (fst e))))
           (filter (fun e => fst (fst e) =? n) (g_adj G)))%Q.
Proof. unfold outflow, G_out_edges. rewrite eval_flows, Qsum_map. reflexivity. Qed.

(** Over all nodes, what enters equals what leaves. *)
Lemma net_inflow_sums_to_zero (val : Var -> Q) (G : DiGraph) (i j : Z) :
  wf_graph G ->
  (Qsum (fun n => eval val (inflow G i j n) - eval val (outflow G i j n)) (G_nodes G)
   == 0)%Q.
Proof.
  intros (Hnd & _ & Hends).
  set (f := fun e : arc * EdgeAttr => val (flow_var i j (fst (fst e)) (snd (fst e)))).
  rewrite Qsum_minus.
  rewrite (Qsum_ext _ (fun n => Qsum f (filter (fun e => snd (fst e) =? n) (g_adj G))))
    by (intros n _; apply eval_inflow).
  rewrite (Qsum_ext (fun n => eval val (outflow G i j n))
                    (fun n => Qsum f (filter (fun e => fst (fst e) =? n) (g_adj G))))
    by (intros n _; apply eval_outflow).
  unfold G_nodes.
  rewrite (Qsum_grouped f (fun e => snd (fst e)) (g_nodes G) (g_adj G) Hnd).
  - rewrite (Qsum_grouped f (fun e => fst (fst e)) (g_nodes G) (g_adj G) Hnd).
    + ring.
    + intros [[u v] a] Hin. simpl. apply (Hends u v).
      apply in_map_iff. exists ((u, v), a). auto.
  - intros [[u v] a] Hin. simpl. apply (Hends u v).
    apply in_map_iff. exists ((u, v), a). auto.
Qed.

Lemma no_arc_at_missing_node (G : DiGraph) (i : Z) :
  wf_graph G -> ~ In i (g_nodes G) ->
  G_out_edges G i = [] /\ G_in_edges G i = [].
Proof.
  intros (_ & _ & Hends) Hi. split.
  - destruct (G_out_edges G i) as [|[u v] l] eqn:E; [reflexivity|].
    exfalso. assert (H : In (u, v) (G_out_edges G i)) by (rewrite E; left; reflexivity).
    apply in_G_out_edges in H. destruct H as [H Hu]. simpl in Hu. subst u.
    apply Hi. apply (Hends i v H).
  - destruct (G_in_edges G i) as [|[u v] l] eqn:E; [reflexivity|].
    exfalso. assert (H : In (u, v) (G_in_edges G i)) by (rewrite E; left; reflexivity).
    apply in_G_in_edges in H. destruct H as [H Hv]. simpl in Hv. subst v.
    apply Hi. apply (Hends u i H).
Qed.

Lemma sum_lhs_conservation (val : Var -> Q) (G : DiGraph) (i j : Z) (nodes : list Z) :
  (sum_lhs val (map (conservation G i j) nodes)
   == Qsum (fun n => eval val (inflow G i j n) - eval val (outflow G i j n)) nodes
      + 2 * Qsum (fun n => if n =? i
                           then eval val (outflow G i j n) - eval val (inflow G i j n)
                           else 0) nodes)%Q.
Proof.
  induction nodes as [|n nodes IH]; simpl; [ring|].
  rewrite IH. unfold conservation.
  destruct (n =? i); [simpl; ring|]. destruct (n =? j); simpl; ring.
Qed.

(** C7, as the code has it.  For every well-formed graph and every
    demand [(i, j)], the conservation comparisons of that demand are
    given to the model, one per node; over all nodes, inflow minus outflow
    sums to zero identically.  The left-hand sides as the code writes them
    (the origin's is outflow minus inflow) sum to twice the net outflow of
    the origin. *)
Theorem conservation_lhs_sum (objective : string) (w : World) (i j d : Z) :
  wf_graph (w_G w) -> NoDup (map fst (w_traffic_demand w)) ->
  In ((i, j), d) (w_traffic_demand w) ->
  let G := w_G w in
  let m := w_model (fst (build_model objective w)) in
  let block := map (conservation G i j) (G_nodes G) in
  (exists pre post, m_constrs m = pre ++ map passed block ++ post) /\
  forall val,
    (Qsum (fun n => eval val (inflow G i j n) - eval val (outflow G i j n)) (G_nodes G)
     == 0)%Q /\
    (sum_lhs val block
     == 2 * (eval val (outflow G i j i) - eval val (inflow G i j i)))%Q.
Proof.
  intros Hwf Htd Hd G m block. split.
  - destruct (build_model_contents objective w Hwf Htd)
      as (vs & cs & _ & _ & Hc & _ & _ & Hcs & _).
    unfold m. rewrite Hc. unfold conservation_constrs.
    destruct (in_split _ _ Hd) as (t1 & t2 & ->).
    rewrite flat_map_app. cbn [flat_map fst snd].
    rewrite !map_app, <- !app_assoc. eauto.
  - intros val. pose proof (net_inflow_sums_to_zero val G i j Hwf) as Hzero.
    split; [exact Hzero|].
    unfold block. rewrite sum_lhs_conservation, Hzero.
    rewrite (Qsum_at (fun n => eval val (outflow G i j n) - eval val (inflow G i j n))%Q
                     i (G_nodes G) (proj1 Hwf)).
    destruct (existsb (Z.eqb i) (G_nodes G)) eqn:E; [ring|].
    assert (Hi : ~ In i (g_nodes G)).
    { intros Hin. assert (existsb (Z.eqb i) (G_nodes G) = true); [|congruence].
      apply existsb_exists. exists i. split; [exact Hin|apply Z.eqb_refl]. }
    destruct (no_arc_at_missing_node G i Hwf Hi) as [Hout Hin].
    unfold outflow, inflow. rewrite Hout, Hin. simpl. ring.
Qed.

Lemma conservation_lhs_sum_witness :
  Qeq (sum_lhs (fun _ => 1%Q) (map (conservation cycle3 0 2) (G_nodes cycle3)))
      (2 * (eval (fun _ => 1%Q) (outflow cycle3 0 2 0)
            - eval (fun _ => 1%Q) (inflow cycle3 0 2 0))%Q)%Q.
Proof.
  destruct (conservation_lhs_sum "cost" (world_of cycle3 [((0, 2), 3)]) 0 2 3)
    as [_ H].
  - exact wf_cycle3.
  - solve_NoDup.
  - left. reflexivity.
  - exact (proj2 (H (fun _ => 1%Q))).
Defined.

(** C7 as stated fails: on the single arc 0 -> 1 with the demand (0, 1),
    the equality constraints of the model are the two conservation
    constraints, whose left-hand sides are both [x_0_1_0_1]; with that
    variable at 1 they sum to 2, not 0. *)
Lemma conservation_lhs_sum_not_zero :
  let block := map (conservation one_arc 0 1) (G_nodes one_arc) in
  equality_constrs
    (w_model (fst (build_model "cost" (world_of one_arc [((0, 1), 3)]))))
  = map (fun c => {| given := TempConstr (c_lhs c) Equal (c_rhs c);
                     given_name := c_name c |}) block /\
  ~ (forall val : Var -> Q, Qeq (sum_lhs val block) 0%Q).
Proof.
  split; [vm_compute; reflexivity|].
  intros H. specialize (H (fun _ => 1%Q)). vm_compute in H. discriminate H.
Qed.

(* ================================================================== *)
(** * Reading back a saved instance *)

Lemma py_str_not_header (n : Z) :
  (py_str n =? "Source")%string = false /\
  (py_str n =? "entry")%string = false /\
  (py_str n =? "Subset S")%string = false.
Proof.
  unfold py_str. destruct (Z.to_int n) as [d|d]; destruct d; auto.
Qed.

Section ReadBack.
Variable str_num : Q -> string.
Variable py_float : string -> option Q.

Lemma arc_rows_shape (G : DiGraph) (edges : list arc) (rows : list Row) :
  arc_rows str_num G edges = inr rows -> Forall arc_row rows.
Proof.
  revert rows. induction edges as [|[u v] edges IH]; simpl; intros rows H.
  - injection H as <-. constructor.
  - destruct (G_getitem G u v) as [a|]; [|discriminate].
    destruct (arc_rows str_num G edges) as [e|rows']; simpl in H; [discriminate|].
    injection H as <-. constructor; [|apply IH; reflexivity].
    exists u, v, (str_num (capacity a)), (str_num (cost a)). reflexivity.
Qed.

Lemma to_int_cases (s : string) :
  (exists msg, to_int s = inl (ValueError msg)) \/ exists z, to_int s = inr z.
Proof. unfold to_int. destruct (py_int s); eauto. Qed.

Lemma to_float_cases (s : string) :
  (exists msg, to_float py_float s = inl (ValueError msg)) \/
  exists q, to_float py_float s = inr q.
Proof. unfold to_float. destruct (py_float s); eauto. Qed.

Lemma read_arc_cases (row : Row) (st : ReadState) :
  arc_row row ->
  (exists msg, read_arc py_float row st = inl (ValueError msg)) \/
  (exists st', read_arc py_float row st = inr st' /\ r_section st' = r_section st).
Proof.
  intros (u & v & a & b & ->). unfold read_arc. simpl.
  destruct (to_int_cases (py_str u)) as [[msg E]|[z E]]; rewrite E; simpl; [eauto|].
  destruct (to_int_cases (py_str v)) as [[msg E']|[z' E']]; rewrite E'; simpl; [eauto|].
  destruct (to_float_cases a) as [[msg Ea]|[q Ea]]; rewrite Ea; simpl; [eauto|].
  destruct (to_float_cases b) as [[msg Eb]|[q' Eb]]; rewrite Eb; simpl; [eauto|].
  right. eexists. split; reflexivity.
Qed.

(** The arc records are read, or raise [ValueError]; the section stays [arcs]. *)
Lemma read_rows_arcs (rows rest : list Row) (st : ReadState) :
  Forall arc_row rows -> r_section st = arcs ->
  (exists msg, read_rows py_float (rows ++ rest) st = inl (ValueError msg)) \/
  (exists st', r_section st' = arcs /\
               read_rows py_float (rows ++ rest) st = read_rows py_float rest st').
Proof.
  intros H. revert st. induction H as [|row rows Hrow _ IH]; intros st Hsec.
  - right. exists st. split; [exact Hsec|reflexivity].
  - pose proof Hrow as (u & v & a & b & E).
    destruct (py_str_not_header u) as (H1 & H2 & H3).
    destruct (read_arc_cases row st Hrow) as [[msg Ha]|[st' [Ha Hsec']]];
      subst row; simpl; rewrite H1, H2, H3, Hsec, Ha; simpl.
    + left. eauto.
    + apply IH. congruence.
Qed.

(** The row of the second header is parsed as a demand. *)
Lemma read_rows_entry (rest : list Row) (st : ReadState) :
  r_section st = arcs ->
  read_rows py_float (["entry"; "Target"; "Traffic Demand"]%string :: rest) st
  = inl (ValueError "invalid literal for int() with base 10: 'Traffic Demand'").
Proof. intros H. reflexivity. Qed.

(** C10.  Reading back a file written by [save_to_csv] never returns
    the instance: for every graph, subset and demands, [read_instance]
    on the rows that [save_to_csv] wrote raises [ValueError].  The row
    of the header ['entry', 'Target', 'Traffic Demand'] switches the
    section to traffic and is then parsed as a demand record. *)
Theorem read_instance_after_save_raises
        (G : DiGraph) (S : list Z) (td : Demands) (rows : list Row) :
  save_to_csv str_num G S td = inr rows ->
  exists msg, read_instance py_float rows = inl (ValueError msg).
Proof.
  unfold save_to_csv. intros H.
  destruct (arc_rows str_num G (G_edges G)) as [e|arcrows] eqn:E; simpl in H;
    [discriminate|].
  injection H as <-. apply arc_rows_shape in E.
  unfold read_instance.
  match goal with
  | |- context [read_rows py_float (?h :: arcrows ++ ?rest) ?st] =>
      change (read_rows py_float (h :: arcrows ++ rest) st)
        with (read_rows py_float (arcrows ++ rest) st);
      destruct (read_rows_arcs arcrows rest st E eq_refl)
        as [[msg Hr]|[st' [Hsec Hr]]]; rewrite Hr
  end.
  - exists msg. reflexivity.
  - eexists.
    match goal with
    | |- ebind ?t _ = _ =>
        assert (Ht : t = inl (ValueError
                   "invalid literal for int() with base 10: 'Traffic Demand'"))
          by exact (read_rows_entry
                      (demand_rows td ++ [[]; ["Subset S"%string]; map py_str S])
                      st' Hsec);
        rewrite Ht
    end.
    reflexivity.
Qed.
End ReadBack.

Lemma read_instance_after_save_raises_witness :
  exists msg,
    read_instance float_of_literal
      [["Source"; "Target"; "Capacity"; "Cost"]; ["0"; "1"; "2"; "5"]; [];
       ["entry"; "Target"; "Traffic Demand"]; ["0"; "1"; "3"]; [];
       ["Subset S"]; ["0"; "1"]]%string
    = inl (ValueError msg).
Proof.
  apply (read_instance_after_save_raises str_integral float_of_literal
           one_arc [0; 1] [((0, 1), 3)]).
  vm_compute. reflexivity.
Defined.

(** On the single-arc instance the arc record is read, then the header of
    the demand section is parsed as a demand. *)
Example read_instance_one_arc :
  ebind (save_to_csv str_integral one_arc [0; 1] [((0, 1), 3)])
        (read_instance float_of_literal)
  = inl (ValueError "invalid literal for int() with base 10: 'Traffic Demand'").
Proof. vm_compute. reflexivity. Qed.

(* ================================================================== *)
(** * How the build ends *)

Lemma py_div_eq (e : expr) (q : Q) (w : World) :
  py_div e q w
  = if Qeq_bool q 0 then (w, inl ZeroDivisionError) else (w, inr (EDiv e q)).
Proof. unfold py_div. destruct (Qeq_bool q 0); reflexivity. Qed.

(** A loop that adds one constraint per item and raises at the first
    item that is [bad]. *)
Lemma for_each_until {A} (P : World -> Prop) (bad : A -> bool) (f : A -> Constr)
      (e0 : exn) (l : list A) (body : A -> M unit) :
  (forall a w, In a l -> P w ->
     body a w = if bad a then (w, inl e0) else (add_constrs [f a] w, inr tt)) ->
  (forall cs w, P w -> P (add_constrs cs w)) ->
  forall w, P w ->
    snd (for_each l body w) = if existsb bad l then inl e0 else inr tt.
Proof.
  induction l as [|a l IH]; intros Hbody Hinv w HP; simpl; [reflexivity|].
  pose proof (Hbody a w (or_introl eq_refl) HP) as Ha.
  destruct (bad a); simpl.
  - rewrite (bind_raise _ _ _ _ _ Ha). reflexivity.
  - rewrite (bind_ok _ _ _ _ _ Ha). apply IH.
    + intros b w' Hb. apply Hbody. right; exact Hb.
    + exact Hinv.
    + apply Hinv, HP.
Qed.

(** A sum whose terms raise at the first item that is [bad]. *)
Lemma py_sum_until {A} (bad : A -> bool) (g : A -> expr) (e0 : exn)
      (l : list A) (term : A -> M expr) (w : World) :
  (forall a, In a l ->
     term a w = if bad a then (w, inl e0) else (w, inr (g a))) ->
  py_sum l term w
  = if existsb bad l then (w, inl e0) else (w, inr (sum_expr (map g l))).
Proof.
  unfold py_sum, sum_expr. generalize (ENum 0) as acc.
  induction l as [|a l IH]; intros acc H; simpl; [reflexivity|].
  pose proof (H a (or_introl eq_refl)) as Ha.
  destruct (bad a); simpl.
  - apply bind_raise. exact Ha.
  - rewrite (bind_ok _ _ _ _ _ Ha). apply IH.
    intros b Hb. apply H. right; exact Hb.
Qed.

Lemma dict_get_unique {K V} (eqb : K -> K -> bool)
      (eqb_eq : forall a b, eqb a b = true <-> a = b)
      (k : K) (v : V) (d : list (K * V)) :
  NoDup (map fst d) -> In (k, v) d -> dict_get eqb k d = Some v.
Proof.
  intros Hnd Hin.
  destruct (dict_get eqb k d) as [v'|] eqn:E.
  - apply (dict_get_In eqb eqb_eq) in E.
    induction d as [|[k0 v0] d IH]; [destruct Hin|].
    simpl in Hnd. apply NoDup_cons_iff in Hnd. destruct Hnd as [Hk Hnd].
    assert (Hkey : forall x, In (k0, x) d -> False).
    { intros x Hx. apply Hk. apply in_map_iff. exists (k0, x). auto. }
    destruct Hin as [Hin|Hin], E as [E|E].
    + congruence.
    + injection Hin as -> ->. destruct (Hkey _ E).
    + injection E as -> ->. destruct (Hkey _ Hin).
    + exact (IH Hnd Hin E).
  - apply (dict_get_None eqb eqb_eq) in E. exfalso. apply E.
    apply in_map_iff. exists (k, v). auto.
Qed.

(** Along [G.edges], some capacity is zero exactly when the graph has one. *)
Lemma zero_capacity_on_edges (G : DiGraph) :
  wf_graph G ->
  existsb (fun e => Qeq_bool (capacity_of G (fst e) (snd e)) 0) (G_edges G)
  = has_zero_capacity G.
Proof.
  intros Hwf. pose proof Hwf as (_ & Hkeys & _).
  unfold has_zero_capacity, zero_capacity.
  apply eq_true_iff_eq. rewrite !existsb_exists. split.
  - intros [[u v] [He Hz]]. apply (in_G_edges G _ Hwf) in He.
    destruct (G_getitem_some G u v He) as [a Ha].
    exists ((u, v), a). split.
    + apply (dict_get_In arc_eqb arc_eqb_eq). exact Ha.
    + unfold capacity_of in Hz. simpl in Hz. rewrite Ha in Hz. exact Hz.
  - intros [[[u v] a] [Hin Hz]]. exists (u, v). split.
    + apply (in_G_edges G _ Hwf). apply in_map_iff. exists ((u, v), a). auto.
    + unfold capacity_of, G_getitem. simpl.
      rewrite (dict_get_unique arc_eqb arc_eqb_eq (u, v) a _ Hkeys Hin). exact Hz.
Qed.

Lemma utilisation_body_eq (G : DiGraph) (td : Demands) (w : World) (u v : Z) :
  Ctx G td w -> In (u, v) (map fst (g_adj G)) ->
  (load <- load_sum u v ;;
   a <- G_item u v ;;
   ratio <- py_div load (capacity a) ;;
   addConstr (compare (EVar utilisation_var) GreaterEqual ratio)
               (arc_name "utilisation_" u v)) w
  = if Qeq_bool (capacity_of G u v) 0
    then (w, inl ZeroDivisionError)
    else (add_constrs [utilisation_constr G td (u, v)] w, inr tt).
Proof.
  intros HC He.
  rewrite (bind_ok _ _ _ _ _ (load_sum_run G td w u v HC He)).
  destruct (G_item_run G w u v (proj1 HC) He) as (a & Ea & Hcap & _).
  rewrite (bind_ok _ _ _ _ _ Ea). rewrite Hcap.
  unfold bind. rewrite py_div_eq.
  destruct (Qeq_bool (capacity_of G u v) 0); reflexivity.
Qed.

Lemma ratio_term_eq (G : DiGraph) (td : Demands) (w : World) (u v : Z) :
  Ctx G td w -> In (u, v) (map fst (g_adj G)) ->
  (load <- load_sum u v ;; a <- G_item u v ;; py_div load (capacity a)) w
  = if Qeq_bool (capacity_of G u v) 0
    then (w, inl ZeroDivisionError)
    else (w, inr (EDiv (load td u v) (capacity_of G u v))).
Proof.
  intros HC He.
  rewrite (bind_ok _ _ _ _ _ (load_sum_run G td w u v HC He)).
  destruct (G_item_run G w u v (proj1 HC) He) as (a & Ea & Hcap & _).
  rewrite (bind_ok _ _ _ _ _ Ea). rewrite Hcap. apply py_div_eq.
Qed.

Lemma number_of_edges_zero (G : DiGraph) :
  Qeq_bool (inject_Z (G_number_of_edges G)) 0 = (G_number_of_edges G =? 0).
Proof.
  unfold Qeq_bool. simpl. rewrite Z.mul_1_r.
  destruct (G_number_of_edges G); reflexivity.
Qed.

Lemma set_objective_result (G : DiGraph) (td : Demands) (w : World) (objective : string) :
  wf_graph G -> Ctx G td w ->
  snd (set_objective objective w) = build_result G objective.
Proof.
  intros Hwf HC. unfold build_result.
  destruct (String.eqb_spec objective "cost") as [->|Hc].
  { rewrite (set_objective_cost_run G td w HC). reflexivity. }
  destruct (String.eqb_spec objective "max_utlilization") as [->|Hm].
  { rewrite set_objective_max_body.
    rewrite (bind_ok _ _ w (add_vars [utilisation_var] w) utilisation_var) by reflexivity.
    rewrite bind_gets. change (w_G (add_vars [utilisation_var] w)) with (w_G w).
    rewrite (proj1 HC). rewrite <- (zero_capacity_on_edges G Hwf).
    match goal with
    | |- context [for_each (G_edges G) ?body] =>
        assert (Hloop :
          snd (for_each (G_edges G) body (add_vars [utilisation_var] w))
          = if existsb (fun e => Qeq_bool (capacity_of G (fst e) (snd e)) 0) (G_edges G)
            then inl ZeroDivisionError else inr tt)
    end.
    { apply (for_each_until (Ctx G td) _ (utilisation_constr G td)).
      - intros [u v] w0 He HC0.
        apply (utilisation_body_eq G td w0 u v HC0 (G_edges_in_adj G _ He)).
      - intros cs w0 H0. exact H0.
      - exact HC. }
    unfold bind at 1.
    destruct (for_each (G_edges G) _ (add_vars [utilisation_var] w)) as [w1 [e|[]]];
      simpl in Hloop; rewrite <- Hloop; reflexivity. }
  destruct (String.eqb_spec objective "avg_utilisation") as [->|Ha].
  { rewrite set_objective_avg_body. rewrite bind_gets, (proj1 HC).
    rewrite <- (zero_capacity_on_edges G Hwf).
    match goal with
    | |- context [py_sum (G_edges G) ?term] =>
        assert (Hsum :
          py_sum (G_edges G) term w
          = if existsb (fun e => Qeq_bool (capacity_of G (fst e) (snd e)) 0) (G_edges G)
            then (w, inl ZeroDivisionError)
            else (w, inr (sum_expr
                            (map (fun e => EDiv (load td (fst e) (snd e))
                                                (capacity_of G (fst e) (snd e)))
                                 (G_edges G)))))
    end.
    { apply py_sum_until. intros [u v] He.
      apply (ratio_term_eq G td w u v HC (G_edges_in_adj G _ He)). }
    unfold bind at 1. rewrite Hsum.
    match type of Hsum with _ = if ?b then _ else _ => destruct b end;
      [reflexivity|]. simpl orb.
    rewrite bind_gets, (proj1 HC). unfold bind. rewrite py_div_eq.
    rewrite number_of_edges_zero.
    destruct (G_number_of_edges G =? 0); reflexivity. }
  rewrite set_objective_unrecognized; [reflexivity|].
  unfold recognized. tauto.
Qed.

Lemma build_model_ends (objective : string) (w : World) :
  wf_graph (w_G w) -> NoDup (map fst (w_traffic_demand w)) ->
  snd (build_model objective w) = build_result (w_G w) objective.
Proof.
  intros Hwf Htd. rewrite build_model_eq by assumption.
  apply (set_objective_result (w_G w) (w_traffic_demand w)); [exact Hwf|].
  apply Ctx_after_constraints. exact Hwf.
Qed.

(** X1.  Whether the build of [solve_linear_program] completes is decided
    by the selector and the capacities alone: ["cost"] always completes;
    ["max_utlilization"] raises [ZeroDivisionError] exactly when some arc
    has capacity zero; ["avg_utilisation"] raises [ZeroDivisionError]
    exactly when some arc has capacity zero or the graph has no arc; any
    other selector raises [ValueError]. *)
Theorem build_model_result (objective : string) (w : World) :
  wf_graph (w_G w) -> NoDup (map fst (w_traffic_demand w)) ->
  snd (build_model objective w) = build_result (w_G w) objective.
Proof. exact (build_model_ends objective w). Qed.

Lemma build_model_result_witness :
  snd (build_model "avg_utilisation"
         (world_of {| g_nodes := [0; 1];
                      g_adj := [((0, 1), {| capacity := 0; cost := 1 |})] |}
                   [((0, 1), 3)]))
  = inl ZeroDivisionError.
Proof.
  rewrite build_model_result.
  - reflexivity.
  - split; [solve_NoDup|]. split; [solve_NoDup|].
    intros u v [H|[]]; injection H as <- <-; simpl; auto.
  - solve_NoDup.
Defined.

(* ================================================================== *)
(** * The solver is called after the build, once *)

Lemma interpret_status_outcome (w : World) :
  m_outcome (w_model (fst (interpret_status w))) = m_outcome (w_model w).
Proof.
  unfold interpret_status. rewrite bind_gets.
  destruct (m_status (w_model w)); reflexivity.
Qed.

(** X2.  [model.optimize()] is reached only when the build has completed,
    and then exactly once, on the model that was built; when the build
    raises, the call raises the same exception and the solver is not
    invoked. *)
Theorem solver_invoked_after_build
        (gurobi : Solver) (objective : string) (w : World) :
  wf_graph (w_G w) -> NoDup (map fst (w_traffic_demand w)) ->
  let built := build_model objective w in
  let r := solve_linear_program gurobi objective w in
  match snd built with
  | inr _ =>
      m_optimize_calls (w_model (fst r)) = 1%nat /\
      m_outcome (w_model (fst r)) = Some (gurobi (w_model (fst built)))
  | inl e =>
      r = (fst built, inl e) /\ m_optimize_calls (w_model (fst r)) = 0%nat
  end.
Proof.
  intros Hwf Htd built r.
  destruct (build_model_contents objective w Hwf Htd)
    as (_ & _ & _ & _ & _ & Hcalls & _).
  fold built in Hcalls. unfold r.
  destruct built as [w1 [e|[]]] eqn:Hb; simpl in *.
  - rewrite (solve_build_raises gurobi objective w w1 e Hb). auto.
  - rewrite (solve_after_build gurobi objective w w1 Hb).
    rewrite interpret_status_calls, interpret_status_outcome. simpl.
    rewrite Hcalls. auto.
Qed.

Lemma solver_invoked_after_build_witness :
  m_optimize_calls
    (w_model (fst (solve_linear_program (constant_solver OPTIMAL 1) "cost"
                     (world_of cycle3 [((0, 2), 3)])))) = 1%nat.
Proof.
  pose proof (solver_invoked_after_build (constant_solver OPTIMAL 1) "cost"
                (world_of cycle3 [((0, 2), 3)]) wf_cycle3) as H.
  assert (Hnd : NoDup (map fst [((0, 2), 3)])) by solve_NoDup.
  specialize (H Hnd). cbv zeta in H.
  rewrite build_model_ends in H by (assumption || exact wf_cycle3).
  exact (proj1 H).
Defined.

(* ================================================================== *)
(** * What is printed and written *)

Lemma quiet_ret {A} (a : A) : quiet (ret a).
Proof. intros w. split; reflexivity. Qed.

Lemma quiet_raise {A} (e : exn) : quiet (@raise A e).
Proof. intros w. split; reflexivity. Qed.

Lemma quiet_gets {A} (f : World -> A) : quiet (gets f).
Proof. intros w. split; reflexivity. Qed.

Lemma quiet_bind {A B} (m : M A) (k : A -> M B) :
  quiet m -> (forall a, quiet (k a)) -> quiet (bind m k).
Proof.
  intros Hm Hk w. unfold bind. specialize (Hm w).
  destruct (m w) as [w' [e|a]]; simpl in *; [exact Hm|].
  destruct (Hk a w') as [H1 H2]. destruct Hm as [H3 H4].
  split; congruence.
Qed.

Lemma quiet_for_each {A} (l : list A) (body : A -> M unit) :
  (forall a, quiet (body a)) -> quiet (for_each l body).
Proof.
  intros H. induction l as [|a l IH]; simpl.
  - apply quiet_ret.
  - apply quiet_bind; [apply H|intros _; exact IH].
Qed.

Lemma quiet_sum_from {A} (l : list A) (term : A -> M expr) (acc : expr) :
  (forall a, quiet (term a)) -> quiet (sum_from acc l term).
Proof.
  intros H. revert acc. induction l as [|a l IH]; intros acc; simpl.
  - apply quiet_ret.
  - apply quiet_bind; [apply H|intros t; apply IH].
Qed.

Lemma quiet_x_getitem (k : key) : quiet (x_getitem k).
Proof.
  intros w. unfold x_getitem.
  destruct (dict_get key_eqb k (w_x w)); split; reflexivity.
Qed.

Lemma quiet_G_item (u v : node) : quiet (G_item u v).
Proof.
  intros w. unfold G_item.
  destruct (G_getitem (w_G w) u v); split; reflexivity.
Qed.

Lemma quiet_py_div (e : expr) (q : Q) : quiet (py_div e q).
Proof.
  unfold py_div. destruct (Qeq_bool q 0); [apply quiet_raise|apply quiet_ret].
Qed.

Lemma quiet_primitive {A} (m : M A) :
  (forall w, w_stdout (fst (m w)) = w_stdout w) ->
  (forall w, w_files (fst (m w)) = w_files w) ->
  quiet m.
Proof. intros H1 H2 w. split; auto. Qed.

Ltac quiet_steps :=
  repeat first
    [ apply quiet_ret
    | apply quiet_raise
    | apply quiet_gets
    | apply quiet_x_getitem
    | apply quiet_G_item
    | apply quiet_py_div
    | apply quiet_for_each; intros
    | apply quiet_sum_from; intros
    | apply quiet_bind; [|intros]
    | (apply quiet_primitive; reflexivity)
    | match goal with
      | |- quiet (match ?p with (_, _) => _ end) => destruct p
      | |- quiet (if ?b then _ else _) => destruct b
      end ].

Lemma quiet_load_sum (u v : node) : quiet (load_sum u v).
Proof. unfold load_sum, items, py_sum. quiet_steps. Qed.

Lemma quiet_build_model (objective : string) : quiet (build_model objective).
Proof.
  unfold build_model, declare_variables, add_flow_conservation,
    add_capacity_constraints, set_objective, items, flow_sum, py_sum.
  quiet_steps; try apply quiet_load_sum; quiet_steps.
Qed.

(** X3.  What a call of [solve_linear_program] adds to standard output
    and to the files.  When the build raises: nothing.  When the build
    completes, the solver writes its log during [optimize()]; then, when
    and only when the solver reports INFEASIBLE, which is exactly when the
    call returns [None], the first message is printed, the solver writes
    the log of [computeIIS()], [infeasible.ilp] is written and the second
    message is printed.  In every other case, return or raise, the
    function prints no message of its own and writes no file. *)
Theorem output_only_when_infeasible
        (gurobi : Solver) (objective : string) (w : World) :
  let built := build_model objective w in
  let r := solve_linear_program gurobi objective w in
  match snd built with
  | inl e =>
      r = (fst built, inl e) /\
      w_stdout (fst r) = w_stdout w /\ w_files (fst r) = w_files w
  | inr _ =>
      let out := gurobi (w_model (fst built)) in
      (snd r = inr None <-> o_status out = INFEASIBLE) /\
      w_stdout (fst r)
      = w_stdout w ++ o_log out
        ++ (if Status_eqb (o_status out) INFEASIBLE
            then ["Modèle infaisable. Analyse des conflits..."%string]
                 ++ o_iis_log out
                 ++ ["Conflits enregistrés dans infeasible.ilp"%string]
            else []) /\
      w_files (fst r)
      = w_files w ++ (if Status_eqb (o_status out) INFEASIBLE
                      then ["infeasible.ilp"%string] else [])
  end.
Proof.
  intros built r. unfold r, built, solve_linear_program. clear r built.
  destruct (quiet_build_model objective w) as [Hout Hfiles].
  destruct (build_model objective w) as [w1 [e|[]]] eqn:Hb; simpl in Hout, Hfiles;
    cbn [fst snd].
  - rewrite (bind_raise _ _ _ _ _ Hb). cbn [fst]. auto.
  - rewrite (bind_ok _ _ _ _ _ Hb).
    rewrite (bind_ok _ _ w1 (fst (optimize gurobi w1)) tt) by reflexivity.
    unfold interpret_status. rewrite bind_gets.
    change (m_status (w_model (fst (optimize gurobi w1))))
      with (o_status (gurobi (w_model w1))).
    destruct (o_status (gurobi (w_model w1))) eqn:Hst; simpl;
      rewrite Hout, Hfiles, ?app_nil_r, <- ?app_assoc;
      (split; [split; intros H; first [discriminate H|reflexivity]
              |split; reflexivity]).
Qed.

(* ================================================================== *)
(** * The size of the model and the objectives *)

Lemma length_flow_keys (G : DiGraph) (td : Demands) :
  List.length (flow_keys G td) = (List.length td * List.length (G_edges G))%nat.
Proof.
  unfold flow_keys. induction td as [|d td IH]; simpl; [reflexivity|].
  rewrite length_app, length_map. f_equal. exact IH.
Qed.

Lemma length_conservation_constrs (G : DiGraph) (td : Demands) :
  List.length (conservation_constrs G td)
  = (List.length td * List.length (G_nodes G))%nat.
Proof.
  unfold conservation_constrs. induction td as [|d td IH]; simpl; [reflexivity|].
  rewrite length_app, length_map. f_equal. exact IH.
Qed.

(** The model of a build that completes. *)
Lemma build_model_defined (objective : string) (w : World) :
  wf_graph (w_G w) -> NoDup (map fst (w_traffic_demand w)) ->
  objective_defined (w_G w) objective ->
  let G := w_G w in
  let td := w_traffic_demand w in
  let m := w_model (fst (build_model objective w)) in
  let max := (objective =? "max_utlilization")%string in
  m_vars m = map var_of_key (flow_keys G td)
             ++ (if max then [utilisation_var] else []) /\
  m_constrs m = map passed (conservation_constrs G td ++ capacity_constrs G td
                            ++ (if max then utilisation_constrs G td else [])) /\
  m_objective m
  = Some (if (objective =? "cost")%string then cost_objective G td
          else if max then EVar utilisation_var
          else avg_objective G td, MINIMIZE).
Proof.
  intros Hwf Htd Hobj G td m max. unfold m, max.
  rewrite build_model_eq by assumption.
  pose proof (Ctx_after_constraints w Hwf) as HC.
  destruct Hobj as [->|[[-> Hnz]|(-> & Hnz & Hne)]].
  - rewrite (set_objective_cost_run _ _ _ HC). simpl.
    rewrite !app_nil_r. auto.
  - rewrite (set_objective_max_run _ _ _ HC Hnz). simpl.
    rewrite !map_app, <- ?app_assoc. auto.
  - rewrite (set_objective_avg_run _ _ _ HC Hnz Hne). simpl.
    rewrite !app_nil_r. auto.
Qed.

(** X4.  When the build completes, the model has one variable per
    (demand, arc) pair and one row, the constraint or bool given to
    [addConstr], per (demand, node) pair and per arc; the max-utilisation
    objective adds one variable and one constraint per arc.  (The run recorded in the notebook, 15 nodes, 20
    demands and 61 arcs under ["cost"], shows 20 * 61 = 1220 columns and
    20 * 15 + 61 = 361 rows.) *)
Theorem model_size (objective : string) (w : World) :
  wf_graph (w_G w) -> NoDup (map fst (w_traffic_demand w)) ->
  objective_defined (w_G w) objective ->
  let demands := List.length (w_traffic_demand w) in
  let nodes := List.length (G_nodes (w_G w)) in
  let arcs := List.length (G_edges (w_G w)) in
  let m := w_model (fst (build_model objective w)) in
  let max := (objective =? "max_utlilization")%string in
  List.length (m_vars m) = (demands * arcs + (if max then 1 else 0))%nat /\
  List.length (m_constrs m)
  = (demands * nodes + arcs + (if max then arcs else 0))%nat.
Proof.
  intros Hwf Htd Hobj demands nodes arcs m max.
  destruct (build_model_defined objective w Hwf Htd Hobj) as (Hv & Hc & _).
  fold m max in Hv, Hc. rewrite Hv, Hc.
  rewrite !length_map, !length_app, length_map, length_flow_keys,
    length_conservation_constrs.
  unfold capacity_constrs, utilisation_constrs.
  destruct max; simpl; rewrite ?length_map; split; unfold demands, nodes, arcs; lia.
Qed.

Lemma model_size_witness :
  List.length (m_constrs (w_model (fst (build_model "max_utlilization"
                                          (world_of cycle3 [((0, 2), 3)])))))
  = 9%nat.
Proof.
  destruct (model_size "max_utlilization" (world_of cycle3 [((0, 2), 3)]))
    as [_ H].
  - exact wf_cycle3.
  - solve_NoDup.
  - right. left. split; [reflexivity|].
    repeat constructor; simpl; intros E; discriminate E.
  - exact H.
Defined.

Lemma Qsum_app {A} (f : A -> Q) (l1 l2 : list A) :
  (Qsum f (l1 ++ l2) == Qsum f l1 + Qsum f l2)%Q.
Proof.
  induction l1 as [|a l1 IH]; simpl; [ring|]. rewrite IH. ring.
Qed.

Lemma eval_sum_expr (val : Var -> Q) (es : list expr) :
  (eval val (sum_expr es) == Qsum (eval val) es)%Q.
Proof. unfold sum_expr. rewrite eval_fold_EAdd. simpl. ring. Qed.

Lemma Qsum_list_prod {A B} (f : A * B -> Q) (l1 : list A) (l2 : list B) :
  (Qsum f (list_prod l1 l2) == Qsum (fun a => Qsum (fun b => f (a, b)) l2) l1)%Q.
Proof.
  induction l1 as [|a l1 IH]; simpl; [reflexivity|].
  rewrite Qsum_app, IH, Qsum_map. reflexivity.
Qed.

(** The volume carried on an arc. *)
Lemma eval_load (val : Var -> Q) (td : Demands) (u v : Z) :
  (eval val (load td u v)
   == Qsum (fun d => inject_Z (snd d)
                     * val (flow_var (fst (fst d)) (snd (fst d)) u v)) td)%Q.
Proof. unfold load. rewrite eval_sum_expr, Qsum_map. reflexivity. Qed.

(** X5.  With the selector ["cost"] the build always completes; it adds
    no variable and no constraint of its own and sets the objective to
    minimise the sum, over the demands and the arcs, of
    [x[i, j, u, v] * volume * cost(u, v)]. *)
Theorem cost_objective_built (w : World) :
  wf_graph (w_G w) -> NoDup (map fst (w_traffic_demand w)) ->
  let G := w_G w in
  let td := w_traffic_demand w in
  let r := build_model "cost" w in
  let m := w_model (fst r) in
  snd r = inr tt /\
  m_vars m = map var_of_key (flow_keys G td) /\
  m_constrs m = map passed (conservation_constrs G td ++ capacity_constrs G td) /\
  exists objective,
    m_objective m = Some (objective, MINIMIZE) /\
    forall val,
      (eval val objective
       == Qsum (fun d =>
            Qsum (fun e => val (flow_var (fst (fst d)) (snd (fst d)) (fst e) (snd e))
                           * inject_Z (snd d) * cost_of G (fst e) (snd e))
                 (G_edges G)) td)%Q.
Proof.
  intros Hwf Htd G td r m.
  destruct (build_model_defined "cost" w Hwf Htd (or_introl eq_refl)) as (Hv & Hc & Ho).
  simpl in Hv, Hc, Ho. rewrite !app_nil_r in *.
  fold G td in Hv, Hc, Ho. fold r in Hv, Hc, Ho. fold m in Hv, Hc, Ho.
  split.
  { unfold r. rewrite build_model_ends by assumption. reflexivity. }
  split; [exact Hv|]. split; [exact Hc|].
  exists (cost_objective G td). split; [exact Ho|].
  intros val. unfold cost_objective.
  rewrite eval_sum_expr, Qsum_map, Qsum_list_prod. reflexivity.
Qed.

Lemma cost_objective_built_witness :
  snd (build_model "cost" (world_of cycle3 [((0, 2), 3)])) = inr tt.
Proof.
  destruct (cost_objective_built (world_of cycle3 [((0, 2), 3)])) as [H _].
  - exact wf_cycle3.
  - solve_NoDup.
  - exact H.
Defined.

(** X6.  With the selector ["avg_utilisation"], on a graph that has an
    arc and no capacity zero, the build completes; it adds no variable and
    no constraint of its own and sets the objective to minimise the sum
    over the arcs of (volume carried on the arc) / capacity, divided by
    the number of arcs. *)
Theorem avg_objective_built (w : World) :
  wf_graph (w_G w) -> NoDup (map fst (w_traffic_demand w)) ->
  capacities_nonzero (w_G w) -> g_adj (w_G w) <> [] ->
  let G := w_G w in
  let td := w_traffic_demand w in
  let r := build_model "avg_utilisation" w in
  let m := w_model (fst r) in
  snd r = inr tt /\
  m_vars m = map var_of_key (flow_keys G td) /\
  m_constrs m = map passed (conservation_constrs G td ++ capacity_constrs G td) /\
  exists objective,
    m_objective m = Some (objective, MINIMIZE) /\
    forall val,
      (eval val objective
       == Qsum (fun e =>
            Qsum (fun d => inject_Z (snd d)
                           * val (flow_var (fst (fst d)) (snd (fst d)) (fst e) (snd e)))
                 td
            / capacity_of G (fst e) (snd e)) (G_edges G)
          / inject_Z (G_number_of_edges G))%Q.
Proof.
  intros Hwf Htd Hnz Hne G td r m.
  assert (Hobj : objective_defined (w_G w) "avg_utilisation").
  { right. right. auto. }
  destruct (build_model_defined "avg_utilisation" w Hwf Htd Hobj) as (Hv & Hc & Ho).
  simpl in Hv, Hc, Ho. rewrite !app_nil_r in *.
  fold G td in Hv, Hc, Ho. fold r in Hv, Hc, Ho. fold m in Hv, Hc, Ho.
  split.
  { destruct (build_model_succeeds "avg_utilisation" w Hwf Htd Hobj) as (w1 & Hb & _).
    unfold r. rewrite Hb. reflexivity. }
  split; [exact Hv|]. split; [exact Hc|].
  exists (avg_objective G td). split; [exact Ho|].
  intros val. unfold avg_objective. simpl.
  rewrite eval_sum_expr, Qsum_map.
  apply Qmult_comp; [|reflexivity].
  apply Qsum_ext. intros e _. simpl. rewrite eval_load. reflexivity.
Qed.

Lemma avg_objective_built_witness :
  snd (build_model "avg_utilisation" (world_of cycle3 [((0, 2), 3)])) = inr tt.
Proof.
  destruct (avg_objective_built (world_of cycle3 [((0, 2), 3)])) as [H _].
  - exact wf_cycle3.
  - solve_NoDup.
  - repeat constructor; simpl; intros E; discriminate E.
  - discriminate.
  - exact H.
Defined.

(* ================================================================== *)
(** * What the conservation constraints say of a malformed demand *)

Lemma conservation_in_model (objective : string) (w : World) (i j d n : Z) :
  wf_graph (w_G w) -> NoDup (map fst (w_traffic_demand w)) ->
  In ((i, j), d) (w_traffic_demand w) -> In n (G_nodes (w_G w)) ->
  In (passed (conservation (w_G w) i j n))
     (m_constrs (w_model (fst (build_model objective w)))).
Proof.
  intros Hwf Htd Hd Hn.
  destruct (build_model_contents objective w Hwf Htd)
    as (vs & cs & _ & _ & Hc & _).
  rewrite Hc. apply in_map. apply in_or_app. left. unfold conservation_constrs.
  apply in_flat_map. exists ((i, j), d). split; [exact Hd|].
  apply in_map_iff. exists n. auto.
Qed.

(** The value of a number does not depend on the variables. *)
Lemma eval_number (val : Var -> Q) (e : expr) :
  vars_of e = [] -> (eval val e == number e)%Q.
Proof.
  unfold number. induction e as [q|v|a IHa b IHb|a IHa b IHb|a IHa b IHb|a IHa q];
    simpl; intros H.
  - reflexivity.
  - discriminate.
  - apply app_eq_nil in H. rewrite (IHa (proj1 H)), (IHb (proj2 H)). reflexivity.
  - apply app_eq_nil in H. rewrite (IHa (proj1 H)), (IHb (proj2 H)). reflexivity.
  - apply app_eq_nil in H. rewrite (IHa (proj1 H)), (IHb (proj2 H)). reflexivity.
  - rewrite (IHa H). reflexivity.
Qed.

(** An assignment satisfies what was given for a comparison exactly when
    it satisfies the comparison: the bool of a comparison of numbers is
    its truth. *)
Lemma satisfies_passed (val : Var -> Q) (c : Constr) :
  satisfies val (passed c) <-> holds val c.
Proof.
  unfold satisfies, passed, compare. cbn [given given_name].
  destruct (is_number (c_lhs c) && is_number (c_rhs c)) eqn:E.
  - apply andb_true_iff in E. destruct E as [El Er].
    assert (Hl : (eval val (c_lhs c) == number (c_lhs c))%Q).
    { apply eval_number. unfold is_number in El.
      destruct (vars_of (c_lhs c)); [reflexivity|discriminate]. }
    assert (Hr : (eval val (c_rhs c) == number (c_rhs c))%Q).
    { apply eval_number. unfold is_number in Er.
      destruct (vars_of (c_rhs c)); [reflexivity|discriminate]. }
    unfold holds, truth. destruct (c_sense c); rewrite Hl, Hr.
    + apply Qle_bool_iff.
    + apply Qeq_bool_iff.
    + apply Qle_bool_iff.
  - destruct c. reflexivity.
Qed.

(** What a conservation constraint asks of inflow minus outflow. *)
Lemma holds_conservation (val : Var -> Q) (G : DiGraph) (i j n : Z) :
  holds val (conservation G i j n) <->
  (eval val (inflow G i j n) - eval val (outflow G i j n)
   == if n =? i then -1 else if n =? j then 1 else 0)%Q.
Proof.
  unfold holds, conservation.
  destruct (n =? i); [|destruct (n =? j)]; simpl; split; intros H.
  - rewrite <- (Qplus_inj_r _ _ (eval val (inflow G i j n))) in H.
    ring_simplify in H. rewrite H. ring.
  - rewrite <- (Qplus_inj_r _ _ (eval val (outflow G i j n))) in H.
    ring_simplify in H. rewrite H. ring.
  - exact H.
  - exact H.
  - exact H.
  - exact H.
Qed.

Lemma existsb_In (i : Z) (l : list Z) : existsb (Z.eqb i) l = true <-> In i l.
Proof.
  rewrite existsb_exists. split.
  - intros [k [Hk E]]. apply Z.eqb_eq in E. subst k. exact Hk.
  - intros H. exists i. split; [exact H|apply Z.eqb_refl].
Qed.

(** X7.  If some assignment of the variables satisfies every constraint
    of the built model, then every demand either has its origin and its
    destination in the graph, and they differ, or has neither in the
    graph.  So a demand with exactly one end in the graph, or from a node
    of the graph to itself, makes the model infeasible. *)
Theorem feasible_model_demands (objective : string) (w : World) (val : Var -> Q) :
  wf_graph (w_G w) -> NoDup (map fst (w_traffic_demand w)) ->
  (forall a, In a (m_constrs (w_model (fst (build_model objective w)))) ->
             satisfies val a) ->
  forall i j d, In ((i, j), d) (w_traffic_demand w) ->
    (In i (G_nodes (w_G w)) /\ In j (G_nodes (w_G w)) /\ i <> j) \/
    (~ In i (G_nodes (w_G w)) /\ ~ In j (G_nodes (w_G w))).
Proof.
  intros Hwf Htd Hsat i j d Hd.
  set (G := w_G w) in *.
  pose proof (net_inflow_sums_to_zero val G i j Hwf) as Hzero.
  assert (Hnodes : forall n, In n (G_nodes G) ->
            (eval val (inflow G i j n) - eval val (outflow G i j n)
             == (if n =? i then -1 else 0)
                + (if n =? j then (if j =? i then 0 else 1) else 0))%Q).
  { intros n Hn.
    rewrite (proj1 (holds_conservation val G i j n)
               (proj1 (satisfies_passed val _)
                  (Hsat _ (conservation_in_model objective w i j d n Hwf Htd Hd Hn)))).
    destruct (Z.eqb_spec n i) as [->|Hni].
    - destruct (Z.eqb_spec i j) as [->|Hij].
      + rewrite Z.eqb_refl. ring.
      + ring.
    - destruct (Z.eqb_spec n j) as [->|Hnj]; [|ring].
      destruct (Z.eqb_spec j i) as [E|_]; [congruence|ring]. }
  rewrite (Qsum_ext _ _ _ Hnodes), Qsum_plus in Hzero.
  rewrite (Qsum_at (fun _ => (-1)%Q) i (G_nodes G) (proj1 Hwf)) in Hzero.
  rewrite (Qsum_at (fun _ => if j =? i then 0%Q else 1%Q) j (G_nodes G) (proj1 Hwf))
    in Hzero.
  destruct (existsb (Z.eqb i) (G_nodes G)) eqn:Ei,
           (existsb (Z.eqb j) (G_nodes G)) eqn:Ej.
  - destruct (Z.eqb_spec j i) as [E|Hne]; [discriminate Hzero|].
    left. apply existsb_In in Ei. apply existsb_In in Ej. auto.
  - discriminate Hzero.
  - destruct (Z.eqb_spec j i) as [E|Hne]; [|discriminate Hzero].
    subst j. congruence.
  - right. split; intros H; apply existsb_In in H; congruence.
Qed.

Lemma route_0_1_2_feasible :
  forall a, In a (m_constrs (w_model (fst (build_model "cost"
                                             (world_of cycle3 [((0, 2), 3)]))))) ->
            satisfies route_0_1_2 a.
Proof.
  intros c Hc. vm_compute in Hc.
  repeat (destruct Hc as [<-|Hc]; [vm_compute; try reflexivity; discriminate|]).
  destruct Hc.
Qed.

Lemma feasible_model_demands_witness :
  (In 0 (G_nodes cycle3) /\ In 2 (G_nodes cycle3) /\ 0 <> 2) \/
  (~ In 0 (G_nodes cycle3) /\ ~ In 2 (G_nodes cycle3)).
Proof.
  apply (feasible_model_demands "cost" (world_of cycle3 [((0, 2), 3)]) route_0_1_2
           wf_cycle3) with (d := 3).
  - solve_NoDup.
  - exact route_0_1_2_feasible.
  - left. reflexivity.
Defined.

(** X8.  A demand whose origin and destination are both absent from the
    graph is not rejected and constrains nothing: each of its
    conservation comparisons is given to the model, only asks that inflow
    equal outflow at the node, and is satisfied by the zero flow. *)
Theorem demand_outside_graph (objective : string) (w : World) (i j d n : Z) :
  wf_graph (w_G w) -> NoDup (map fst (w_traffic_demand w)) ->
  In ((i, j), d) (w_traffic_demand w) ->
  ~ In i (G_nodes (w_G w)) -> ~ In j (G_nodes (w_G w)) ->
  In n (G_nodes (w_G w)) ->
  let G := w_G w in
  let c := passed (conservation G i j n) in
  In c (m_constrs (w_model (fst (build_model objective w)))) /\
  (forall val, satisfies val c <->
               (eval val (inflow G i j n) == eval val (outflow G i j n))%Q) /\
  satisfies (fun _ => 0%Q) c.
Proof.
  intros Hwf Htd Hd Hi Hj Hn G c.
  split; [apply (conservation_in_model objective w i j d n); assumption|].
  assert (Hni : (n =? i) = false).
  { apply Z.eqb_neq. intros ->. contradiction. }
  assert (Hnj : (n =? j) = false).
  { apply Z.eqb_neq. intros ->. contradiction. }
  assert (Hbal : forall val, satisfies val c <->
            (eval val (inflow G i j n) == eval val (outflow G i j n))%Q).
  { intros val. unfold c. rewrite satisfies_passed, holds_conservation, Hni, Hnj.
    split; intros H.
    - rewrite <- (Qplus_inj_r _ _ (- eval val (outflow G i j n))). rewrite H. ring.
    - rewrite H. ring. }
  split; [exact Hbal|].
  apply Hbal. unfold inflow, outflow. rewrite !eval_flows.
  rewrite !Qsum_zero. reflexivity.
Qed.

Lemma demand_outside_graph_witness :
  satisfies (fun _ => 0%Q) (passed (conservation one_arc 7 8 0)).
Proof.
  destruct (demand_outside_graph "cost" (world_of one_arc [((7, 8), 3)]) 7 8 3 0)
    as (_ & _ & H).
  - exact wf_one_arc.
  - solve_NoDup.
  - left. reflexivity.
  - simpl. intros [E|[E|[]]]; discriminate E.
  - simpl. intros [E|[E|[]]]; discriminate E.
  - simpl. auto.
  - exact H.
Defined.

(* ================================================================== *)
(** * What read_instance returns *)

Section ReadFacts.
Variable py_float : string -> option Q.

Lemma read_demand_of_entry (cells : Row) (st : ReadState) :
  exists e, read_demand ("entry"%string :: cells) st = inl e.
Proof.
  unfold read_demand. simpl.
  destruct cells as [|c1 [|c2 cells]]; simpl; eauto.
  destruct (to_int c2) as [e|d]; simpl; eauto.
Qed.

Lemma read_arc_keeps (row : Row) (st st' : ReadState) :
  read_arc py_float row st = inr st' ->
  r_traffic_demand st' = r_traffic_demand st /\
  r_section st' = r_section st /\ r_S st' = r_S st /\
  exists u v a, r_G st' = G_add_edge (r_G st) u v a.
Proof.
  unfold read_arc.
  destruct (cell row 0) as [e|c0]; simpl; [discriminate|].
  destruct (to_int c0) as [e|u]; simpl; [discriminate|].
  destruct (cell row 1) as [e|c1]; simpl; [discriminate|].
  destruct (to_int c1) as [e|v]; simpl; [discriminate|].
  destruct (cell row 2) as [e|c2]; simpl; [discriminate|].
  destruct (to_float py_float c2) as [e|cap]; simpl; [discriminate|].
  destruct (cell row 3) as [e|c3]; simpl; [discriminate|].
  destruct (to_float py_float c3) as [e|cst]; simpl; [discriminate|].
  intros [= <-]. simpl. repeat split. eauto.
Qed.

(** What the loop keeps true of its state, whatever the rows. *)
Lemma read_rows_invariant (I : DiGraph -> Prop) :
  (forall G u v a, I G -> I (G_add_edge G u v a)) ->
  forall rows st st',
    I (r_G st) -> r_traffic_demand st = [] -> r_section st <> traffic ->
    read_rows py_float rows st = inr st' ->
    I (r_G st') /\ r_traffic_demand st' = [].
Proof.
  intros Hadd. induction rows as [|row rows IH]; intros st st' HI Htd Hsec H.
  - simpl in H. injection H as <-. auto.
  - simpl in H. destruct row as [|c0 cells]; [exact (IH _ _ HI Htd Hsec H)|].
    destruct (String.eqb_spec c0 "Source"); [exact (IH _ _ HI Htd Hsec H)|].
    destruct (String.eqb_spec c0 "entry") as [->|Hentry].
    + simpl in H. destruct (read_demand_of_entry cells (set_section traffic st)) as [e E].
      rewrite E in H. discriminate H.
    + destruct (String.eqb_spec c0 "Subset S").
      * apply (IH (set_section subset st) st'); [exact HI|exact Htd| |exact H].
        simpl. discriminate.
      * destruct (r_section st) eqn:Es.
        -- destruct (read_arc py_float (c0 :: cells) st) as [e|st2] eqn:Ea;
             simpl in H; [discriminate|].
           destruct (read_arc_keeps _ _ _ Ea) as (Htd2 & Hsec2 & _ & u & v & a & HG).
           apply (IH st2 st'); [| | |exact H].
           ++ rewrite HG. apply Hadd. exact HI.
           ++ congruence.
           ++ rewrite Hsec2, Es. discriminate.
        -- contradiction.
        -- destruct (map_int (c0 :: cells)) as [e|S]; simpl in H; [discriminate|].
           injection H as <-. simpl. auto.
Qed.

(** X9.  [read_instance] never returns a demand: whenever it returns,
    the demand dict it returns is empty.  (A row that starts the demand
    section is itself parsed as a demand and raises.) *)
Theorem read_instance_no_demand
        (rows : list Row) (G : DiGraph) (S : list Z) (td : Demands) :
  read_instance py_float rows = inr (G, S, td) -> td = [].
Proof.
  unfold read_instance. intros H.
  destruct (read_rows py_float rows _) as [e|st] eqn:E; simpl in H; [discriminate|].
  injection H as _ _ <-.
  apply (read_rows_invariant (fun _ => True)) in E; auto.
  - tauto.
  - simpl. discriminate.
Qed.

Lemma dict_set_keys {K V} (eqb : K -> K -> bool)
      (eqb_eq : forall a b, eqb a b = true <-> a = b)
      (k : K) (v : V) (d : list (K * V)) :
  map fst (dict_set eqb k v d)
  = if existsb (eqb k) (map fst d) then map fst d else map fst d ++ [k].
Proof.
  induction d as [|[k' v'] d IH]; simpl; [reflexivity|].
  destruct (eqb k k') eqn:E; simpl; [reflexivity|].
  rewrite IH. destruct (existsb (eqb k) (map fst d)); reflexivity.
Qed.

Lemma dict_set_keys_NoDup {K V} (eqb : K -> K -> bool)
      (eqb_eq : forall a b, eqb a b = true <-> a = b)
      (k : K) (v : V) (d : list (K * V)) :
  NoDup (map fst d) -> NoDup (map fst (dict_set eqb k v d)).
Proof.
  intros H. rewrite (dict_set_keys eqb eqb_eq).
  destruct (existsb (eqb k) (map fst d)) eqn:E; [exact H|].
  apply NoDup_app; [exact H|solve_NoDup|].
  intros a Ha [E'|[]]. subst a.
  assert (existsb (eqb k) (map fst d) = true); [|congruence].
  apply existsb_exists. exists k. split; [exact Ha|apply eqb_eq; reflexivity].
Qed.

Lemma dict_set_keys_In {K V} (eqb : K -> K -> bool)
      (eqb_eq : forall a b, eqb a b = true <-> a = b)
      (k k' : K) (v : V) (d : list (K * V)) :
  In k' (map fst (dict_set eqb k v d)) <-> k' = k \/ In k' (map fst d).
Proof.
  rewrite (dict_set_keys eqb eqb_eq).
  destruct (existsb (eqb k) (map fst d)) eqn:E.
  - split; [tauto|]. intros [->|H]; [|exact H].
    apply existsb_exists in E. destruct E as [a [Ha E]].
    apply eqb_eq in E. subst a. exact Ha.
  - rewrite in_app_iff. simpl. split; intros H; intuition congruence.
Qed.

Lemma add_node_nodes (G : DiGraph) (n m : node) :
  In m (g_nodes (add_node G n)) <-> m = n \/ In m (g_nodes G).
Proof.
  unfold add_node. destruct (existsb (Z.eqb n) (g_nodes G)) eqn:E; simpl.
  - apply existsb_In in E. split; [tauto|]. intros [->|H]; assumption.
  - rewrite in_app_iff. simpl. split; intros H; intuition congruence.
Qed.

Lemma add_node_NoDup (G : DiGraph) (n : node) :
  NoDup (g_nodes G) -> NoDup (g_nodes (add_node G n)).
Proof.
  intros H. unfold add_node.
  destruct (existsb (Z.eqb n) (g_nodes G)) eqn:E; simpl; [exact H|].
  apply NoDup_app; [exact H|solve_NoDup|].
  intros a Ha [E'|[]]. subst a. apply existsb_In in Ha. congruence.
Qed.

Lemma add_node_adj (G : DiGraph) (n : node) : g_adj (add_node G n) = g_adj G.
Proof. unfold add_node. destruct (existsb _ _); reflexivity. Qed.

Lemma G_add_edge_nodes (G : DiGraph) (u v : node) (a : EdgeAttr) (m : node) :
  In m (g_nodes (G_add_edge G u v a)) <-> m = u \/ m = v \/ In m (g_nodes G).
Proof.
  unfold G_add_edge. simpl. rewrite !add_node_nodes. tauto.
Qed.

Lemma G_add_edge_arcs (G : DiGraph) (u v : node) (a : EdgeAttr) (e : arc) :
  In e (map fst (g_adj (G_add_edge G u v a))) <->
  e = (u, v) \/ In e (map fst (g_adj G)).
Proof.
  unfold G_add_edge. simpl.
  rewrite (dict_set_keys_In arc_eqb arc_eqb_eq), !add_node_adj. tauto.
Qed.

(** [G.add_edge] keeps the invariants of a graph. *)
Lemma G_add_edge_wf (G : DiGraph) (u v : node) (a : EdgeAttr) :
  wf_graph G -> wf_graph (G_add_edge G u v a).
Proof.
  intros (Hn & Hk & Hends). split; [|split].
  - unfold G_add_edge. simpl. apply add_node_NoDup, add_node_NoDup, Hn.
  - unfold G_add_edge. simpl. rewrite !add_node_adj.
    apply (dict_set_keys_NoDup arc_eqb arc_eqb_eq). exact Hk.
  - intros x y Hxy. apply G_add_edge_arcs in Hxy.
    rewrite !G_add_edge_nodes. destruct Hxy as [[= -> ->]|Hxy]; [tauto|].
    destruct (Hends x y Hxy). tauto.
Qed.

Lemma G_add_edge_no_isolated (G : DiGraph) (u v : node) (a : EdgeAttr) :
  no_isolated_node G -> no_isolated_node (G_add_edge G u v a).
Proof.
  intros H n Hn. apply G_add_edge_nodes in Hn.
  destruct Hn as [->|[->|Hn]].
  - exists u, v. split; [apply G_add_edge_arcs; auto|auto].
  - exists u, v. split; [apply G_add_edge_arcs; auto|auto].
  - destruct (H n Hn) as (x & y & Hxy & Hend).
    exists x, y. split; [apply G_add_edge_arcs; auto|exact Hend].
Qed.

Lemma wf_empty_DiGraph : wf_graph empty_DiGraph.
Proof. split; [constructor|]. split; [constructor|]. intros u v []. Qed.

(** X10.  Every graph that [read_instance] returns is a well-formed
    graph in which every node has an arc: nodes enter it only as ends of
    the arcs that are read. *)
Theorem read_instance_graph
        (rows : list Row) (G : DiGraph) (S : list Z) (td : Demands) :
  read_instance py_float rows = inr (G, S, td) ->
  wf_graph G /\
  forall n, In n (G_nodes G) -> G_in_edges G n <> [] \/ G_out_edges G n <> [].
Proof.
  unfold read_instance. intros H.
  destruct (read_rows py_float rows _) as [e|st] eqn:E; simpl in H; [discriminate|].
  injection H as <- _ _.
  apply (read_rows_invariant (fun G => wf_graph G /\ no_isolated_node G)) in E.
  - destruct E as [[Hwf Hiso] _]. split; [exact Hwf|].
    intros n Hn. destruct (Hiso n Hn) as (u & v & Huv & Hend).
    destruct Hend as [-> | ->].
    + right. intros E.
      assert (Hin : In (u, v) (G_out_edges (r_G st) u))
        by (apply in_G_out_edges; auto).
      rewrite E in Hin. destruct Hin.
    + left. intros E.
      assert (Hin : In (u, v) (G_in_edges (r_G st) v))
        by (apply in_G_in_edges; auto).
      rewrite E in Hin. destruct Hin.
  - intros G0 u v a [Hwf Hiso]. split.
    + apply G_add_edge_wf, Hwf.
    + apply G_add_edge_no_isolated, Hiso.
  - simpl. split; [exact wf_empty_DiGraph|]. intros n [].
  - reflexivity.
  - simpl. discriminate.
Qed.

(** X11.  Blank rows and rows whose first cell is ["Source"] are passed
    over wherever they stand: removing them from a file does not change
    what [read_instance] returns or raises. *)
Theorem read_instance_passes_over (rows : list Row) :
  read_instance py_float (filter (fun row => negb (passed_over row)) rows)
  = read_instance py_float rows.
Proof.
  unfold read_instance. f_equal.
  generalize ({| r_G := empty_DiGraph; r_traffic_demand := []; r_S := [];
                 r_section := arcs |}) as st.
  induction rows as [|row rows IH]; intros st; [reflexivity|].
  destruct row as [|c0 cells]; simpl filter; [exact (IH st)|].
  unfold passed_over.
  destruct (String.eqb_spec c0 "Source") as [->|Hsrc]; simpl negb; cbv iota.
  - simpl. exact (IH st).
  - simpl. destruct (String.eqb_spec c0 "Source"); [contradiction|].
    destruct (c0 =? "Subset S")%string; [apply IH|].
    destruct (r_section _).
    + destruct (read_arc py_float (c0 :: cells) _); simpl; [reflexivity|apply IH].
    + destruct (read_demand (c0 :: cells) _); simpl; [reflexivity|apply IH].
    + reflexivity.
Qed.
End ReadFacts.

Lemma read_instance_no_demand_witness :
  exists G S,
    read_instance float_of_literal
      [["Source"; "Target"; "Capacity"; "Cost"]; ["0"; "1"; "2"; "5"]; [];
       ["Subset S"]; ["0"; "1"]]%string
    = inr (G, S, []).
Proof.
  eexists. eexists.
  assert (H : exists r, read_instance float_of_literal
      [["Source"; "Target"; "Capacity"; "Cost"]; ["0"; "1"; "2"; "5"]; [];
       ["Subset S"]; ["0"; "1"]]%string = inr r)
    by (eexists; vm_compute; reflexivity).
  destruct H as [[[G S] td] H].
  rewrite H. rewrite (read_instance_no_demand float_of_literal _ G S td H).
  vm_compute in H. injection H as <- <- _. reflexivity.
Defined.

Lemma read_instance_graph_witness :
  wf_graph {| g_nodes := [0; 1];
              g_adj := [((0, 1), {| capacity := 2; cost := 5 |})] |}.
Proof.
  apply (read_instance_graph float_of_literal
           [["Source"; "Target"; "Capacity"; "Cost"]; ["0"; "1"; "2"; "5"]; [];
            ["Subset S"]; ["0"; "1"]]%string _ [0; 1] []).
  vm_compute. reflexivity.
Defined.

(* ================================================================== *)
(** * What save_to_csv records, and what is read back of it *)

(** [int(str(n))] is [n]. *)
Lemma py_int_py_str (n : Z) : py_int (py_str n) = Some n.
Proof.
  unfold py_int, py_str. rewrite NilZero.isi.
  - simpl. rewrite DecimalZ.of_to. reflexivity.
  - destruct n; simpl; intros [= H]; try discriminate H.
    exact (DecimalPos.Unsigned.to_uint_nonnil _ H).
  - destruct n; simpl; intros [= H].
    exact (DecimalPos.Unsigned.to_uint_nonnil _ H).
Qed.

Lemma to_int_py_str (n : Z) : to_int (py_str n) = inr n.
Proof. unfold to_int. rewrite py_int_py_str. reflexivity. Qed.

Lemma map_int_py_str (l : list Z) : map_int (map py_str l) = inr l.
Proof.
  induction l as [|n l IH]; simpl; [reflexivity|].
  rewrite to_int_py_str. simpl. rewrite IH. reflexivity.
Qed.

Section SaveFacts.
Variable str_num : Q -> string.
Variable py_float : string -> option Q.


(** The records of arcs that are in the graph. *)
Lemma arc_rows_run (G : DiGraph) (edges : list arc) :
  incl edges (map fst (g_adj G)) ->
  arc_rows str_num G edges
  = inr (map (fun e => arc_record str_num e (attr_of G e)) edges).
Proof.
  induction edges as [|[u v] edges IH]; intros Hincl; simpl; [reflexivity|].
  destruct (G_getitem_some G u v (Hincl _ (or_introl eq_refl))) as [a Ha].
  rewrite Ha, IH by (intros e He; apply Hincl; right; exact He). simpl.
  unfold arc_record, attr_of, capacity_of, cost_of. simpl. rewrite Ha. reflexivity.
Qed.



(** Reading the record of an arc adds the arc. *)
Lemma read_arc_record (e : arc) (a : EdgeAttr) (st : ReadState) :
  py_float (str_num (capacity a)) = Some (capacity a) ->
  py_float (str_num (cost a)) = Some (cost a) ->
  read_arc py_float (arc_record str_num e a) st
  = inr {| r_G := G_add_edge (r_G st) (fst e) (snd e) a;
           r_traffic_demand := r_traffic_demand st; r_S := r_S st;
           r_section := r_section st |}.
Proof.
  intros Hcap Hcost. unfold read_arc, arc_record. simpl.
  rewrite !to_int_py_str. simpl. unfold to_float. rewrite Hcap, Hcost. simpl.
  destruct a. reflexivity.
Qed.

Lemma read_rows_arc_record (e : arc) (a : EdgeAttr) (rows : list Row) (st : ReadState) :
  r_section st = arcs ->
  read_rows py_float (arc_record str_num e a :: rows) st
  = ebind (read_arc py_float (arc_record str_num e a) st)
          (fun st2 => read_rows py_float rows st2).
Proof.
  intros Hsec. destruct (py_str_not_header (fst e)) as (H1 & H2 & H3).
  unfold arc_record. simpl. rewrite H1, H2, H3, Hsec. reflexivity.
Qed.

Lemma read_rows_arc_records (l : list (arc * EdgeAttr)) (rest : list Row) (st : ReadState) :
  (forall e a, In (e, a) l ->
     py_float (str_num (capacity a)) = Some (capacity a) /\
     py_float (str_num (cost a)) = Some (cost a)) ->
  r_section st = arcs ->
  read_rows py_float (map (fun ea => arc_record str_num (fst ea) (snd ea)) l ++ rest) st
  = read_rows py_float rest
      {| r_G := fold_left (fun G ea => G_add_edge G (fst (fst ea)) (snd (fst ea)) (snd ea))
                          l (r_G st);
         r_traffic_demand := r_traffic_demand st; r_S := r_S st;
         r_section := arcs |}.
Proof.
  revert st. induction l as [|[e a] l IH]; intros st Hfloat Hsec.
  - simpl. destruct st. simpl in Hsec. subst. reflexivity.
  - destruct (Hfloat e a (or_introl eq_refl)) as [Hcap Hcost].
    cbn [map fst snd]. rewrite <- app_comm_cons.
    match goal with
    | |- read_rows _ (_ :: ?r) _ = _ =>
        etransitivity; [exact (read_rows_arc_record e a r st Hsec)|]
    end.
    rewrite (read_arc_record e a st Hcap Hcost). unfold ebind.
    etransitivity.
    + apply IH.
      * intros e' a' H'. apply (Hfloat e' a'). right; exact H'.
      * exact Hsec.
    + reflexivity.
Qed.

Lemma fold_add_edge_adj (l : list (arc * EdgeAttr)) (G : DiGraph) :
  g_adj (fold_left (fun G ea => G_add_edge G (fst (fst ea)) (snd (fst ea)) (snd ea)) l G)
  = fold_left (fun d ea => dict_set arc_eqb (fst ea) (snd ea) d) l (g_adj G).
Proof.
  revert G. induction l as [|[[u v] a] l IH]; intros G; simpl; [reflexivity|].
  rewrite IH. unfold G_add_edge. simpl. rewrite !add_node_adj. reflexivity.
Qed.

Lemma fold_add_edge_nodes (l : list (arc * EdgeAttr)) (G : DiGraph) (n : node) :
  In n (g_nodes (fold_left (fun G ea => G_add_edge G (fst (fst ea)) (snd (fst ea)) (snd ea))
                           l G)) <->
  In n (g_nodes G) \/
  exists u v, In (u, v) (map fst l) /\ (n = u \/ n = v).
Proof.
  revert G. induction l as [|[[u v] a] l IH]; intros G; simpl.
  - split; [tauto|]. intros [H|(u & v & [] & _)]. exact H.
  - rewrite IH, G_add_edge_nodes. split.
    + intros [[->|[->|H]]|(x & y & Hxy & Hn)]; eauto 8.
    + intros [H|(x & y & [[= <- <-]|Hxy] & Hn)]; [tauto|tauto|eauto 8].
Qed.

Lemma arc_eq_dec (a b : arc) : {a = b} + {a <> b}.
Proof. decide equality; apply Z.eq_dec. Qed.

Lemma fold_dict_set_items (l d : list (arc * EdgeAttr)) :
  NoDup (map fst d ++ map fst l) ->
  fold_left (fun d ea => dict_set arc_eqb (fst ea) (snd ea) d) l d = d ++ l.
Proof.
  revert d. induction l as [|[e a] l IH]; intros d Hnd; simpl.
  - symmetry. apply app_nil_r.
  - simpl in Hnd. rewrite (dict_set_fresh arc_eqb arc_eqb_eq).
    + rewrite IH.
      * rewrite <- app_assoc. reflexivity.
      * rewrite map_app, <- app_assoc. exact Hnd.
    + apply NoDup_remove_2 in Hnd. intros H. apply Hnd.
      apply in_or_app. left; exact H.
Qed.

Lemma dict_get_absent {K V} (eqb : K -> K -> bool)
      (eqb_eq : forall a b, eqb a b = true <-> a = b) (k : K) (d : list (K * V)) :
  ~ In k (map fst d) -> dict_get eqb k d = None.
Proof.
  intros H. destruct (dict_get eqb k d) as [v|] eqn:E; [|reflexivity].
  apply (dict_get_In eqb eqb_eq) in E. exfalso. apply H.
  apply in_map_iff. exists (k, v). auto.
Qed.

(** The end of a file: a blank row, the header of the subset, the subset. *)
Lemma read_rows_subset (S : list Z) (st : ReadState) :
  r_section st = arcs -> r_S st = [] ->
  read_rows py_float [[]; ["Subset S"%string]; map py_str S] st
  = inr {| r_G := r_G st; r_traffic_demand := r_traffic_demand st; r_S := S;
           r_section := subset |}.
Proof.
  intros Hsec HS. destruct S as [|s S].
  - simpl. destruct st. simpl in *. subst. reflexivity.
  - destruct (py_str_not_header s) as (H1 & H2 & H3).
    cbn [read_rows map]. simpl String.eqb. cbv iota.
    cbn [read_rows]. rewrite H1, H2, H3. simpl r_section. cbv iota.
    change (py_str s :: map py_str S) with (map py_str (s :: S)).
    rewrite map_int_py_str. reflexivity.
Qed.

(** X13.  The arc section and the subset section of a saved file are
    read back: on the rows [save_to_csv] writes for a well-formed graph
    and a subset, with the demand section left out, [read_instance]
    returns a graph with the same arcs and the same capacity and cost on
    each (as far as [float(str(x))] gives [x] back), whose nodes are the
    ends of the arcs, the same subset, and no demand. *)
Theorem arcs_and_subset_read_back (G : DiGraph) (S : list Z) (rows : list Row) :
  wf_graph G ->
  (forall e a, In (e, a) (g_adj G) ->
     py_float (str_num (capacity a)) = Some (capacity a) /\
     py_float (str_num (cost a)) = Some (cost a)) ->
  arc_rows str_num G (G_edges G) = inr rows ->
  exists G',
    read_instance py_float
      ([["Source"; "Target"; "Capacity"; "Cost"]%string]
       ++ rows ++ [[]; ["Subset S"%string]; map py_str S])
    = inr (G', S, []) /\
    (forall u v, G_getitem G' u v = G_getitem G u v) /\
    (forall n, In n (G_nodes G') <->
               exists u v, In (u, v) (map fst (g_adj G)) /\ (n = u \/ n = v)).
Proof.
  intros Hwf Hfloat Hrows.
  rewrite (arc_rows_run G (G_edges G)) in Hrows by (intros e; apply G_edges_in_adj).
  injection Hrows as <-.
  set (l := map (fun e => (e, attr_of G e)) (G_edges G)).
  assert (Hattr : forall u v a, G_getitem G u v = Some a -> attr_of G (u, v) = a).
  { intros u v a Ha. unfold attr_of, capacity_of, cost_of. simpl. rewrite Ha.
    destruct a. reflexivity. }
  assert (Hl : forall e a, In (e, a) l -> In (e, a) (g_adj G)).
  { intros e a Hin. unfold l in Hin. apply in_map_iff in Hin.
    destruct Hin as [e' [E He]]. injection E as -> <-. destruct e as [u v].
    apply G_edges_in_adj in He.
    destruct (G_getitem_some G u v He) as [a Ha].
    rewrite (Hattr u v a Ha).
    apply (dict_get_In arc_eqb arc_eqb_eq). exact Ha. }
  assert (Hkeys : map fst l = G_edges G).
  { unfold l. rewrite map_map. simpl. apply map_id. }
  set (G' := fold_left (fun G0 ea => G_add_edge G0 (fst (fst ea)) (snd (fst ea)) (snd ea))
                       l empty_DiGraph).
  assert (Hadj : g_adj G' = l).
  { unfold G'. rewrite fold_add_edge_adj. simpl g_adj.
    rewrite fold_dict_set_items; [reflexivity|].
    simpl. rewrite Hkeys. apply NoDup_G_edges, Hwf. }
  exists G'. split; [|split].
  - unfold read_instance.
    match goal with
    | |- ebind (read_rows _ (_ ++ ?r ++ ?tail) ?st) _ = _ =>
        change (read_rows py_float ([["Source"; "Target"; "Capacity"; "Cost"]%string]
                                    ++ r ++ tail) st)
          with (read_rows py_float (r ++ tail) st)
    end.
    replace (map (fun e => arc_record str_num e (attr_of G e)) (G_edges G))
      with (map (fun ea => arc_record str_num (fst ea) (snd ea)) l)
      by (unfold l; rewrite map_map; reflexivity).
    rewrite read_rows_arc_records.
    + rewrite read_rows_subset by reflexivity. reflexivity.
    + intros e a Hin. apply (Hfloat e a), Hl, Hin.
    + reflexivity.
  - intros u v. unfold G_getitem at 1. rewrite Hadj.
    destruct (in_dec arc_eq_dec (u, v) (G_edges G)) as [Hin|Hout].
    + unfold l. rewrite (dict_get_map arc_eqb arc_eqb_eq (attr_of G) (u, v) _ Hin).
      apply G_edges_in_adj in Hin.
      destruct (G_getitem_some G u v Hin) as [a Ha].
      rewrite Ha, (Hattr u v a Ha). reflexivity.
    + rewrite (dict_get_absent arc_eqb arc_eqb_eq) by (rewrite Hkeys; exact Hout).
      symmetry. apply (dict_get_absent arc_eqb arc_eqb_eq).
      intros H. apply Hout. apply (in_G_edges G _ Hwf). exact H.
  - intros n. unfold G_nodes, G'. rewrite fold_add_edge_nodes. simpl. rewrite Hkeys.
    split.
    + intros [[]|(u & v & Huv & Hn)]. exists u, v.
      split; [apply G_edges_in_adj; exact Huv|exact Hn].
    + intros (u & v & Huv & Hn). right. exists u, v.
      split; [apply (in_G_edges G _ Hwf); exact Huv|exact Hn].
Qed.
End SaveFacts.


Lemma arcs_and_subset_read_back_witness :
  exists G',
    read_instance float_of_literal
      [["Source"; "Target"; "Capacity"; "Cost"]; ["0"; "1"; "2"; "5"]; [];
       ["Subset S"]; ["0"; "1"]]%string
    = inr (G', [0; 1], []) /\
    G_getitem G' 0 1 = Some {| capacity := 2; cost := 5 |}.
Proof.
  destruct (arcs_and_subset_read_back str_integral float_of_literal one_arc [0; 1]
              [["0"; "1"; "2"; "5"]]%string wf_one_arc) as (G' & H & Hget & _).
  - intros e a [E|[]]. injection E as <- <-. split; reflexivity.
  - reflexivity.
  - exists G'. split; [exact H|]. rewrite Hget. reflexivity.
Defined.

(* ================================================================== *)
(** * The generators *)

Lemma gbind_ok {A B} (m : Gen A) (k : A -> Gen B) (r r' : Rng) (a : A) :
  m r = inr (a, r') -> gbind m k r = k a r'.
Proof. intros H. unfold gbind. rewrite H. reflexivity. Qed.

Lemma gbind_raise {A B} (m : Gen A) (k : A -> Gen B) (r : Rng) (e : error) :
  m r = inl e -> gbind m k r = inl e.
Proof. intros H. unfold gbind. rewrite H. reflexivity. Qed.

(** ** random *)

Lemma random_random_run (r : Rng) :
  exists u, random_random r = inr (u, snd (next_draw r)) /\ (0 <= u)%Q /\ (u < 1)%Q.
Proof.
  unfold random_random, next_draw. cbn [snd]. eexists. split; [reflexivity|].
  match goal with
  | |- context [Z.of_N (?d mod ?m)] =>
      assert (H : (d mod m < m)%N) by (apply N.mod_lt; discriminate);
      pose proof (N2Z.is_nonneg (d mod m)) as H0;
      apply N2Z.inj_lt in H;
      generalize dependent (Z.of_N (d mod m))
  end.
  intros z Hz H0. unfold Qle, Qlt. cbn [Qnum Qden].
  assert (E : Z.of_N (2 ^ 53) = Z.pos (2 ^ 53)) by (vm_compute; reflexivity).
  rewrite E in Hz. clear E.
  revert Hz. generalize (2 ^ 53)%positive. intros p Hz. split; lia.
Qed.

Lemma randbelow_run (n : Z) (r : Rng) :
  0 < n ->
  exists k, randbelow n r = inr (k, snd (next_draw r)) /\ 0 <= k < n.
Proof.
  intros H. unfold randbelow, next_draw. simpl. eexists. split; [reflexivity|].
  apply Z.mod_pos_bound. exact H.
Qed.

Lemma randint_run (lo hi : Z) (r : Rng) :
  lo <= hi ->
  exists c, randint lo hi r = inr (c, snd (next_draw r)) /\ lo <= c <= hi.
Proof.
  intros H. unfold randint.
  destruct (0 <? hi + 1 - lo) eqn:E; [|apply Z.ltb_ge in E; lia].
  destruct (randbelow_run (hi + 1 - lo) r) as (k & Hk & Hr); [lia|].
  rewrite (gbind_ok _ _ _ _ _ Hk). exists (lo + k). split; [reflexivity|lia].
Qed.

Lemma randint_empty (lo hi : Z) (r : Rng) :
  hi < lo -> exists msg, randint lo hi r = inl (Raised (ValueError msg)).
Proof.
  intros H. unfold randint.
  destruct (0 <? hi + 1 - lo) eqn:E; [apply Z.ltb_lt in E; lia|].
  eexists. reflexivity.
Qed.

Lemma uniform_run (a b : Q) (r : Rng) :
  exists k, uniform a b r = inr (k, snd (next_draw r)) /\
            ((a <= b)%Q -> (a <= k)%Q /\ (k <= b)%Q).
Proof.
  unfold uniform. destruct (random_random_run r) as (u & Hu & H0 & H1).
  rewrite (gbind_ok _ _ _ _ _ Hu). eexists. split; [reflexivity|].
  intros Hab.
  assert (Hd : (0 <= b - a)%Q) by (unfold Qminus; rewrite <- Qle_minus_iff; exact Hab).
  split.
  - rewrite <- (Qplus_0_r a) at 1. apply Qplus_le_r.
    apply Qmult_le_0_compat; assumption.
  - assert (Hm : ((b - a) * u <= (b - a) * 1)%Q).
    { rewrite !(Qmult_comm (b - a)). apply Qmult_le_compat_r; [|exact Hd].
      apply Qlt_le_weak. exact H1. }
    apply Qle_trans with (a + (b - a) * 1)%Q; [apply Qplus_le_r; exact Hm|].
    apply Qle_lteq. right. ring.
Qed.

(** ** [sample] *)

Lemma take_at_Permutation {A} (j : nat) (pool pool' : list A) (x : A) :
  take_at j pool = Some (x, pool') -> Permutation (x :: pool') pool.
Proof.
  unfold take_at. destruct (nth_error pool j) as [y|] eqn:E; [|discriminate].
  destruct (nth_error_split pool j E) as (l1 & l2 & Hp & Hj).
  assert (Hf : firstn j pool = l1).
  { subst j pool. clear E. induction l1 as [|a l1 IH]; [reflexivity|].
    simpl. f_equal. exact IH. }
  assert (Hs : skipn (S j) pool = l2).
  { subst j pool. clear E Hf. induction l1 as [|a l1 IH]; [reflexivity|exact IH]. }
  rewrite Hf, Hs. clear Hf Hs E. subst pool. intros H.
  destruct (List.rev l2) as [|z t] eqn:Er; injection H as <- <-.
  - apply (f_equal (@List.rev A)) in Er. rewrite rev_involutive in Er. subst l2.
    simpl. change (y :: l1) with ([y] ++ l1). apply Permutation_app_comm.
  - apply (f_equal (@List.rev A)) in Er. rewrite rev_involutive in Er. subst l2.
    simpl. etransitivity; [apply Permutation_middle|].
    apply Permutation_app_head. apply perm_skip.
    change (z :: List.rev t) with ([z] ++ List.rev t). apply Permutation_app_comm.
Qed.

Lemma take_at_defined {A} (j : nat) (pool : list A) :
  (j < List.length pool)%nat -> exists x pool', take_at j pool = Some (x, pool').
Proof.
  intros H. unfold take_at.
  destruct (nth_error pool j) as [y|] eqn:E.
  - eauto.
  - apply nth_error_None in E. lia.
Qed.

Lemma sample_pool_run {A} (k : nat) :
  forall (pool : list A) (r : Rng),
    (k <= List.length pool)%nat ->
    exists chosen rest r',
      sample_pool pool k r = inr (chosen, r') /\
      Permutation (chosen ++ rest) pool /\ List.length chosen = k.
Proof.
  induction k as [|k IH]; intros pool r Hk.
  - exists [], pool, r. repeat split. apply Permutation_refl.
  - simpl.
    destruct (randbelow_run (Z.of_nat (List.length pool)) r) as (j & Hj & Hr); [lia|].
    rewrite (gbind_ok _ _ _ _ _ Hj).
    destruct (take_at_defined (Z.to_nat j) pool) as (x & pool' & Ht); [lia|].
    rewrite Ht. pose proof (take_at_Permutation _ _ _ _ Ht) as Hp.
    assert (Hlen : List.length pool = S (List.length pool'))
      by (rewrite <- (Permutation_length Hp); reflexivity).
    destruct (IH pool' (snd (next_draw r))) as (chosen & rest & r' & Hs & Hperm & Hl);
      [lia|].
    rewrite (gbind_ok _ _ _ _ _ Hs).
    exists (x :: chosen), rest, r'. repeat split.
    + simpl. etransitivity; [apply perm_skip; exact Hperm|exact Hp].
    + simpl. rewrite Hl. reflexivity.
Qed.

Lemma sample_run {A} (population : list A) (k : Z) (r : Rng) :
  NoDup population -> 0 <= k <= Z.of_nat (List.length population) ->
  exists chosen r',
    sample population k r = inr (chosen, r') /\
    NoDup chosen /\ incl chosen population /\ Z.of_nat (List.length chosen) = k.
Proof.
  intros Hnd Hk. unfold sample.
  replace ((0 <=? k) && (k <=? Z.of_nat (List.length population))) with true
    by (symmetry; apply andb_true_iff; split; apply Z.leb_le; lia).
  destruct (sample_pool_run (Z.to_nat k) population r)
    as (chosen & rest & r' & Hs & Hperm & Hl); [lia|].
  exists chosen, r'. split; [exact Hs|]. split; [|split].
  - apply Permutation_sym in Hperm. apply (Permutation_NoDup Hperm) in Hnd.
    apply NoDup_app_remove_r in Hnd. exact Hnd.
  - intros a Ha. apply (Permutation_in a Hperm). apply in_or_app. left. exact Ha.
  - rewrite Hl. lia.
Qed.

Lemma sample_raises {A} (population : list A) (k : Z) (r : Rng) :
  k < 0 \/ Z.of_nat (List.length population) < k ->
  sample population k r
  = inl (Raised (ValueError "Sample larger than population or is negative")).
Proof.
  intros H. unfold sample.
  replace ((0 <=? k) && (k <=? Z.of_nat (List.length population))) with false;
    [reflexivity|].
  symmetry. apply andb_false_iff.
  destruct H as [H|H]; [left|right]; apply Z.leb_gt; exact H.
Qed.

(** ** The graphs of networkx's generators *)

Lemma In_py_range (n i : Z) : In i (py_range n) <-> 0 <= i < n.
Proof.
  unfold py_range. rewrite in_map_iff. split.
  - intros (k & <- & Hk). apply in_seq in Hk. lia.
  - intros H. exists (Z.to_nat i). split; [lia|]. apply in_seq. lia.
Qed.

Lemma NoDup_py_range (n : Z) : NoDup (py_range n).
Proof.
  unfold py_range. apply Finite.Injective_map_NoDup; [|apply seq_NoDup].
  intros a b H. lia.
Qed.

Lemma length_py_range (n : Z) : List.length (py_range n) = Z.to_nat n.
Proof. unfold py_range. rewrite length_map, length_seq. reflexivity. Qed.

Lemma In_ordered_pairs (nodes : list Z) (u v : Z) :
  In (u, v) (ordered_pairs nodes) <-> In u nodes /\ In v nodes /\ u <> v.
Proof.
  unfold ordered_pairs. rewrite in_flat_map. split.
  - intros (a & Ha & H). apply in_map_iff in H. destruct H as (b & E & Hb).
    injection E as <- <-. apply filter_In in Hb. destruct Hb as [Hb Hne].
    apply negb_true_iff, Z.eqb_neq in Hne. auto.
  - intros (Hu & Hv & Hne). exists u. split; [exact Hu|].
    apply in_map. apply filter_In. split; [exact Hv|].
    apply negb_true_iff, Z.eqb_neq. auto.
Qed.

Lemma NoDup_pairs_by_origin (f : Z -> list Z) (l : list Z) :
  NoDup l -> (forall u, NoDup (f u)) ->
  NoDup (flat_map (fun u => map (pair u) (f u)) l).
Proof.
  intros Hnd Hf. induction Hnd as [|a l Ha Hl IH]; simpl; [constructor|].
  apply NoDup_app; [|exact IH|].
  - apply Finite.Injective_map_NoDup; [|apply Hf].
    intros x y E. injection E as ->. reflexivity.
  - intros [x y] Hx Hy. apply in_map_iff in Hx. destruct Hx as (b & E & _).
    injection E as <- <-. apply in_flat_map in Hy. destruct Hy as (c & Hc & Hy).
    apply in_map_iff in Hy. destruct Hy as (d & E & _). injection E as <- <-.
    exact (Ha Hc).
Qed.

Lemma NoDup_ordered_pairs (nodes : list Z) : NoDup nodes -> NoDup (ordered_pairs nodes).
Proof.
  intros Hnd. unfold ordered_pairs.
  apply (NoDup_pairs_by_origin (fun u => filter (fun v => negb (v =? u)) nodes));
    [exact Hnd|].
  intros u. apply NoDup_filter. exact Hnd.
Qed.

Lemma length_without (u : Z) (l : list Z) :
  NoDup l -> In u l ->
  S (List.length (filter (fun v => negb (v =? u)) l)) = List.length l.
Proof.
  intros Hnd. induction Hnd as [|a l Ha Hl IH]; simpl; [tauto|].
  intros [->|Hu].
  - rewrite Z.eqb_refl. simpl. f_equal.
    clear IH Hl. induction l as [|b l IHl]; simpl; [reflexivity|].
    destruct (b =? u) eqn:E.
    + apply Z.eqb_eq in E. subst b. exfalso. apply Ha. left; reflexivity.
    + simpl. f_equal. apply IHl. intros H. apply Ha. right; exact H.
  - destruct (a =? u) eqn:E.
    + apply Z.eqb_eq in E. subst a. contradiction.
    + simpl. f_equal. exact (IH Hu).
Qed.

Lemma length_pairs_by_origin (f : Z -> list arc) (m : nat) (l : list Z) :
  (forall u, In u l -> List.length (f u) = m) ->
  List.length (flat_map f l) = (List.length l * m)%nat.
Proof.
  intros H. induction l as [|a l IH]; simpl; [reflexivity|].
  rewrite length_app, H by (left; reflexivity).
  rewrite IH; [reflexivity|]. intros u Hu. apply H. right; exact Hu.
Qed.

Lemma length_ordered_pairs (nodes : list Z) :
  NoDup nodes ->
  List.length (ordered_pairs nodes)
  = (List.length nodes * (List.length nodes - 1))%nat.
Proof.
  intros Hnd. unfold ordered_pairs. apply length_pairs_by_origin.
  intros u Hu. rewrite length_map. pose proof (length_without u nodes Hnd Hu). lia.
Qed.

Lemma pairwise_from (m : nat) :
  forall a : nat,
    combine (map Z.of_nat (seq a (S m))) (map Z.of_nat (seq (S a) m) ++ [0])
    = map (fun i => (i, if i =? Z.of_nat (a + m) then 0 else i + 1))
          (map Z.of_nat (seq a (S m))).
Proof.
  induction m as [|m IH]; intros a.
  - simpl. rewrite Nat.add_0_r, Z.eqb_refl. reflexivity.
  - assert (E1 : map Z.of_nat (seq a (S (S m)))
                 = Z.of_nat a :: map Z.of_nat (seq (S a) (S m))) by reflexivity.
    assert (E2 : map Z.of_nat (seq (S a) (S m)) ++ [0]
                 = Z.of_nat (S a) :: (map Z.of_nat (seq (S (S a)) m) ++ [0]))
      by reflexivity.
    rewrite E1, E2. cbn [map combine]. rewrite IH. f_equal.
    + f_equal. destruct (Z.of_nat a =? Z.of_nat (a + S m)) eqn:E; [|lia].
      apply Z.eqb_eq in E. lia.
    + apply map_ext. intros i. replace (S a + m)%nat with (a + S m)%nat by lia.
      reflexivity.
Qed.

(** The arcs of the cycle: from every node to the next one, modulo [n]. *)
Lemma pairwise_cyclic_range (n : Z) :
  pairwise_cyclic (py_range n) = map (fun i => (i, (i + 1) mod n)) (py_range n).
Proof.
  unfold py_range. destruct (Z.to_nat n) as [|m] eqn:E; [reflexivity|].
  change (seq 0 (S m)) with (0%nat :: seq 1 m) at 1.
  cbn [map pairwise_cyclic].
  change (Z.of_nat 0 :: map Z.of_nat (seq 1 m)) with (map Z.of_nat (seq 0 (S m))).
  change (Z.of_nat 0) with 0.
  rewrite pairwise_from. apply map_ext_in. intros i Hi.
  apply in_map_iff in Hi. destruct Hi as (k & <- & Hk). apply in_seq in Hk.
  f_equal. destruct (Z.of_nat k =? Z.of_nat (0 + m)) eqn:Ek.
  - apply Z.eqb_eq in Ek. replace (Z.of_nat k + 1) with n by lia.
    symmetry. apply Z.mod_same. lia.
  - apply Z.eqb_neq in Ek. symmetry. apply Z.mod_small. lia.
Qed.

Lemma nx_add_node_present (G : NxDiGraph) (n : node) :
  In n (nx_nodes G) -> nx_add_node G n = G.
Proof.
  intros H. unfold nx_add_node.
  replace (existsb (Z.eqb n) (nx_nodes G)) with true; [reflexivity|].
  symmetry. apply existsb_In. exact H.
Qed.

Lemma nx_add_edge_fresh (nodes : list node) (adj : list (arc * Attrs)) (u v : node) :
  In u nodes -> In v nodes -> ~ In (u, v) (map fst adj) ->
  nx_add_edge {| nx_nodes := nodes; nx_adj := adj |} u v
  = {| nx_nodes := nodes; nx_adj := adj ++ [((u, v), no_data)] |}.
Proof.
  intros Hu Hv Hn. unfold nx_add_edge.
  rewrite !nx_add_node_present by (try rewrite nx_add_node_present; assumption).
  cbn [nx_adj nx_nodes].
  rewrite (dict_get_absent arc_eqb arc_eqb_eq) by exact Hn. reflexivity.
Qed.

(** Adding arcs that are new, between nodes that are there, appends them. *)
Lemma nx_add_edges_from_fresh (nodes : list node) (edges : list arc) :
  (forall u v, In (u, v) edges -> In u nodes /\ In v nodes) ->
  forall adj : list (arc * Attrs),
    NoDup (map fst adj ++ edges) ->
    nx_add_edges_from {| nx_nodes := nodes; nx_adj := adj |} edges
    = {| nx_nodes := nodes; nx_adj := adj ++ map (fun e => (e, no_data)) edges |}.
Proof.
  unfold nx_add_edges_from.
  induction edges as [|[u v] edges IH]; intros Hin adj Hnd; simpl.
  - rewrite app_nil_r. reflexivity.
  - destruct (Hin u v (or_introl eq_refl)) as [Hu Hv].
    rewrite nx_add_edge_fresh; try assumption.
    + rewrite IH.
      * rewrite <- app_assoc. reflexivity.
      * intros a b H. apply Hin. right; exact H.
      * rewrite map_app, <- app_assoc. exact Hnd.
    + apply NoDup_remove_2 in Hnd. intros H. apply Hnd. apply in_or_app.
      left; exact H.
Qed.

Lemma nodes_or_number_cases (n : Z) :
  (0 <= n /\ nodes_or_number n = inr (py_range n)) \/
  (n < 0 /\ exists msg, nodes_or_number n = inl (NetworkXError msg)).
Proof.
  unfold nodes_or_number. destruct (Z.ltb_spec n 0) as [H|H].
  - right. split; [exact H|]. eexists. reflexivity.
  - left. split; [exact H|reflexivity].
Qed.

Lemma complete_graph_eq (n : Z) :
  0 <= n ->
  complete_graph n
  = inr {| nx_nodes := py_range n;
           nx_adj := map (fun e => (e, no_data)) (ordered_pairs (py_range n)) |}.
Proof.
  intros Hn. unfold complete_graph.
  destruct (nodes_or_number_cases n) as [[_ ->]|[H _]]; [|lia].
  unfold empty_graph. cbv zeta. f_equal.
  match goal with |- (if ?b then _ else _) = _ => destruct b eqn:E end.
  - apply (nx_add_edges_from_fresh (py_range n) (ordered_pairs (py_range n))).
    + intros u v H. apply In_ordered_pairs in H. tauto.
    + apply NoDup_ordered_pairs, NoDup_py_range.
  - apply Nat.ltb_ge in E. f_equal.
    destruct (py_range n) as [|a [|b l]]; [reflexivity| |simpl in E; lia].
    unfold ordered_pairs. cbn [flat_map filter]. rewrite Z.eqb_refl. reflexivity.
Qed.

Lemma cycle_graph_eq (n : Z) :
  0 <= n ->
  cycle_graph n
  = inr {| nx_nodes := py_range n;
           nx_adj := map (fun e => (e, no_data))
                         (map (fun i => (i, (i + 1) mod n)) (py_range n)) |}.
Proof.
  intros Hn. unfold cycle_graph.
  destruct (nodes_or_number_cases n) as [[_ ->]|[H _]]; [|lia].
  unfold empty_graph. cbv zeta. f_equal.
  rewrite pairwise_cyclic_range.
  apply (nx_add_edges_from_fresh (py_range n)).
  - intros u v H. apply in_map_iff in H. destruct H as (i & E & Hi).
    injection E as <- <-. split; [exact Hi|].
    apply In_py_range in Hi. apply In_py_range. apply Z.mod_pos_bound. lia.
  - simpl. apply (NoDup_map_inv fst). rewrite map_map. simpl. rewrite map_id.
    apply NoDup_py_range.
Qed.

(** networkx refuses a negative number of nodes. *)
Lemma negative_size_refused (n : Z) :
  n < 0 ->
  (exists msg, complete_graph n = inl (NetworkXError msg)) /\
  (exists msg, cycle_graph n = inl (NetworkXError msg)).
Proof.
  intros Hn. unfold complete_graph, cycle_graph.
  destruct (nodes_or_number_cases n) as [[H _]|[_ [msg ->]]]; [lia|].
  split; exists msg; reflexivity.
Qed.

Lemma glift_returns {A} (x : error + A) (a : A) (r r' : Rng) :
  glift x r = inr (a, r') -> x = inr a /\ r' = r.
Proof.
  unfold glift. destruct x as [e|a']; [discriminate|].
  intros H. injection H as -> ->. auto.
Qed.

(** The random graph: some of the ordered pairs, each once. *)
Lemma gnp_loop_run (p : Q) (nodes : list node) (pairs : list arc) :
  (forall u v, In (u, v) pairs -> In u nodes /\ In v nodes) ->
  forall (chosen0 : list arc) (r : Rng),
    NoDup (chosen0 ++ pairs) ->
    exists chosen r',
      gnp_loop p pairs
        {| nx_nodes := nodes; nx_adj := map (fun e => (e, no_data)) chosen0 |} r
      = inr ({| nx_nodes := nodes;
                nx_adj := map (fun e => (e, no_data)) (chosen0 ++ chosen) |}, r') /\
      incl chosen pairs /\ NoDup (chosen0 ++ chosen).
Proof.
  induction pairs as [|[u v] pairs IH]; intros Hin chosen0 r Hnd.
  - exists [], r. rewrite app_nil_r in *. repeat split; [|exact Hnd].
    intros a [].
  - cbn [gnp_loop]. destruct (random_random_run r) as (x & Hx & _).
    rewrite (gbind_ok _ _ _ _ _ Hx).
    assert (Hin' : forall a b, In (a, b) pairs -> In a nodes /\ In b nodes)
      by (intros a b H; apply Hin; right; exact H).
    destruct (Qle_bool p x).
    + destruct (IH Hin' chosen0 (snd (next_draw r))) as (chosen & r' & Hr & Hi & Hn).
      { apply NoDup_remove_1 in Hnd. exact Hnd. }
      exists chosen, r'. split; [exact Hr|]. split; [|exact Hn].
      intros a Ha. right. apply Hi, Ha.
    + destruct (Hin u v (or_introl eq_refl)) as [Hu Hv].
      rewrite nx_add_edge_fresh; try assumption.
      2:{ rewrite map_map. simpl. rewrite map_id. apply NoDup_remove_2 in Hnd.
          intros H. apply Hnd. apply in_or_app. left; exact H. }
      change [((u, v), no_data)] with (map (fun e : arc => (e, no_data)) [(u, v)]).
      rewrite <- map_app.
      destruct (IH Hin' (chosen0 ++ [(u, v)]) (snd (next_draw r)))
        as (chosen & r' & Hr & Hi & Hn).
      { rewrite <- app_assoc. exact Hnd. }
      exists ((u, v) :: chosen), r'. rewrite <- app_assoc in Hr, Hn.
      split; [exact Hr|]. split; [|exact Hn].
      intros a [<-|Ha]; [left; reflexivity|right; apply Hi, Ha].
Qed.

(** ** generate_graph *)

(** Every graph that [generate_graph] returns: the nodes of [range(n)]
    and arcs without data, each once, between these nodes. *)
Lemma generated_arcs (graph_type : string) (n : Z) (p : option Q)
      (r r' : Rng) (G : NxDiGraph) :
  generate_graph graph_type n p r = inr (G, r') ->
  exists arcs,
    G = {| nx_nodes := py_range n; nx_adj := map (fun e => (e, no_data)) arcs |} /\
    NoDup arcs /\
    forall u v, In (u, v) arcs ->
                In u (py_range n) /\ In v (py_range n) /\
                (u = v -> graph_type = "cycle"%string /\ n = 1).
Proof.
  unfold generate_graph.
  assert (Hcomplete : forall u v, In (u, v) (ordered_pairs (py_range n)) ->
            In u (py_range n) /\ In v (py_range n) /\
            (u = v -> graph_type = "cycle"%string /\ n = 1)).
  { intros u v H. apply In_ordered_pairs in H. destruct H as (Hu & Hv & Hne).
    repeat split; try assumption; contradiction. }
  assert (Hc : forall G0 r0 r1, glift (complete_graph n) r0 = inr (G0, r1) ->
            exists arcs,
              G0 = {| nx_nodes := py_range n;
                      nx_adj := map (fun e => (e, no_data)) arcs |} /\
              NoDup arcs /\
              forall u v, In (u, v) arcs ->
                          In u (py_range n) /\ In v (py_range n) /\
                          (u = v -> graph_type = "cycle"%string /\ n = 1)).
  { intros G0 r0 r1 H. apply glift_returns in H. destruct H as [H _].
    destruct (Z.lt_ge_cases n 0) as [Hneg|Hpos].
    - destruct (proj1 (negative_size_refused n Hneg)) as [msg E]. congruence.
    - rewrite (complete_graph_eq n Hpos) in H. injection H as <-.
      eexists. split; [reflexivity|].
      split; [apply NoDup_ordered_pairs, NoDup_py_range|exact Hcomplete]. }
  destruct (graph_type =? "complete")%string eqn:E1; [apply Hc|].
  destruct (graph_type =? "cycle")%string eqn:E2.
  { apply String.eqb_eq in E2. intros H. apply glift_returns in H. destruct H as [H _].
    destruct (Z.lt_ge_cases n 0) as [Hneg|Hpos].
    { destruct (proj2 (negative_size_refused n Hneg)) as [msg E]. congruence. }
    rewrite (cycle_graph_eq n Hpos) in H. injection H as <-.
    eexists. split; [reflexivity|]. split.
    - apply (NoDup_map_inv fst). rewrite map_map. simpl. rewrite map_id.
      apply NoDup_py_range.
    - intros u v H. apply in_map_iff in H. destruct H as (i & E & Hi).
      injection E as <- <-. pose proof Hi as Hr. apply In_py_range in Hr.
      split; [exact Hi|]. split.
      + apply In_py_range. apply Z.mod_pos_bound. lia.
      + intros Hloop. split; [exact E2|].
        destruct (Z.eq_dec (i + 1) n) as [En|En].
        * rewrite En, Z.mod_same in Hloop by lia. lia.
        * rewrite Z.mod_small in Hloop by lia. lia. }
  destruct (graph_type =? "random")%string eqn:E3; [|discriminate].
  unfold erdos_renyi_graph. destruct p as [p|]; [|discriminate].
  destruct (Qle_bool 1 p); [apply Hc|].
  destruct (nodes_or_number_cases n) as [[_ ->]|[_ [msg ->]]]; [|discriminate].
  cbv zeta. destruct (Qle_bool p 0).
  { intros H. injection H as <- <-. exists []. split; [reflexivity|].
    split; [constructor|]. intros u v []. }
  intros H.
  destruct (gnp_loop_run p (py_range n) (ordered_pairs (py_range n))) with
    (chosen0 := @nil arc) (r := r) as (chosen & r1 & Hr & Hin & Hnd).
  - intros u v Huv. apply In_ordered_pairs in Huv. tauto.
  - apply NoDup_ordered_pairs, NoDup_py_range.
  - unfold empty_graph in H. simpl in Hr. rewrite Hr in H. injection H as <- <-.
    exists chosen. split; [reflexivity|]. split; [exact Hnd|].
    intros u v Huv. apply Hcomplete. apply Hin. exact Huv.
Qed.

(** X14.  Whatever the type, the size and the draws, a graph returned by
    [generate_graph] has the nodes [0 .. n-1] in this order, is a
    well-formed directed graph on them (no arc twice, both ends of every
    arc among the nodes), carries no capacity and no cost yet, and has no
    arc from a node to itself, except the cycle on a single node. *)
Theorem generate_graph_shape (graph_type : string) (n : Z) (p : option Q)
        (r r' : Rng) (G : NxDiGraph) :
  generate_graph graph_type n p r = inr (G, r') ->
  nx_nodes G = py_range n /\
  nx_wf G /\
  (forall e a, In (e, a) (nx_adj G) -> a = no_data) /\
  (forall u, In (u, u) (map fst (nx_adj G)) ->
             graph_type = "cycle"%string /\ n = 1).
Proof.
  intros H. destruct (generated_arcs _ _ _ _ _ _ H) as (arcs & -> & Hnd & Hin).
  cbn [nx_nodes nx_adj].
  assert (Hkeys : map fst (map (fun e : arc => (e, no_data)) arcs) = arcs)
    by (rewrite map_map; simpl; apply map_id).
  split; [reflexivity|]. split; [|split].
  - unfold nx_wf. cbn [nx_nodes nx_adj]. rewrite Hkeys.
    split; [apply NoDup_py_range|]. split; [exact Hnd|].
    intros u v Huv. destruct (Hin u v Huv) as (Hu & Hv & _). auto.
  - intros e a Ha. apply in_map_iff in Ha. destruct Ha as (e' & E & _).
    injection E as _ <-. reflexivity.
  - rewrite Hkeys. intros u Hu. destruct (Hin u u Hu) as (_ & _ & Hloop).
    apply Hloop. reflexivity.
Qed.

Lemma generate_graph_shape_witness :
  generate_graph "cycle" 1 None (constant_draws 0)
  = inr ({| nx_nodes := [0]; nx_adj := [((0, 0), no_data)] |}, constant_draws 0) /\
  nx_wf {| nx_nodes := [0]; nx_adj := [((0, 0), no_data)] |}.
Proof.
  split; [reflexivity|].
  destruct (generate_graph_shape "cycle" 1 None (constant_draws 0) (constant_draws 0)
              {| nx_nodes := [0]; nx_adj := [((0, 0), no_data)] |} eq_refl)
    as (_ & Hwf & _).
  exact Hwf.
Defined.

(** X15.  For a size [n >= 0], the complete graph and the cycle in
    closed form, whatever [p] and the draws, of which none is consumed:
    ['complete'] gives the [n (n - 1)] arcs between the ordered pairs of
    distinct nodes, and ['cycle'] gives one arc from every node [i] to
    [(i + 1) mod n], so [n] arcs, the arc of a single node being a loop. *)
Theorem complete_and_cycle_graphs (n : Z) (p : option Q) (r : Rng) :
  0 <= n ->
  generate_graph "complete" n p r
  = inr ({| nx_nodes := py_range n;
            nx_adj := map (fun e => (e, no_data)) (ordered_pairs (py_range n)) |}, r) /\
  (forall u v, In (u, v) (ordered_pairs (py_range n)) <->
               0 <= u < n /\ 0 <= v < n /\ u <> v) /\
  List.length (ordered_pairs (py_range n)) = (Z.to_nat n * (Z.to_nat n - 1))%nat /\
  generate_graph "cycle" n p r
  = inr ({| nx_nodes := py_range n;
            nx_adj := map (fun e => (e, no_data))
                          (map (fun i => (i, (i + 1) mod n)) (py_range n)) |}, r).
Proof.
  intros Hn. split; [|split; [|split]].
  - unfold generate_graph. simpl. rewrite (complete_graph_eq n Hn). reflexivity.
  - intros u v. rewrite In_ordered_pairs, !In_py_range. reflexivity.
  - rewrite length_ordered_pairs by apply NoDup_py_range.
    rewrite length_py_range. reflexivity.
  - unfold generate_graph. simpl. rewrite (cycle_graph_eq n Hn). reflexivity.
Qed.

Lemma complete_and_cycle_graphs_witness :
  generate_graph "cycle" 3 None (constant_draws 0) = inr (bare_cycle3, constant_draws 0).
Proof.
  destruct (complete_and_cycle_graphs 3 None (constant_draws 0)) as (_ & _ & _ & H).
  - lia.
  - rewrite H. reflexivity.
Defined.

(** X16.  What [generate_graph] refuses.  It raises [ValueError] when the
    type is none of the three, [TypeError] when the type is ['random'] and
    no probability is given, and networkx's [NetworkXError] only for a
    negative size; a negative size is always refused for ['complete'] and
    ['cycle'].  For a size [n >= 0] it returns in every other case, for
    any probability. *)
Theorem generate_graph_raises (graph_type : string) (n : Z) (p : option Q) (r : Rng) :
  match generate_graph graph_type n p r with
  | inl e =>
      (graph_type <> "complete"%string /\ graph_type <> "cycle"%string /\
       graph_type <> "random"%string /\
       e = Raised (ValueError "Type de graphe non supporté")) \/
      (graph_type = "random"%string /\ p = None /\ exists msg, e = TypeError msg) \/
      (n < 0 /\
       (graph_type = "complete"%string \/ graph_type = "cycle"%string \/
        (graph_type = "random"%string /\ p <> None)) /\
       exists msg, e = NetworkXError msg)
  | inr _ =>
      ((graph_type = "complete"%string \/ graph_type = "cycle"%string) /\ 0 <= n) \/
      (graph_type = "random"%string /\ p <> None)
  end.
Proof.
  unfold generate_graph.
  destruct (graph_type =? "complete")%string eqn:E1.
  { apply String.eqb_eq in E1. unfold glift.
    destruct (Z.lt_ge_cases n 0) as [Hneg|Hpos].
    - destruct (proj1 (negative_size_refused n Hneg)) as [msg ->].
      right. right. eauto 6.
    - rewrite (complete_graph_eq n Hpos). auto. }
  destruct (graph_type =? "cycle")%string eqn:E2.
  { apply String.eqb_eq in E2. unfold glift.
    destruct (Z.lt_ge_cases n 0) as [Hneg|Hpos].
    - destruct (proj2 (negative_size_refused n Hneg)) as [msg ->].
      right. right. eauto 6.
    - rewrite (cycle_graph_eq n Hpos). auto. }
  apply String.eqb_neq in E1, E2.
  destruct (graph_type =? "random")%string eqn:E3.
  - apply String.eqb_eq in E3. unfold erdos_renyi_graph. destruct p as [p|].
    + assert (Hp : Some p <> None) by discriminate.
      destruct (Qle_bool 1 p).
      { unfold glift. destruct (Z.lt_ge_cases n 0) as [Hneg|Hpos].
        - destruct (proj1 (negative_size_refused n Hneg)) as [msg ->].
          right. right. eauto 7.
        - rewrite (complete_graph_eq n Hpos). auto. }
      destruct (nodes_or_number_cases n) as [[_ ->]|[Hneg [msg ->]]].
      * cbv zeta. destruct (Qle_bool p 0); [right; auto|].
        destruct (gnp_loop_run p (py_range n) (ordered_pairs (py_range n))) with
          (chosen0 := @nil arc) (r := r) as (chosen & r1 & Hr & _).
        -- intros u v Huv. apply In_ordered_pairs in Huv. tauto.
        -- apply NoDup_ordered_pairs, NoDup_py_range.
        -- unfold empty_graph. simpl in Hr. rewrite Hr. right; auto.
      * right. right. unfold graise. eauto 7.
    + right. left. split; [exact E3|]. split; [reflexivity|]. eexists. reflexivity.
  - apply String.eqb_neq in E3. left. auto.
Qed.

(** ** assign_capacities_and_costs *)

Lemma in_nx_edges (G : NxDiGraph) (e : arc) :
  nx_wf G -> (In e (nx_edges G) <-> In e (map fst (nx_adj G))).
Proof.
  intros (_ & _ & Hends). unfold nx_edges. rewrite in_flat_map. split.
  - intros (n & _ & H). apply in_map_iff in H. destruct H as (ea & <- & H).
    apply filter_In in H. apply in_map. tauto.
  - intros H. exists (fst e). split.
    + destruct e as [u v]. apply (Hends u v H).
    + apply in_map_iff in H. destruct H as (ea & <- & H).
      apply in_map. apply filter_In. split; [exact H|apply Z.eqb_refl].
Qed.

(** On a dict of arcs, [G[u][v][key] = value] changes the data of the arc
    and nothing else. *)
Lemma nx_update_run (e : arc) (f : Attrs -> Attrs) (adj : list (arc * Attrs)) :
  NoDup (map fst adj) -> In e (map fst adj) ->
  nx_update e f adj
  = Some (map (fun ea => if arc_eqb e (fst ea) then (fst ea, f (snd ea)) else ea) adj).
Proof.
  induction adj as [|[e' a] adj IH]; simpl; [tauto|].
  intros Hnd Hin. apply NoDup_cons_iff in Hnd. destruct Hnd as [Hfresh Hnd].
  destruct (arc_eqb e e') eqn:E.
  - apply arc_eqb_eq in E. subst e'. do 2 f_equal.
    symmetry. etransitivity; [|apply map_id]. apply map_ext_in.
    intros [e1 a1] H1. simpl. destruct (arc_eqb e e1) eqn:E1; [|reflexivity].
    apply arc_eqb_eq in E1. subst e1. exfalso. apply Hfresh.
    apply in_map_iff. exists (e, a1). auto.
  - destruct Hin as [->|Hin].
    + assert (arc_eqb e e = true) by (apply arc_eqb_eq; reflexivity). congruence.
    + rewrite (IH Hnd Hin). reflexivity.
Qed.

Lemma nx_update_keys (e : arc) (f : Attrs -> Attrs) (adj : list (arc * Attrs)) :
  map fst (map (fun ea => if arc_eqb e (fst ea) then (fst ea, f (snd ea)) else ea) adj)
  = map fst adj.
Proof.
  rewrite map_map. apply map_ext. intros [e1 a1]. simpl.
  destruct (arc_eqb e e1); reflexivity.
Qed.

Lemma assign_loop_run (capacity_range : Z * Z) (cost_range : Q * Q) :
  fst capacity_range <= snd capacity_range ->
  forall (edges : list arc) (G : NxDiGraph) (r : Rng),
    NoDup (map fst (nx_adj G)) -> incl edges (map fst (nx_adj G)) ->
    exists G' r',
      assign_loop edges capacity_range cost_range G r = inr (G', r') /\
      nx_nodes G' = nx_nodes G /\
      map fst (nx_adj G') = map fst (nx_adj G) /\
      forall e a, In (e, a) (nx_adj G') ->
                  (In e edges /\ assigned capacity_range cost_range a) \/
                  (~ In e edges /\ In (e, a) (nx_adj G)).
Proof.
  intros Hrange. induction edges as [|e edges IH]; intros G r Hnd Hin.
  - exists G, r. repeat split. intros e a H. right. split; [intros []|exact H].
  - cbn [assign_loop].
    destruct (randint_run _ _ r Hrange) as (c & Hc & Hcr).
    rewrite (gbind_ok _ _ _ _ _ Hc).
    assert (He : In e (map fst (nx_adj G))) by (apply Hin; left; reflexivity).
    unfold nx_setitem at 1. rewrite (nx_update_run _ _ _ Hnd He).
    unfold gret at 1. unfold gbind at 1.
    destruct (uniform_run (fst cost_range) (snd cost_range) (snd (next_draw r)))
      as (k & Hk & Hkr).
    rewrite (gbind_ok _ _ _ _ _ Hk).
    unfold nx_setitem at 1. cbn [nx_adj nx_nodes].
    rewrite nx_update_run by (rewrite nx_update_keys; assumption).
    unfold gret at 1. unfold gbind at 1.
    match goal with
    | |- exists G' r', assign_loop _ _ _ ?G2 ?r2 = _ /\ _ =>
        destruct (IH G2 r2) as (G' & r' & Hr & Hnodes & Hkeys & Hdata)
    end.
    { cbn [nx_adj]. rewrite !nx_update_keys. exact Hnd. }
    { cbn [nx_adj]. rewrite !nx_update_keys. intros a Ha. apply Hin. right; exact Ha. }
    exists G', r'. split; [exact Hr|]. split; [exact Hnodes|].
    cbn [nx_adj] in Hkeys. rewrite !nx_update_keys in Hkeys.
    split; [exact Hkeys|].
    intros e' a' H'. destruct (Hdata e' a' H') as [[H1 H2]|[H1 H2]].
    + left. split; [right; exact H1|exact H2].
    + cbn [nx_adj] in H2. rewrite map_map in H2. apply in_map_iff in H2.
      destruct H2 as ([e0 a0] & E & H0). cbn [fst snd] in E.
      destruct (arc_eqb e e0) eqn:E0;
        cbn [fst snd] in E; rewrite E0 in E; cbn [fst snd] in E.
      * apply arc_eqb_eq in E0. subst e0.
        injection E as <- <-. left. split; [left; reflexivity|].
        exists c, k. split; [reflexivity|]. split; [exact Hcr|exact Hkr].
      * injection E as <- <-. right. split; [|exact H0].
        intros [Heq|H]; [|exact (H1 H)].
        apply arc_eqb_eq in Heq. congruence.
Qed.

(** Arcs that all have their data make a graph that [solve_linear_program]
    and [save_to_csv] can read. *)
Lemma adj_data_assigned (capacity_range : Z * Z) (cost_range : Q * Q)
      (adj : list (arc * Attrs)) :
  (forall e a, In (e, a) adj -> assigned capacity_range cost_range a) ->
  exists l,
    adj_data adj = Some l /\ map fst l = map fst adj /\
    forall e d, In (e, d) l ->
      exists c : Z,
        capacity d = inject_Z c /\
        fst capacity_range <= c <= snd capacity_range /\
        ((fst cost_range <= snd cost_range)%Q ->
         (fst cost_range <= cost d)%Q /\ (cost d <= snd cost_range)%Q).
Proof.
  induction adj as [|[e a] adj IH]; intros H.
  - exists []. repeat split. intros e d [].
  - destruct IH as (l & Hl & Hkeys & Hdata).
    { intros e' a' H'. apply (H e' a'). right; exact H'. }
    destruct (H e a (or_introl eq_refl)) as (c & k & -> & Hc & Hk).
    simpl. rewrite Hl. eexists. split; [reflexivity|]. split.
    + simpl. f_equal. exact Hkeys.
    + intros e' d [E|H']; [|exact (Hdata e' d H')].
      injection E as <- <-. exists c. simpl. auto.
Qed.

(** The assignment on a well-formed graph. *)
Lemma assign_run
        (G : NxDiGraph) (capacity_range : Z * Z) (cost_range : Q * Q) (r : Rng) :
  nx_wf G -> fst capacity_range <= snd capacity_range ->
  exists G' r' D,
    assign_capacities_and_costs G capacity_range cost_range r = inr (G', r') /\
    nx_nodes G' = nx_nodes G /\
    map fst (nx_adj G') = map fst (nx_adj G) /\
    (forall e a, In (e, a) (nx_adj G') -> assigned capacity_range cost_range a) /\
    as_DiGraph G' = Some D /\
    g_nodes D = nx_nodes G /\ map fst (g_adj D) = map fst (nx_adj G) /\
    wf_graph D /\
    (0 < fst capacity_range -> capacities_nonzero D).
Proof.
  intros Hwf Hrange. unfold assign_capacities_and_costs.
  pose proof Hwf as (Hnodes & Hnd & Hends).
  destruct (assign_loop_run capacity_range cost_range Hrange (nx_edges G) G r Hnd)
    as (G' & r' & Hr & Hn & Hk & Hdata).
  { intros e He. apply (in_nx_edges G e Hwf). exact He. }
  assert (Hall : forall e a, In (e, a) (nx_adj G') ->
                             assigned capacity_range cost_range a).
  { intros e a H. destruct (Hdata e a H) as [[_ Ha]|[Hno Ha]]; [exact Ha|].
    exfalso. apply Hno. apply (in_nx_edges G e Hwf).
    apply in_map_iff. exists (e, a). auto. }
  destruct (adj_data_assigned _ _ _ Hall) as (l & Hl & Hkeys & Hcap).
  exists G', r', {| g_nodes := nx_nodes G'; g_adj := l |}.
  split; [exact Hr|]. split; [exact Hn|]. split; [exact Hk|]. split; [exact Hall|].
  split; [unfold as_DiGraph; rewrite Hl; reflexivity|].
  cbn [g_nodes g_adj]. rewrite Hkeys, Hk, Hn.
  split; [reflexivity|]. split; [reflexivity|]. split.
  - unfold wf_graph. cbn [g_nodes g_adj]. rewrite Hkeys, Hk. exact Hwf.
  - intros Hpos. unfold capacities_nonzero. cbn [g_adj]. apply Forall_forall.
    intros [e d] Hd. destruct (Hcap e d Hd) as (c & Hc & Hcr & _).
    cbn [snd]. rewrite Hc. unfold Qeq. simpl. lia.
Qed.

(** X17.  On a well-formed graph and a capacity range that is not empty,
    [assign_capacities_and_costs] always returns; it keeps the nodes and
    the arcs, in their order, and leaves on every arc an integer capacity
    within the capacity range and a cost within the cost range, so the
    graph it returns is one that [solve_linear_program] and [save_to_csv]
    can read; with a lower bound of at least 1, no capacity is zero. *)
Theorem assign_capacities_and_costs_run
        (G : NxDiGraph) (capacity_range : Z * Z) (cost_range : Q * Q) (r : Rng) :
  nx_wf G -> fst capacity_range <= snd capacity_range ->
  exists G' r' D,
    assign_capacities_and_costs G capacity_range cost_range r = inr (G', r') /\
    nx_nodes G' = nx_nodes G /\
    map fst (nx_adj G') = map fst (nx_adj G) /\
    (forall e a, In (e, a) (nx_adj G') -> assigned capacity_range cost_range a) /\
    as_DiGraph G' = Some D /\
    g_nodes D = nx_nodes G /\ map fst (g_adj D) = map fst (nx_adj G) /\
    wf_graph D /\
    (0 < fst capacity_range -> capacities_nonzero D).
Proof. exact (assign_run G capacity_range cost_range r). Qed.

Lemma assign_capacities_and_costs_run_witness :
  exists G' r',
    assign_capacities_and_costs bare_cycle3 (1, 10) (1, 5)%Q (constant_draws 0)
    = inr (G', r') /\
    map fst (nx_adj G') = [(0, 1); (1, 2); (2, 0)].
Proof.
  destruct (assign_capacities_and_costs_run bare_cycle3 (1, 10) (1, 5)%Q
              (constant_draws 0)) as (G' & r' & D & H & _ & Hk & _).
  - split; [solve_NoDup|]. split; [solve_NoDup|].
    intros u v [H|[H|[H|[]]]]; injection H as <- <-; simpl; auto.
  - simpl. lia.
  - exists G', r'. split; [exact H|exact Hk].
Defined.

Lemma nx_edges_nil (G : NxDiGraph) : nx_adj G = [] -> nx_edges G = [].
Proof.
  intros H. unfold nx_edges. rewrite H.
  induction (nx_nodes G) as [|n l IH]; [reflexivity|exact IH].
Qed.

(** X18.  With an empty capacity range ([lo > hi]),
    [assign_capacities_and_costs] raises [ValueError] as soon as the graph
    has an arc; on a graph without arcs it returns the graph as it is, and
    no draw is made. *)
Theorem assign_empty_capacity_range
        (G : NxDiGraph) (capacity_range : Z * Z) (cost_range : Q * Q) (r : Rng) :
  nx_wf G -> snd capacity_range < fst capacity_range ->
  match nx_adj G with
  | [] => assign_capacities_and_costs G capacity_range cost_range r = inr (G, r)
  | _ :: _ =>
      exists msg,
        assign_capacities_and_costs G capacity_range cost_range r
        = inl (Raised (ValueError msg))
  end.
Proof.
  intros Hwf Hrange. unfold assign_capacities_and_costs.
  destruct (nx_adj G) as [|[e a] adj] eqn:Hadj.
  - rewrite (nx_edges_nil G Hadj). reflexivity.
  - assert (He : In e (nx_edges G)).
    { apply (in_nx_edges G e Hwf). rewrite Hadj. left. reflexivity. }
    destruct (nx_edges G) as [|e' edges]; [destruct He|].
    cbn [assign_loop].
    destruct (randint_empty _ _ r Hrange) as (msg & Hmsg).
    exists msg. apply gbind_raise. exact Hmsg.
Qed.

Lemma assign_empty_capacity_range_witness :
  exists msg,
    assign_capacities_and_costs bare_cycle3 (10, 1) (1, 5)%Q (constant_draws 0)
    = inl (Raised (ValueError msg)).
Proof.
  apply (assign_empty_capacity_range bare_cycle3 (10, 1) (1, 5)%Q (constant_draws 0)).
  - split; [solve_NoDup|]. split; [solve_NoDup|].
    intros u v [H|[H|[H|[]]]]; injection H as <- <-; simpl; auto.
  - simpl. lia.
Defined.

(** ** generate_traffic_demand *)

(** The pairs of the two nested loops that pass the test [i != j]. *)
Lemma distinct_pairs (l1 l2 : list Z) :
  filter (fun e : arc => negb (fst e =? snd e)) (list_prod l1 l2)
  = flat_map (fun u => map (pair u) (filter (fun v => negb (v =? u)) l2)) l1.
Proof.
  induction l1 as [|u l1 IH]; [reflexivity|].
  cbn [list_prod flat_map]. rewrite filter_app. f_equal; [|exact IH].
  clear IH. induction l2 as [|v l2 IH]; [reflexivity|].
  cbn [map filter fst snd]. rewrite (Z.eqb_sym v u).
  destruct (u =? v); cbn [negb map]; rewrite IH; reflexivity.
Qed.

Lemma demand_loop_run (demand_range : Z * Z) :
  fst demand_range <= snd demand_range ->
  forall (pairs : list arc) (td : Demands) (r : Rng),
    NoDup (map fst td ++ filter (fun e : arc => negb (fst e =? snd e)) pairs) ->
    exists td' r',
      demand_loop pairs demand_range td r = inr (td', r') /\
      map fst td' = map fst td ++ filter (fun e : arc => negb (fst e =? snd e)) pairs /\
      forall e d, In (e, d) td' ->
                  In (e, d) td \/ fst demand_range <= d <= snd demand_range.
Proof.
  intros Hrange. induction pairs as [|[i j] pairs IH]; intros td r Hnd.
  - exists td, r. simpl. rewrite app_nil_r. repeat split. intros e d H. left; exact H.
  - cbn [demand_loop filter fst snd] in *. destruct (negb (i =? j)).
    + destruct (randint_run _ _ r Hrange) as (d & Hd & Hdr).
      rewrite (gbind_ok _ _ _ _ _ Hd).
      assert (Hfresh : ~ In (i, j) (map fst td)).
      { apply NoDup_remove_2 in Hnd. intros H. apply Hnd. apply in_or_app.
        left; exact H. }
      rewrite (dict_set_fresh arc_eqb arc_eqb_eq (i, j) d td Hfresh).
      destruct (IH (td ++ [((i, j), d)]) (snd (next_draw r)))
        as (td' & r' & Hr & Hkeys & Hvol).
      { rewrite map_app, <- app_assoc. exact Hnd. }
      exists td', r'. split; [exact Hr|]. split.
      * rewrite Hkeys, map_app, <- app_assoc. reflexivity.
      * intros e v H. destruct (Hvol e v H) as [H'|H']; [|right; exact H'].
        apply in_app_or in H'. destruct H' as [H'|[E|[]]]; [left; exact H'|].
        injection E as <- <-. right. exact Hdr.
    + apply IH. exact Hnd.
Qed.

(** The subset and the demands that are generated. *)
Lemma traffic_demand_run
        (G : NxDiGraph) (S_size : Z) (demand_range : Z * Z) (r : Rng) :
  NoDup (nx_nodes G) ->
  0 <= S_size <= Z.of_nat (List.length (nx_nodes G)) ->
  fst demand_range <= snd demand_range ->
  exists subset_S td r',
    generate_traffic_demand G S_size demand_range r = inr ((subset_S, td), r') /\
    NoDup subset_S /\ incl subset_S (nx_nodes G) /\
    Z.of_nat (List.length subset_S) = S_size /\
    map fst td = ordered_pairs subset_S /\
    NoDup (map fst td) /\
    Z.of_nat (List.length td) = S_size * (S_size - 1) /\
    forall i j d, In ((i, j), d) td ->
      i <> j /\ In i (nx_nodes G) /\ In j (nx_nodes G) /\
      fst demand_range <= d <= snd demand_range.
Proof.
  intros Hnd Hsize Hrange. unfold generate_traffic_demand.
  destruct (sample_run (nx_nodes G) S_size r Hnd Hsize)
    as (chosen & r1 & Hs & Hnd' & Hincl & Hlen).
  rewrite (gbind_ok _ _ _ _ _ Hs).
  destruct (demand_loop_run demand_range Hrange (list_prod chosen chosen) [] r1)
    as (td & r' & Hr & Hkeys & Hvol).
  { simpl. rewrite distinct_pairs. apply NoDup_ordered_pairs. exact Hnd'. }
  rewrite (gbind_ok _ _ _ _ _ Hr).
  simpl in Hkeys. rewrite distinct_pairs in Hkeys. fold (ordered_pairs chosen) in Hkeys.
  exists chosen, td, r'. split; [reflexivity|].
  split; [exact Hnd'|]. split; [exact Hincl|]. split; [exact Hlen|].
  split; [exact Hkeys|].
  split; [rewrite Hkeys; apply NoDup_ordered_pairs; exact Hnd'|]. split.
  - rewrite <- (length_map fst td), Hkeys, length_ordered_pairs by exact Hnd'.
    rewrite <- Hlen.
    assert (E : forall n : nat, Z.of_nat (n * (n - 1)) = Z.of_nat n * (Z.of_nat n - 1))
      by (intros [|n]; [reflexivity|nia]).
    apply E.
  - intros i j d H.
    assert (Hk : In (i, j) (ordered_pairs chosen)).
    { rewrite <- Hkeys. apply in_map_iff. exists ((i, j), d). auto. }
    apply In_ordered_pairs in Hk. destruct Hk as (Hi & Hj & Hne).
    split; [exact Hne|]. split; [apply Hincl, Hi|]. split; [apply Hincl, Hj|].
    destruct (Hvol _ _ H) as [[]|Hd]. exact Hd.
Qed.

(** X19.  On a graph whose nodes are distinct, with [0 <= S_size <= |V|]
    and a demand range that is not empty, [generate_traffic_demand]
    returns; [S] has [S_size] distinct nodes of the graph, and the demands
    are exactly the ordered pairs of distinct elements of [S], each once,
    in the order of the two loops, with a volume within the range.  So
    there are [S_size (S_size - 1)] demands, each between two different
    nodes of the graph. *)
Theorem generate_traffic_demand_run
        (G : NxDiGraph) (S_size : Z) (demand_range : Z * Z) (r : Rng) :
  NoDup (nx_nodes G) ->
  0 <= S_size <= Z.of_nat (List.length (nx_nodes G)) ->
  fst demand_range <= snd demand_range ->
  exists subset_S td r',
    generate_traffic_demand G S_size demand_range r = inr ((subset_S, td), r') /\
    NoDup subset_S /\ incl subset_S (nx_nodes G) /\
    Z.of_nat (List.length subset_S) = S_size /\
    map fst td = ordered_pairs subset_S /\
    NoDup (map fst td) /\
    Z.of_nat (List.length td) = S_size * (S_size - 1) /\
    forall i j d, In ((i, j), d) td ->
      i <> j /\ In i (nx_nodes G) /\ In j (nx_nodes G) /\
      fst demand_range <= d <= snd demand_range.
Proof. exact (traffic_demand_run G S_size demand_range r). Qed.

Lemma generate_traffic_demand_run_witness :
  exists subset_S td r',
    generate_traffic_demand bare_cycle3 2 (1, 20) (constant_draws 0)
    = inr ((subset_S, td), r') /\
    List.length td = 2%nat.
Proof.
  destruct (generate_traffic_demand_run bare_cycle3 2 (1, 20) (constant_draws 0))
    as (subset_S & td & r' & H & _ & _ & _ & _ & _ & Hlen & _).
  - solve_NoDup.
  - simpl. lia.
  - simpl. lia.
  - exists subset_S, td, r'. split; [exact H|]. lia.
Defined.

(** X20.  [generate_traffic_demand] raises [ValueError] when [S_size] is
    negative or exceeds the number of nodes, and, with an empty demand
    range, as soon as [S] has two nodes; with an empty demand range and at
    most one node in [S] it returns no demand at all. *)
Theorem generate_traffic_demand_raises
        (G : NxDiGraph) (S_size : Z) (demand_range : Z * Z) (r : Rng) :
  NoDup (nx_nodes G) ->
  (S_size < 0 \/ Z.of_nat (List.length (nx_nodes G)) < S_size ->
   generate_traffic_demand G S_size demand_range r
   = inl (Raised (ValueError "Sample larger than population or is negative"))) /\
  (snd demand_range < fst demand_range ->
   0 <= S_size <= Z.of_nat (List.length (nx_nodes G)) ->
   if S_size <=? 1 then
     exists subset_S r',
       generate_traffic_demand G S_size demand_range r = inr ((subset_S, []), r')
   else
     exists msg,
       generate_traffic_demand G S_size demand_range r
       = inl (Raised (ValueError msg))).
Proof.
  intros Hnd. unfold generate_traffic_demand. split.
  - intros H. apply gbind_raise. apply sample_raises. exact H.
  - intros Hrange Hsize.
    destruct (sample_run (nx_nodes G) S_size r Hnd Hsize)
      as (chosen & r1 & Hs & Hnd' & _ & Hlen).
    rewrite (gbind_ok _ _ _ _ _ Hs).
    destruct (S_size <=? 1) eqn:E.
    + apply Z.leb_le in E. exists chosen, r1.
      destruct chosen as [|a [|b l]]; [reflexivity| |simpl in Hlen; lia].
      cbn [list_prod map]. rewrite app_nil_r. cbn [demand_loop].
      rewrite Z.eqb_refl. reflexivity.
    + apply Z.leb_gt in E.
      destruct chosen as [|a [|b l]]; [simpl in Hlen; lia|simpl in Hlen; lia|].
      assert (Hab : a <> b).
      { apply NoDup_cons_iff in Hnd'. intros ->. apply (proj1 Hnd'). left; reflexivity. }
      cbn [list_prod map]. rewrite <- !app_comm_cons. cbn [demand_loop].
      rewrite Z.eqb_refl.
      cbn [negb]. apply Z.eqb_neq in Hab. rewrite Hab. cbn [negb].
      destruct (randint_empty _ _ r1 Hrange) as (msg & Hmsg).
      exists msg. apply gbind_raise. apply gbind_raise. exact Hmsg.
Qed.

Lemma generate_traffic_demand_raises_witness :
  generate_traffic_demand bare_cycle3 4 (1, 20) (constant_draws 0)
  = inl (Raised (ValueError "Sample larger than population or is negative")).
Proof.
  apply (generate_traffic_demand_raises bare_cycle3 4 (1, 20) (constant_draws 0)).
  - solve_NoDup.
  - right. simpl. lia.
Defined.

(** ** The instances of create_instance and test_program *)

Lemma generate_graph_returns (graph_type : string) (n : Z) (p : Q) (r : Rng) :
  graph_type = "complete"%string \/ graph_type = "cycle"%string \/
  graph_type = "random"%string ->
  0 <= n ->
  exists G r', generate_graph graph_type n (Some p) r = inr (G, r').
Proof.
  intros [-> | [-> | ->]] Hn; unfold generate_graph; simpl.
  - rewrite (complete_graph_eq n Hn). simpl. eauto.
  - rewrite (cycle_graph_eq n Hn). simpl. eauto.
  - destruct (Qle_bool 1 p).
    { rewrite (complete_graph_eq n Hn). simpl. eauto. }
    destruct (nodes_or_number_cases n) as [[_ ->]|[Hneg _]]; [|lia].
    cbv zeta. destruct (Qle_bool p 0); [unfold gret; eauto|].
    destruct (gnp_loop_run p (py_range n) (ordered_pairs (py_range n))) with
      (chosen0 := @nil arc) (r := r) as (chosen & r1 & Hr & _).
    + intros u v Huv. apply In_ordered_pairs in Huv. tauto.
    + apply NoDup_ordered_pairs, NoDup_py_range.
    + unfold empty_graph. simpl in Hr. rewrite Hr. eauto.
Qed.

(** The first three lines of both programs: with parameters in their
    domains each of the three generators returns, and the instance is one
    that [solve_linear_program] and [save_to_csv] accept. *)
Lemma instance_generated (graph_type : string) (n_nodes : Z)
      (capacity_range : Z * Z) (cost_range : Q * Q) (S_size : Z)
      (demand_range : Z * Z) (r : Rng) :
  generators_defined graph_type n_nodes capacity_range S_size demand_range ->
  exists G0 r0 G r1 subset_S td r2 D,
    generate_graph graph_type n_nodes (Some (3 # 10)) r = inr (G0, r0) /\
    assign_capacities_and_costs G0 capacity_range cost_range r0 = inr (G, r1) /\
    generate_traffic_demand G S_size demand_range r1 = inr ((subset_S, td), r2) /\
    as_DiGraph G = Some D /\ wf_graph D /\ g_nodes D = py_range n_nodes /\
    (0 < fst capacity_range -> capacities_nonzero D) /\
    NoDup subset_S /\ incl subset_S (g_nodes D) /\
    Z.of_nat (List.length subset_S) = S_size /\
    NoDup (map fst td) /\
    Z.of_nat (List.length td) = S_size * (S_size - 1) /\
    forall i j d, In ((i, j), d) td ->
                  i <> j /\ In i (g_nodes D) /\ In j (g_nodes D).
Proof.
  intros (Htype & Hn0 & Hcap & Hsize & Hdem).
  destruct (generate_graph_returns graph_type n_nodes (3 # 10) r Htype Hn0)
    as (G0 & r0 & H0).
  destruct (generated_arcs _ _ _ _ _ _ H0) as (arcs & HG0 & Hnd & Hin).
  assert (Hwf0 : nx_wf G0).
  { subst G0. unfold nx_wf. cbn [nx_nodes nx_adj].
    rewrite map_map. simpl. rewrite map_id.
    split; [apply NoDup_py_range|]. split; [exact Hnd|].
    intros u v Huv. destruct (Hin u v Huv) as (Hu & Hv & _). auto. }
  assert (Hnodes0 : nx_nodes G0 = py_range n_nodes) by (subst G0; reflexivity).
  destruct (assign_run G0 capacity_range cost_range r0 Hwf0 Hcap)
    as (G & r1 & D & H1 & Hn & _ & _ & HD & HDn & _ & HwfD & Hnz).
  destruct (traffic_demand_run G S_size demand_range r1)
    as (subset_S & td & r' & H2 & HndS & HinS & HlenS & _ & Hkeys & Hlen & Htd).
  { rewrite Hn, Hnodes0. apply NoDup_py_range. }
  { rewrite Hn, Hnodes0, length_py_range. lia. }
  { exact Hdem. }
  exists G0, r0, G, r1, subset_S, td, r', D.
  split; [exact H0|]. split; [exact H1|]. split; [exact H2|].
  split; [exact HD|]. split; [exact HwfD|].
  rewrite HDn, Hnodes0. rewrite Hn, Hnodes0 in HinS, Htd.
  split; [reflexivity|]. split; [exact Hnz|]. split; [exact HndS|].
  split; [exact HinS|]. split; [exact HlenS|]. split; [exact Hkeys|].
  split; [exact Hlen|].
  intros i j d H. destruct (Htd i j d H) as (Hne & Hi & Hj & _). auto.
Qed.

(** The three lines in sequence. *)
Lemma three_generators_run (graph_type : string) (n_nodes : Z)
      (capacity_range : Z * Z) (cost_range : Q * Q) (S_size : Z)
      (demand_range : Z * Z) (r r0 r1 r2 : Rng) (G0 G : NxDiGraph)
      (p : list Z * Demands) :
  generate_graph graph_type n_nodes (Some (3 # 10)) r = inr (G0, r0) ->
  assign_capacities_and_costs G0 capacity_range cost_range r0 = inr (G, r1) ->
  generate_traffic_demand G S_size demand_range r1 = inr (p, r2) ->
  (G <- generate_graph graph_type n_nodes (Some (3 # 10)) ;;
   G <- assign_capacities_and_costs G capacity_range cost_range ;;
   p <- generate_traffic_demand G S_size demand_range ;;
   gret (G, p))%gen r = inr ((G, p), r2).
Proof.
  intros H0 H1 H2.
  rewrite (gbind_ok _ _ _ _ _ H0), (gbind_ok _ _ _ _ _ H1), (gbind_ok _ _ _ _ _ H2).
  reflexivity.
Qed.

(** The result of [solve_linear_program] and what is printed and
    written, by the status the solver reports on the model that was
    built. *)
Lemma solve_linear_program_run
      (gurobi : Solver) (objective : string) (w w1 : World) :
  build_model objective w = (w1, inr tt) ->
  let out := gurobi (w_model w1) in
  let r := solve_linear_program gurobi objective w in
  (o_status out = INFEASIBLE ->
   snd r = inr None /\
   w_stdout (fst r)
   = w_stdout w ++ o_log out
     ++ ["Modèle infaisable. Analyse des conflits..."%string]
     ++ o_iis_log out
     ++ ["Conflits enregistrés dans infeasible.ilp"%string] /\
   w_files (fst r) = w_files w ++ ["infeasible.ilp"%string]) /\
  (o_status out = OPTIMAL ->
   snd r = inr (Some (positive_flows (w_model (fst (optimize gurobi w1))) (w_x w1),
                      o_ObjVal out)) /\
   w_stdout (fst r) = w_stdout w ++ o_log out /\ w_files (fst r) = w_files w) /\
  (o_status out <> INFEASIBLE -> o_status out <> OPTIMAL ->
   snd r = inl (Exception "Pas de solution optimale trouvée") /\
   w_stdout (fst r) = w_stdout w ++ o_log out /\ w_files (fst r) = w_files w).
Proof.
  intros Hb out r. unfold r. rewrite (solve_after_build gurobi objective w w1 Hb).
  destruct (quiet_build_model objective w) as [Hout Hfiles].
  rewrite Hb in Hout, Hfiles. simpl in Hout, Hfiles.
  unfold interpret_status. rewrite bind_gets.
  change (m_status (w_model (fst (optimize gurobi w1)))) with (o_status out).
  destruct (o_status out) eqn:Hst; simpl; rewrite ?Hout, ?Hfiles, <- ?app_assoc;
    repeat split; intros; try congruence; try reflexivity.
Qed.

(** X21.  [test_program] on parameters in their domains (one of the three
    graph types, [n_nodes >= 0], a capacity range and a demand range that
    are not empty, [0 <= S_size <= n_nodes]), under ["cost"], or under
    ["max_utlilization"] with capacities of at least 1.  The three
    generators return in turn a graph, the graph with its data and the
    demands, and the build on this instance completes; what happens next
    is decided by the status the solver reports on the model built from
    this instance.  The solver's log of [optimize()] is written in every
    case.  If the solver reports INFEASIBLE, [solve_linear_program]
    prints its first message, the solver writes the log of
    [computeIIS()], [infeasible.ilp] is written, the second message is
    printed and [None] is returned: [test_program] raises [TypeError] on
    unpacking it and prints no result.  If it reports OPTIMAL, the two
    result lines are printed and the call returns.  On any other status
    the [Exception] of [solve_linear_program] propagates and nothing
    else is printed. *)
Theorem test_program_outcome
        (gurobi : Solver) (str_solution : Solution -> string) (str_value : Q -> string)
        (graph_type : string) (n_nodes : Z) (S_size : Z) (demand_range : Z * Z)
        (capacity_range : Z * Z) (cost_range : Q * Q) (objective : string) (r : Rng) :
  generators_defined graph_type n_nodes capacity_range S_size demand_range ->
  objective = "cost"%string \/
  (objective = "max_utlilization"%string /\ 0 < fst capacity_range) ->
  exists G0 r0 G r1 subset_S td r2 D,
    generate_graph graph_type n_nodes (Some (3 # 10)) r = inr (G0, r0) /\
    assign_capacities_and_costs G0 capacity_range cost_range r0 = inr (G, r1) /\
    generate_traffic_demand G S_size demand_range r1 = inr ((subset_S, td), r2) /\
    as_DiGraph G = Some D /\
    snd (build_model objective (world_of D td)) = inr tt /\
    let built := fst (build_model objective (world_of D td)) in
    let out := gurobi (w_model built) in
    let t := test_program gurobi str_solution str_value graph_type n_nodes S_size
               demand_range capacity_range cost_range objective r in
    (o_status out = INFEASIBLE ->
     t = {| t_stdout := o_log out
                        ++ ["Modèle infaisable. Analyse des conflits..."%string]
                        ++ o_iis_log out
                        ++ ["Conflits enregistrés dans infeasible.ilp"%string];
            t_files := ["infeasible.ilp"%string];
            t_result := inl (TypeError "cannot unpack non-iterable NoneType object") |}) /\
    (o_status out = OPTIMAL ->
     t = {| t_stdout :=
              o_log out
              ++ [("Solution optimale pour " ++ objective ++ ": "
                     ++ str_solution
                          (positive_flows (w_model (fst (optimize gurobi built)))
                                          (w_x built)))%string;
                  ("Valeur optimale pour " ++ objective ++ ": "
                     ++ str_value (o_ObjVal out))%string];
            t_files := [];
            t_result := inr tt |}) /\
    (o_status out <> INFEASIBLE -> o_status out <> OPTIMAL ->
     t = {| t_stdout := o_log out; t_files := [];
            t_result := inl (Raised (Exception "Pas de solution optimale trouvée")) |}).
Proof.
  intros Hgen Hobj.
  destruct (instance_generated graph_type n_nodes capacity_range cost_range S_size
              demand_range r Hgen)
    as (G0 & r0 & G & r1 & subset_S & td & r2 & D & H0 & H1 & H2 & HD & Hwf & _
        & Hnz & _ & _ & _ & Hnd & _).
  exists G0, r0, G, r1, subset_S, td, r2, D.
  split; [exact H0|]. split; [exact H1|]. split; [exact H2|]. split; [exact HD|].
  assert (Hdef : objective_defined D objective).
  { destruct Hobj as [->|[-> Hpos]]; [left; reflexivity|].
    right. left. split; [reflexivity|exact (Hnz Hpos)]. }
  destruct (build_model_succeeds objective (world_of D td) Hwf Hnd Hdef)
    as (w1 & Hb & _).
  pose proof (solve_linear_program_run gurobi objective _ _ Hb) as Hsolve.
  cbv zeta in Hsolve. destruct Hsolve as (Hinf & Hopt & Hother).
  cbv zeta. rewrite Hb. cbn [fst snd]. split; [reflexivity|].
  unfold test_program.
  rewrite (three_generators_run _ _ _ _ _ _ _ _ _ _ _ _ _ H0 H1 H2), HD.
  split; [|split].
  - intros Hst. destruct (Hinf Hst) as (Hres & Hout & Hfiles).
    rewrite Hres, Hout, Hfiles. reflexivity.
  - intros Hst. destruct (Hopt Hst) as (Hres & Hout & Hfiles).
    rewrite Hres, Hout, Hfiles. reflexivity.
  - intros Hs1 Hs2. destruct (Hother Hs1 Hs2) as (Hres & Hout & Hfiles).
    rewrite Hres, Hout, Hfiles. reflexivity.
Qed.

Lemma test_program_outcome_witness :
  test_program (logging_solver INFEASIBLE ["Infeasible model"%string]
                               ["IIS computed"%string])
               (fun _ => ""%string) (fun _ => ""%string)
               "cycle" 3 2 (1, 20) (1, 10) (1, 5)%Q "cost" (constant_draws 0)
  = {| t_stdout := ["Infeasible model";
                    "Modèle infaisable. Analyse des conflits...";
                    "IIS computed";
                    "Conflits enregistrés dans infeasible.ilp"]%string;
       t_files := ["infeasible.ilp"%string];
       t_result := inl (TypeError "cannot unpack non-iterable NoneType object") |}.
Proof.
  destruct (test_program_outcome
              (logging_solver INFEASIBLE ["Infeasible model"%string]
                              ["IIS computed"%string])
              (fun _ => ""%string) (fun _ => ""%string)
              "cycle" 3 2 (1, 20) (1, 10) (1, 5)%Q "cost" (constant_draws 0))
    as (G0 & r0 & G & r1 & subset_S & td & r2 & D & _ & _ & _ & _ & _ & H & _).
  - unfold generators_defined. simpl. repeat split; auto; lia.
  - left. reflexivity.
  - cbv zeta in H. rewrite (H eq_refl). reflexivity.
Defined.

(** Rows that begin like a saved file are not read back: the second
    header is parsed as a demand. *)
Lemma saved_rows_raise (py_float : string -> option Q)
      (arcrows rest : list Row) :
  Forall arc_row arcrows ->
  exists msg,
    read_instance py_float
      ([["Source"; "Target"; "Capacity"; "Cost"]%string] ++ arcrows ++ [[]]
       ++ [["entry"; "Target"; "Traffic Demand"]%string] ++ rest)
    = inl (ValueError msg).
Proof.
  intros Hrows. unfold read_instance.
  match goal with
  | |- context [read_rows py_float (?h ++ arcrows ++ ?tl) ?st] =>
      change (read_rows py_float (h ++ arcrows ++ tl) st)
        with (read_rows py_float (arcrows ++ tl) st);
      destruct (read_rows_arcs py_float arcrows tl st Hrows eq_refl)
        as [[msg Hr]|[st' [Hsec Hr]]]; rewrite Hr
  end.
  - exists msg. reflexivity.
  - eexists. change ([[]] ++ [["entry"; "Target"; "Traffic Demand"]%string] ++ rest)
      with ([] :: ["entry"; "Target"; "Traffic Demand"]%string :: rest).
    change (read_rows py_float
              ([] :: ["entry"; "Target"; "Traffic Demand"]%string :: rest) st')
      with (read_rows py_float (["entry"; "Target"; "Traffic Demand"]%string :: rest) st').
    rewrite (read_rows_entry py_float rest st' Hsec). reflexivity.
Qed.

(** X22.  [create_instance] on parameters in their domains (one of the
    three graph types, [n_nodes >= 0], a capacity range and a demand range
    that are not empty, [0 <= S_size <= n_nodes]) always completes: the
    three generators return in turn a graph on the nodes [0 .. n-1], the
    graph with a capacity and a cost on every arc, and [S] with its
    [S_size (S_size - 1)] demands, so [save_to_csv] raises no [KeyError];
    the file is written under [graph/] with the rows [save_to_csv] gives
    for this instance, and the message is printed.  The file is one that
    [read_instance] does not read back: on its rows it raises
    [ValueError], whatever [float] does. *)
Theorem create_instance_run
        (str_num : Q -> string) (graph_type : string) (n_nodes : Z)
        (capacity_range : Z * Z) (cost_range : Q * Q) (S_size : Z)
        (demand_range : Z * Z) (filename : string) (r : Rng) :
  generators_defined graph_type n_nodes capacity_range S_size demand_range ->
  exists G0 r0 G r1 subset_S td r2 D rows,
    generate_graph graph_type n_nodes (Some (3 # 10)) r = inr (G0, r0) /\
    assign_capacities_and_costs G0 capacity_range cost_range r0 = inr (G, r1) /\
    generate_traffic_demand G S_size demand_range r1 = inr ((subset_S, td), r2) /\
    as_DiGraph G = Some D /\
    wf_graph D /\ g_nodes D = py_range n_nodes /\
    Z.of_nat (List.length subset_S) = S_size /\
    Z.of_nat (List.length td) = S_size * (S_size - 1) /\
    save_to_csv str_num D subset_S td = inr rows /\
    create_instance str_num graph_type n_nodes capacity_range cost_range S_size
      demand_range filename r
    = inr {| c_path := ("graph/" ++ filename)%string;
             c_rows := rows;
             c_stdout := [("Instance générée et sauvegardée dans " ++ filename)%string] |} /\
    forall py_float : string -> option Q,
    exists msg, read_instance py_float rows = inl (ValueError msg).
Proof.
  intros Hgen.
  destruct (instance_generated graph_type n_nodes capacity_range cost_range S_size
              demand_range r Hgen)
    as (G0 & r0 & G & r1 & subset_S & td & r2 & D & H0 & H1 & H2 & HD & Hwf & Hn
        & _ & _ & _ & HlenS & _ & Hlen & _).
  assert (Hrows : arc_rows str_num D (G_edges D)
                  = inr (map (fun e => arc_record str_num e (attr_of D e)) (G_edges D)))
    by (apply arc_rows_run; intros e; apply G_edges_in_adj).
  assert (Hsave : exists rows, save_to_csv str_num D subset_S td = inr rows /\
            forall py_float : string -> option Q,
            exists msg, read_instance py_float rows = inl (ValueError msg)).
  { unfold save_to_csv. rewrite Hrows. cbn [ebind]. eexists. split; [reflexivity|].
    intros py_float. apply saved_rows_raise.
    apply (arc_rows_shape str_num D (G_edges D)). exact Hrows. }
  destruct Hsave as (rows & Hsave & Hread).
  exists G0, r0, G, r1, subset_S, td, r2, D, rows.
  split; [exact H0|]. split; [exact H1|]. split; [exact H2|]. split; [exact HD|].
  split; [exact Hwf|]. split; [exact Hn|]. split; [exact HlenS|]. split; [exact Hlen|].
  split; [exact Hsave|]. split; [|exact Hread].
  unfold create_instance.
  rewrite (three_generators_run _ _ _ _ _ _ _ _ _ _ _ _ _ H0 H1 H2), HD, Hsave.
  reflexivity.
Qed.

Lemma create_instance_run_witness :
  exists rows,
    create_instance str_integral "cycle" 3 (1, 10) (1, 5)%Q 2 (1, 20) "i.csv"
      (constant_draws 0)
    = inr {| c_path := "graph/i.csv"; c_rows := rows;
             c_stdout := ["Instance générée et sauvegardée dans i.csv"%string] |}.
Proof.
  destruct (create_instance_run str_integral "cycle" 3 (1, 10) (1, 5)%Q 2 (1, 20)
              "i.csv" (constant_draws 0))
    as (G0 & r0 & G & r1 & subset_S & td & r2 & D & rows & _ & _ & _ & _ & _ & _ & _
        & _ & _ & H & _).
  - unfold generators_defined. simpl. repeat split; auto; lia.
  - exists rows. exact H.
Defined.
